(** * rtracklayer / UCSC kent library: bit vectors, range gap finder, url data cache

    A shallow embedding of [src/ucsc/bits.c] (bit arrays) and of
    [fileOffsetSizeFindGap] from [src/ucsc/common.c], together with the
    properties the design document states about them.

    Conventions of the embedding.
    - A C [int] is a [Z]; arithmetic whose result may leave the 32-bit range is
      wrapped with [to_int].  [x >> 3] on an [int] is [Z.shiftr x 3] and
      [x & 7] is [Z.land x 7] (two's complement, as [Z] has it).
    - [Bits] is [unsigned char]; a bit array is the list of its bytes.  A byte
      access outside the array is the outcome [Fault].
    - [boolean] is an integer type; [TRUE] is 1 and [FALSE] is 0.
    - [while] loops take fuel; running out of it is the outcome [Timeout]. *)

From stdpp Require Import base numbers list gmap.
From Stdlib Require Import ZArith Lia Bool.

Local Open Scope Z_scope.

(** ** Outcomes of a C computation *)

Inductive outcome (A : Type) : Type :=
| Done (a : A)      (* the function returned [a] *)
| Fault             (* an access outside an object, or through NULL *)
| Timeout.          (* the loop fuel ran out *)

Arguments Done {A} a.
Arguments Fault {A}.
Arguments Timeout {A}.

Definition bind {A B : Type} (m : outcome A) (k : A -> outcome B) : outcome B :=
  match m with
  | Done a => k a
  | Fault => Fault
  | Timeout => Timeout
  end.

Notation "x <- m ;; k" := (bind m (fun x => k))
  (at level 100, m at next level, right associativity).

(** ** Machine integers *)

Definition INT_MAX : Z := 2147483647.
Definition INT_MIN : Z := -2147483648.

Definition is_int (z : Z) : Prop := INT_MIN <= z <= INT_MAX.

(** Wrap-around of a 32-bit signed result. *)
Definition to_int (z : Z) : Z := (z + 2147483648) mod 4294967296 - 2147483648.

(** Conversion to [unsigned char] on a store into a [Bits] array. *)
Definition to_uchar (z : Z) : Z := z mod 256.

Definition TRUE : Z := 1.
Definition FALSE : Z := 0.

(** ** Byte arrays *)

(** Modelled from the spec: the type [Bits] (bits.h is not among the sources)
    is the element of the owned byte buffer of a bit vector, an
    [unsigned char], as the three mask tables of bits.c have it. *)
Abbreviation Bits := (list Z) (only parsing).

(** Every element is a value of [unsigned char]. *)
Definition bytes_ok (b : Bits) : bool :=
  forallb (fun x => (0 <=? x) && (x <? 256)) b.

(** [b[i]] as an rvalue. *)
Definition load (b : list Z) (i : Z) : outcome Z :=
  if i <? 0 then Fault
  else match b !! Z.to_nat i with
       | Some x => Done x
       | None => Fault
       end.

(** [b[i] = v] on an [unsigned char] array. *)
Definition store (b : Bits) (i : Z) (v : Z) : outcome Bits :=
  if i <? 0 then Fault
  else if (Z.to_nat i <? length b)%nat then Done (<[Z.to_nat i := to_uchar v]> b)
  else Fault.

(** [for (i = start; i < end; ++i) body], a counted loop: neither [i] nor
    [end] is written by the bodies below, and [i < end] keeps [++i] in range. *)
Fixpoint for_up {S : Type} (n : nat) (i : Z) (body : Z -> S -> outcome S) (s : S)
  : outcome S :=
  match n with
  | O => Done s
  | Datatypes.S n' => s' <- body i s ;; for_up n' (i + 1) body s'
  end.

Definition for_loop {S : Type} (start end_ : Z) (body : Z -> S -> outcome S) (s : S)
  : outcome S :=
  for_up (Z.to_nat (end_ - start)) start body s.

(** ** bits.c: the static tables *)

Definition tbl (t : list Z) (i : Z) : Z := nth (Z.to_nat i) t 0.

Definition oneBit : list Z := [128; 64; 32; 16; 8; 4; 2; 1].
Definition leftMask : list Z := [255; 127; 63; 31; 15; 7; 3; 1].
Definition rightMask : list Z := [128; 192; 224; 240; 248; 252; 254; 255].

(** The two globals of bits.c: [int bitsInByte[256]] and
    [static boolean inittedBitsInByte = FALSE]. *)
Record globals : Type := {
  bitsInByte : list Z;
  inittedBitsInByte : bool
}.

(** Static storage is zero-initialised. *)
Definition globals_start : globals :=
  {| bitsInByte := replicate 256 0; inittedBitsInByte := false |}.

(** The body of the loop of [bitsInByteInit] for one [i]. *)
Definition countOnes (i : Z) : Z :=
  let count := 0 in
  let count := if Z.land i 1 =? 0 then count else 1 in
  let count := if Z.land i 2 =? 0 then count else count + 1 in
  let count := if Z.land i 4 =? 0 then count else count + 1 in
  let count := if Z.land i 8 =? 0 then count else count + 1 in
  let count := if Z.land i 16 =? 0 then count else count + 1 in
  let count := if Z.land i 32 =? 0 then count else count + 1 in
  let count := if Z.land i 64 =? 0 then count else count + 1 in
  let count := if Z.land i 128 =? 0 then count else count + 1 in
  count.

Fixpoint fillBitsInByte (n : nat) (i : Z) (t : list Z) : list Z :=
  match n with
  | O => t
  | S n' => fillBitsInByte n' (i + 1) (<[Z.to_nat i := countOnes i]> t)
  end.

Definition bitsInByteInit (g : globals) : globals :=
  if negb (inittedBitsInByte g) then
    {| bitsInByte := fillBitsInByte 256 0 (bitsInByte g);
       inittedBitsInByte := true |}
  else g.

(** ** bits.c: the operations *)

(** Modelled from the spec: [needLargeZeroedMem] (memalloc.c is not among the
    sources); the design document has [alloc] return a zero-initialised buffer
    of the requested number of bytes. *)
Definition needLargeZeroedMem (size : Z) : Bits := replicate (Z.to_nat size) 0.

Definition bitAlloc (bitCount : Z) : Bits :=
  let byteCount := Z.shiftr (to_int (bitCount + 7)) 3 in
  needLargeZeroedMem byteCount.

Definition bitSetRange (b : Bits) (startIx bitCount : Z) : outcome Bits :=
  if bitCount <=? 0 then Done b
  else
    let endIx := to_int (to_int (startIx + bitCount) - 1) in
    let startByte := Z.shiftr startIx 3 in
    let endByte := Z.shiftr endIx 3 in
    let startBits := Z.land startIx 7 in
    let endBits := Z.land endIx 7 in
    if startByte =? endByte then
      x <- load b startByte ;;
      store b startByte (Z.lor x (Z.land (tbl leftMask startBits) (tbl rightMask endBits)))
    else
      x <- load b startByte ;;
      b <- store b startByte (Z.lor x (tbl leftMask startBits)) ;;
      b <- for_loop (startByte + 1) endByte (fun i b => store b i 255) b ;;
      y <- load b endByte ;;
      store b endByte (Z.lor y (tbl rightMask endBits)).

Definition bitReadOne (b : Bits) (bitIx : Z) : outcome Z :=
  x <- load b (Z.shiftr bitIx 3) ;;
  Done (if Z.land x (tbl oneBit (Z.land bitIx 7)) =? 0 then FALSE else TRUE).

Definition bitCountRange (g : globals) (b : Bits) (startIx bitCount : Z)
  : outcome (Z * globals) :=
  if bitCount <=? 0 then Done (0, g)
  else
    let endIx := to_int (to_int (startIx + bitCount) - 1) in
    let startByte := Z.shiftr startIx 3 in
    let endByte := Z.shiftr endIx 3 in
    let startBits := Z.land startIx 7 in
    let endBits := Z.land endIx 7 in
    let g := if negb (inittedBitsInByte g) then bitsInByteInit g else g in
    if startByte =? endByte then
      x <- load b startByte ;;
      r <- load (bitsInByte g)
             (Z.land (Z.land x (tbl leftMask startBits)) (tbl rightMask endBits)) ;;
      Done (r, g)
    else
      x <- load b startByte ;;
      count <- load (bitsInByte g) (Z.land x (tbl leftMask startBits)) ;;
      count <- for_loop (startByte + 1) endByte
                 (fun i count =>
                    y <- load b i ;;
                    c <- load (bitsInByte g) y ;;
                    Done (to_int (count + c))) count ;;
      z <- load b endByte ;;
      c <- load (bitsInByte g) (Z.land z (tbl rightMask endBits)) ;;
      Done (to_int (count + c), g).

(** How a bit-by-bit scan of [bitFind] ends: [return iBit] from inside the
    loop, or the loop condition turning false with the current [iBit]. *)
Inductive scan : Type :=
| Found (iBit : Z)
| Exhausted (iBit : Z).

(** [while (guard(iBit) && (iBit < bitCount))
       { if (bitReadOne(b, iBit) == val) return iBit; iBit++; }] *)
Fixpoint scanBits (fuel : nat) (guard : Z -> bool) (b : Bits) (iBit val bitCount : Z)
  : outcome scan :=
  match fuel with
  | O => Timeout
  | S fuel' =>
      if guard iBit && (iBit <? bitCount) then
        r <- bitReadOne b iBit ;;
        if r =? val then Done (Found iBit)
        else scanBits fuel' guard b (to_int (iBit + 1)) val bitCount
      else Done (Exhausted iBit)
  end.

(** [while ((iByte < endByte) && (b[iByte] == notByteVal)) iByte++;] *)
Fixpoint skipBytes (fuel : nat) (b : Bits) (iByte endByte notByteVal : Z) : outcome Z :=
  match fuel with
  | O => Timeout
  | S fuel' =>
      if iByte <? endByte then
        x <- load b iByte ;;
        if x =? notByteVal then skipBytes fuel' b (to_int (iByte + 1)) endByte notByteVal
        else Done iByte
      else Done iByte
  end.

Definition bitFind (fuel : nat) (b : Bits) (startIx val bitCount : Z) : outcome Z :=
  let notByteVal := if val =? 0 then 255 else 0 in
  let iBit := startIx in
  let endByte := Z.shiftr (to_int (bitCount - 1)) 3 in
  (* scan initial byte *)
  r <- scanBits fuel (fun iBit => negb (Z.land iBit 7 =? 0)) b iBit val bitCount ;;
  match r with
  | Found iBit => Done iBit
  | Exhausted iBit =>
      (* scan byte at a time, if not already in last byte *)
      let iByte := Z.shiftr iBit 3 in
      iBit <- (if iByte <? endByte then
                 iByte <- skipBytes fuel b iByte endByte notByteVal ;;
                 Done (to_int (Z.shiftl iByte 3))
               else Done iBit) ;;
      (* scan last byte *)
      r <- scanBits fuel (fun _ => true) b iBit val bitCount ;;
      match r with
      | Found iBit => Done iBit
      | Exhausted _ => Done bitCount (* not found *)
      end
  end.

Definition bitFindSet (fuel : nat) (b : Bits) (startIx bitCount : Z) : outcome Z :=
  bitFind fuel b startIx TRUE bitCount.

Definition bitFindClear (fuel : nat) (b : Bits) (startIx bitCount : Z) : outcome Z :=
  bitFind fuel b startIx FALSE bitCount.

(** ** common.c: the range gap finder *)

Definition to_bits64 (z : Z) : Z := z mod 18446744073709551616.

(** Modelled from the spec: [struct fileOffsetSize] (common.h is not among
    the sources) is the Extent of the design document, an offset and a size,
    both unsigned 64-bit as file offsets are.  The [next] field is the tail of the list the
    node is in, and a pointer to a node is the list that starts at it
    ([NULL] is the empty list). *)
Record fileOffsetSize : Type := {
  offset : Z;   (* bits64: start offset of block *)
  size : Z      (* bits64: size of block *)
}.

Abbreviation fileOffsetSizeList := (Datatypes.list fileOffsetSize) (only parsing).

Fixpoint fileOffsetSizeFindGap (list : fileOffsetSizeList)
  : outcome (fileOffsetSizeList * fileOffsetSizeList) :=
  match list with
  | [] => Fault                           (* pt->next with pt == NULL *)
  | pt :: next =>
      match next with
      | [] => Done (list, next)
      | nx :: _ =>
          if negb (offset nx =? to_bits64 (offset pt + size pt))
          then Done (list, next)
          else fileOffsetSizeFindGap next
      end
  end.

(** ** Reference notions used by the statements *)

(** Bit [p] (0 is the most significant) of the byte [x]. *)
Definition byte_bit (x p : Z) : bool := Z.testbit x (7 - p).

(** Bit [i] of the array, read off the list directly. *)
Definition bit (b : Bits) (i : Z) : bool :=
  match b !! Z.to_nat (i / 8) with
  | Some x => byte_bit x (i mod 8)
  | None => false
  end.

(** [b] has room for exactly [n] bits: [ceil(n/8)] bytes. *)
Definition capacity (b : Bits) (n : Z) : Prop :=
  Z.of_nat (length b) = (n + 7) / 8.

(** ** Counting *)

(** The naive reference: how many [i] in [[s, s+n)] satisfy [f]. *)
Fixpoint cnt (f : Z -> bool) (s : Z) (n : nat) : Z :=
  match n with
  | O => 0
  | S n' => Z.b2z (f s) + cnt f (s + 1) n'
  end.

(** [readBit] as a test: the bit at [i] reads as set. *)
Definition is_set (b : Bits) (i : Z) : bool :=
  match bitReadOne b i with
  | Done v => negb (v =? 0)
  | _ => false
  end.

(** Number of indices in [[s, s+c)] whose bit reads as set. *)
Definition naiveCount (b : Bits) (s c : Z) : Z :=
  Z.of_nat (length (List.filter (is_set b) (seqZ s c))).

(** The table holds the population count of every byte value. *)
Definition popcount (v : Z) : Z := cnt (Z.testbit v) 0 8.

Definition table_ready (t : list Z) : bool :=
  forallb (fun v => match t !! v with
                    | Some c => c =? popcount (Z.of_nat v)
                    | None => false
                    end) (seq 0 256).

Definition globals_ready : globals := bitsInByteInit globals_start.

(** The states of the two globals that calls of the functions of bits.c can
    produce from program start. *)
Inductive reachable : globals -> Prop :=
| reach_start : reachable globals_start
| reach_init g : reachable g -> reachable (bitsInByteInit g)
| reach_count g b s c r g' :
    reachable g -> bitCountRange g b s c = Done (r, g') -> reachable g'.

(** ** Searching *)

(** What a bit-by-bit scan started at [iBit] establishes. *)
Definition scan_post (guard : Z -> bool) (b : Bits) (iBit val bitCount : Z) (r : scan)
  : Prop :=
  match r with
  | Found j =>
      iBit <= j < bitCount /\ Z.b2z (bit b j) = val
      /\ forall i, iBit <= i < j -> Z.b2z (bit b i) <> val
  | Exhausted j =>
      iBit <= j /\ (j <= iBit \/ j <= bitCount)
      /\ guard j && (j <? bitCount) = false
      /\ forall i, iBit <= i < j -> Z.b2z (bit b i) <> val
  end.

(** The result of [bitFind] on a search inside the array. *)
Definition find_post (b : Bits) (startIx val bitCount r : Z) : Prop :=
  (startIx <= r < bitCount /\ Z.b2z (bit b r) = val \/ r = bitCount)
  /\ forall i, startIx <= i < bitCount -> i < r -> Z.b2z (bit b i) <> val.

(** ** Extent lists *)

(** Both fields are values of [bits64]. *)
Definition bits64_ok (x : fileOffsetSize) : bool :=
  (0 <=? offset x) && (offset x <? 18446744073709551616)
  && (0 <=? size x) && (size x <? 18446744073709551616).

(** Sorted by ascending offset, and no extent reaches into the next one. *)
Fixpoint sorted_extents (l : list fileOffsetSize) : bool :=
  match l with
  | cur :: (nx :: _) as tl =>
      (offset cur <=? offset nx) && (offset cur + size cur <=? offset nx)
      && sorted_extents tl
  | _ => true
  end.

(** There is a gap after element [k] of [l]: it has no successor, or the
    successor does not start where it ends. *)
Definition gap_after (l : list fileOffsetSize) (k : nat) : Prop :=
  match l !! k, l !! S k with
  | Some cur, Some nx => offset nx <> offset cur + size cur
  | Some cur, None => True
  | None, _ => False
  end.

(** ** The cache controller *)

(** Modelled from the spec: the failures of the error taxonomy that a read
    through the cache can end in (udc.c is not among the sources). *)
Inductive udcError : Type :=
| OriginUnreachable
| RangeNotSatisfiable
| ShortRead
| BitVectorFailure.

Inductive result (A : Type) : Type :=
| Ok (a : A)
| Err (e : udcError).

Arguments Ok {A} a.
Arguments Err {A} e.

Definition rbind {A B : Type} (m : result A) (k : A -> result B) : result B :=
  match m with
  | Ok a => k a
  | Err e => Err e
  end.

Notation "x <~ m ;; k" := (rbind m (fun x => k))
  (at level 100, m at next level, right associativity).

Definition lift {A : Type} (o : outcome A) : result A :=
  match o with
  | Done a => Ok a
  | Fault | Timeout => Err BitVectorFailure
  end.

(** Modelled from the spec: the per-URL state of the Cache Controller (udc.c is
    not among the sources, only udc.h).  The origin is a synthetic source
    whose content never changes, so the size and modification time that the
    staleness check compares always agree and are left out. *)
Record CacheEntry : Type := {
  blockSize : Z;
  remoteSize : Z;
  bitVector : list Z;
  sparseData : list Z;
  cursor : Z
}.

(** Modelled from the spec: the Remote Source Adapter over a synthetic source
    with known bytes; [fetchRange(start, end)] returns exactly [end - start]
    bytes or fails. *)
Definition fetchRange (src : list Z) (start end_ : Z) : result (list Z) :=
  if (0 <=? start) && (start <=? end_) && (end_ <=? Z.of_nat (length src))
  then Ok (take (Z.to_nat (end_ - start)) (drop (Z.to_nat start) src))
  else Err RangeNotSatisfiable.

(** Modelled from the spec: the number of blocks that cover [remoteSize]
    bytes, [ceil(remoteSize/blockSize)]. *)
Definition blockCount (remoteSize blockSize : Z) : Z :=
  (remoteSize + blockSize - 1) / blockSize.

(** Modelled from the spec: Open when no cache exists: [stat()], a zero bit
    vector over [ceil(remoteSize/blockSize)] blocks, a sparse data file of
    [remoteSize] bytes. *)
Definition udcFileOpen (src : list Z) (blockSize : Z) : CacheEntry :=
  let remoteSize := Z.of_nat (length src) in
  {| blockSize := blockSize;
     remoteSize := remoteSize;
     bitVector := bitAlloc (blockCount remoteSize blockSize);
     sparseData := replicate (length src) 0;
     cursor := 0 |}.

(** Modelled from the spec: step 2 of Read, the maximal runs of clear bits in
    [[startBlock, endBlock)], found with [findNext], each one an extent in
    block units. *)
Fixpoint missingExtents (fuel : nat) (bits : list Z) (startBlock endBlock : Z)
  : outcome (list fileOffsetSize) :=
  match fuel with
  | O => Timeout
  | S fuel' =>
      s <- bitFindClear fuel bits startBlock endBlock ;;
      if endBlock <=? s then Done []
      else
        e <- bitFindSet fuel bits s endBlock ;;
        rest <- missingExtents fuel' bits e endBlock ;;
        Done ({| offset := s; size := e - s |} :: rest)
  end.

(** Modelled from the spec: step 3 of Read for one missing extent: fetch its
    byte range (the last block ends with the file), write the bytes into the
    sparse data file, then set the bits. *)
Definition fetchExtent (src : list Z) (e : CacheEntry) (x : fileOffsetSize)
  : result CacheEntry :=
  let start := offset x * blockSize e in
  let end_ := Z.min ((offset x + size x) * blockSize e) (remoteSize e) in
  bytes <~ fetchRange src start end_ ;;
  let data := list_inserts (Z.to_nat start) bytes (sparseData e) in
  bits <~ lift (bitSetRange (bitVector e) (offset x) (size x)) ;;
  Ok {| blockSize := blockSize e;
        remoteSize := remoteSize e;
        bitVector := bits;
        sparseData := data;
        cursor := cursor e |}.

(** Modelled from the spec: step 3 of Read over all missing extents, in
    order; a failed fetch ends the read with its error. *)
Fixpoint fetchExtents (src : list Z) (e : CacheEntry) (xs : list fileOffsetSize)
  : result CacheEntry :=
  match xs with
  | [] => Ok e
  | x :: xs' => e' <~ fetchExtent src e x ;; fetchExtents src e' xs'
  end.

(** Modelled from the spec: Read(offset, length), steps 1 to 4. *)
Definition cacheRead (fuel : nat) (src : list Z) (e : CacheEntry) (off len : Z)
  : result (list Z * CacheEntry) :=
  if (off <? 0) || (len <? 0) || (remoteSize e <? off + len)
  then Err RangeNotSatisfiable
  else
    let startBlock := off / blockSize e in
    let endBlock := (off + len + blockSize e - 1) / blockSize e in
    missing <~ lift (missingExtents fuel (bitVector e) startBlock endBlock) ;;
    e' <~ fetchExtents src e missing ;;
    Ok (take (Z.to_nat len) (drop (Z.to_nat off) (sparseData e')), e').

(** Modelled from the spec: Seek only moves the cursor. *)
Definition udcSeek (e : CacheEntry) (off : Z) : CacheEntry :=
  {| blockSize := blockSize e;
     remoteSize := remoteSize e;
     bitVector := bitVector e;
     sparseData := sparseData e;
     cursor := off |}.

(** Modelled from the spec: [udcRead] reads [size] bytes at the cursor and
    moves the cursor past them. *)
Definition udcRead (fuel : nat) (src : list Z) (e : CacheEntry) (size : Z)
  : result (list Z * CacheEntry) :=
  r <~ cacheRead fuel src e (cursor e) size ;;
  Ok (fst r, udcSeek (snd r) (cursor e + size)).

(** Modelled from the spec: a client session of the round-trip property:
    open, then for each requested range [(off, len)] a seek
    and a read; the result is what each read returned, in order. *)
Fixpoint serve (fuel : nat) (src : list Z) (e : CacheEntry) (reqs : list (Z * Z))
  : result (list (list Z)) :=
  match reqs with
  | [] => Ok []
  | (off, len) :: rest =>
      r <~ udcRead fuel src (udcSeek e off) len ;;
      more <~ serve fuel src (snd r) rest ;;
      Ok (fst r :: more)
  end.

(** The bytes [[off, off+len)] of the source itself. *)
Definition sourceBytes (src : list Z) (off len : Z) : list Z :=
  take (Z.to_nat len) (drop (Z.to_nat off) src).

(** A request lies inside the source. *)
Definition in_source (src : list Z) (r : Z * Z) : bool :=
  (0 <=? fst r) && (0 <=? snd r) && (fst r + snd r <=? Z.of_nat (length src)).

(** What the cache holds is right: every block whose bit is set has its bytes
    in the sparse data file equal to those of the source. *)
Definition cache_inv (src : list Z) (e : CacheEntry) : Prop :=
  0 < blockSize e
  /\ remoteSize e = Z.of_nat (length src)
  /\ length (sparseData e) = length src
  /\ blockCount (remoteSize e) (blockSize e) <= 8 * Z.of_nat (length (bitVector e))
  /\ blockCount (remoteSize e) (blockSize e) <= INT_MAX
  /\ forall k p, 0 <= k -> bit (bitVector e) k = true ->
       k * blockSize e <= p < (k + 1) * blockSize e -> p < remoteSize e ->
       sparseData e !! Z.to_nat p = src !! Z.to_nat p.

(** Block [k] lies in the extent [x]. *)
Definition covers (x : fileOffsetSize) (k : Z) : Prop :=
  offset x <= k < offset x + size x.

(** ** The reference array *)

(** The reference model of the bit-vector property test: an array of
    booleans, the range set one element at a time. *)
Fixpoint refSetRange (ref : list bool) (s c : nat) : list bool :=
  match c with
  | O => ref
  | S c' => refSetRange (<[s := true]> ref) (S s) c'
  end.

(** [readBit] agrees with the reference array at every index of it. *)
Definition agrees (b : Bits) (ref : list bool) : bool :=
  forallb (fun i => match ref !! i, bitReadOne b (Z.of_nat i) with
                    | Some v, Done r => r =? Z.b2z v
                    | _, _ => false
                    end) (seq 0 (length ref)).

(** The value a call returned, without the globals it left. *)
Definition returned {A B : Type} (o : outcome (A * B)) : outcome A :=
  x <- o ;; Done (fst x).

(** * More of bits.c *)

Definition bitSetOne (b : Bits) (bitIx : Z) : outcome Bits :=
  x <- load b (Z.shiftr bitIx 3) ;;
  store b (Z.shiftr bitIx 3) (Z.lor x (tbl oneBit (Z.land bitIx 7))).

(** [~oneBit[..]] is computed on the promoted [int]; the store converts the
    result back to [unsigned char]. *)
Definition bitClearOne (b : Bits) (bitIx : Z) : outcome Bits :=
  x <- load b (Z.shiftr bitIx 3) ;;
  store b (Z.shiftr bitIx 3) (Z.land x (Z.lnot (tbl oneBit (Z.land bitIx 7)))).

(** Modelled from the spec: [memcpy] of the C library: [n] bytes of [src]
    replace the first [n] bytes of [dst]; [n] is a [size_t], so a negative
    [int] passed for it, or an [n] beyond either object, is an access
    outside it. *)
Definition memcpy (dst src : list Z) (n : Z) : outcome (list Z) :=
  if (n <? 0) || (Z.of_nat (length src) <? n) || (Z.of_nat (length dst) <? n)
  then Fault
  else Done (take (Z.to_nat n) src ++ drop (Z.to_nat n) dst).

Definition bitClone (orig : Bits) (bitCount : Z) : outcome Bits :=
  let byteCount := Z.shiftr (to_int (bitCount + 7)) 3 in
  let bits := needLargeZeroedMem byteCount in
  memcpy bits orig byteCount.

(** * More of common.c *)

(** ** Ranges and comparisons *)

(** Modelled from the spec: the macros [max] and [min] of common.h (not
    among the sources) are the larger and the smaller of their arguments. *)
Definition rangeIntersection (start1 end1 start2 end2 : Z) : Z :=
  let s := Z.max start1 start2 in
  let e := Z.min end1 end2 in
  to_int (e - s).

Definition positiveRangeIntersection (start1 end1 start2 end2 : Z) : Z :=
  let ret := rangeIntersection start1 end1 start2 end2 in
  let ret := if ret <? 0 then 0 else ret in
  ret.

(** The arguments are the two [int]s that [va] and [vb] point to. *)
Definition intCmp (a b : Z) : Z :=
  let diff := to_int (a - b) in
  if diff <? 0 then -1
  else if 0 <? diff then 1
  else 0.

(** What a comparison function is to return for the order of [a] and [b]. *)
Definition orderSign (a b : Z) : Z :=
  match a ?= b with
  | Lt => -1
  | Eq => 0
  | Gt => 1
  end.

(** How many positions lie in both [[start1, end1)] and [[start2, end2)]. *)
Definition commonPositions (start1 end1 start2 end2 : Z) : Z :=
  Z.of_nat (length (List.filter (fun x => (start2 <=? x) && (x <? end2))
                                (seqZ start1 (end1 - start1)))).

(** ** Byte order *)

(** The byte order of the machine: how the bytes of an integer lie in the
    [bytes] member of the unions of [byteSwap64], [byteSwap32] and
    [byteSwap16]. *)
Inductive byteOrder : Type :=
| LittleEndian
| BigEndian.

Fixpoint le_bytes (n : nat) (a : Z) : list Z :=
  match n with
  | O => []
  | S n' => a mod 256 :: le_bytes n' (a / 256)
  end.

Fixpoint le_value (bytes : list Z) : Z :=
  match bytes with
  | [] => 0
  | x :: rest => x + 256 * le_value rest
  end.

(** [u.bytes] after [u.whole = whole], for a union of [n] bytes. *)
Definition union_bytes (o : byteOrder) (n : nat) (whole : Z) : list Z :=
  match o with
  | LittleEndian => le_bytes n whole
  | BigEndian => reverse (le_bytes n whole)
  end.

(** [v.whole] after the bytes of [v.bytes] were written. *)
Definition union_whole (o : byteOrder) (bytes : list Z) : Z :=
  match o with
  | LittleEndian => le_value bytes
  | BigEndian => le_value (reverse bytes)
  end.

Definition byteSwap64 (o : byteOrder) (a : Z) : Z :=
  let u := union_bytes o 8 a in
  let v := [tbl u 7; tbl u 6; tbl u 5; tbl u 4; tbl u 3; tbl u 2; tbl u 1; tbl u 0] in
  union_whole o v.

Definition byteSwap32 (o : byteOrder) (a : Z) : Z :=
  let u := union_bytes o 4 a in
  let v := [tbl u 3; tbl u 2; tbl u 1; tbl u 0] in
  union_whole o v.

Definition byteSwap16 (o : byteOrder) (a : Z) : Z :=
  let u := union_bytes o 2 a in
  let v := [tbl u 1; tbl u 0] in
  union_whole o v.

(** [*pPt] is the index [pt] into the buffer [mem]; the result is the value
    read and the advanced [*pPt]. *)
Definition memReadBits32 (o : byteOrder) (mem : list Z) (pt : Z) (isSwapped : Z)
  : outcome (Z * Z) :=
  if (pt <? 0) || (Z.of_nat (length mem) <? pt + 4) then Fault
  else
    let val := union_whole o (take 4 (drop (Z.to_nat pt) mem)) in
    let val := if isSwapped =? 0 then val else byteSwap32 o val in
    Done (val, pt + 4).

Definition memReadBits16 (o : byteOrder) (mem : list Z) (pt : Z) (isSwapped : Z)
  : outcome (Z * Z) :=
  if (pt <? 0) || (Z.of_nat (length mem) <? pt + 2) then Fault
  else
    let val := union_whole o (take 2 (drop (Z.to_nat pt) mem)) in
    let val := if isSwapped =? 0 then val else byteSwap16 o val in
    Done (val, pt + 2).

(** Every element is the value of a byte. *)
Definition byte_list (bytes : list Z) : Prop := Forall (fun x => 0 <= x < 256) bytes.

(** The value whose little-endian bytes are those of [a] in reverse. *)
Definition swapped (n : nat) (a : Z) : Z := le_value (reverse (le_bytes n a)).

(** ** Bytes in memory *)

(** [m[i] = v] on a [char] array: the value is a [char] already. *)
Definition poke (m : list Z) (i v : Z) : outcome (list Z) :=
  if i <? 0 then Fault
  else if (Z.to_nat i <? length m)%nat then Done (<[Z.to_nat i := v]> m)
  else Fault.

(** [while (--halfLen >= 0) { c = *bytes; *bytes++ = *--end; *end = c; }]
    with [n] the iterations left, [bytes] and [end_] indices into [mem]. *)
Fixpoint reverseBytes_loop (n : nat) (mem : list Z) (bytes end_ : Z)
  : outcome (list Z) :=
  match n with
  | O => Done mem
  | S n' =>
      c <- load mem bytes ;;
      let end_ := end_ - 1 in
      x <- load mem end_ ;;
      mem <- poke mem bytes x ;;
      let bytes := bytes + 1 in
      mem <- poke mem end_ c ;;
      reverseBytes_loop n' mem bytes end_
  end.

(** [bytes] is an index into the buffer [mem]; [--halfLen >= 0] holds
    [halfLen] times when [halfLen] is positive and never otherwise. *)
Definition reverseBytes (mem : list Z) (bytes length : Z) : outcome (list Z) :=
  let halfLen := Z.shiftr length 1 in
  let end_ := bytes + length in
  reverseBytes_loop (Z.to_nat halfLen) mem bytes end_.

(** ** Dates *)

(** The fields of [struct tm] that the date functions use. *)
Record tm : Type := {
  tm_mday : Z;
  tm_mon : Z;
  tm_year : Z
}.

(** [%] of C truncates towards zero: [Z.rem]. *)
Definition daysOfMonth (tp : tm) : Z :=
  let mon := tm_mon tp in
  if (mon =? 3) || (mon =? 5) || (mon =? 8) || (mon =? 10) then 30
  else if mon =? 1 then
    if (Z.rem (tm_year tp) 4 =? 0)
       && (negb (Z.rem (tm_year tp) 20 =? 0) || (Z.rem (tm_year tp) 100 =? 0))
    then 29 else 28
  else 31.

(** The Gregorian calendar: the days of month [mon] (0 to 11) of [year]. *)
Definition gregorianDays (year mon : Z) : Z :=
  if (mon =? 3) || (mon =? 5) || (mon =? 8) || (mon =? 10) then 30
  else if mon =? 1 then
    if (year mod 4 =? 0) && (negb (year mod 100 =? 0) || (year mod 400 =? 0))
    then 29 else 28
  else 31.

(** [tp->tm_mday = v], [tp->tm_mon = v] and [tp->tm_year = v]. *)
Definition set_mday (tp : tm) (v : Z) : tm :=
  {| tm_mday := v; tm_mon := tm_mon tp; tm_year := tm_year tp |}.

Definition set_mon (tp : tm) (v : Z) : tm :=
  {| tm_mday := tm_mday tp; tm_mon := v; tm_year := tm_year tp |}.

Definition set_year (tp : tm) (v : Z) : tm :=
  {| tm_mday := tm_mday tp; tm_mon := tm_mon tp; tm_year := v |}.

(** The [while] loop of [dateAdd]; [/] of C truncates towards zero:
    [Z.quot]. *)
Fixpoint dateAdd_loop (fuel : nat) (tp : tm) (dom : Z) : outcome tm :=
  match fuel with
  | O => Timeout
  | S fuel' =>
      if ((11 <? tm_mon tp) || (tm_mon tp <? 0))
         || ((dom <? tm_mday tp) || (tm_mday tp <? 1))
      then
        if 11 <? tm_mon tp then
          let tp := set_year tp (to_int (tm_year tp + Z.quot (tm_mon tp) 12)) in
          let tp := set_mon tp (Z.rem (tm_mon tp) 12) in
          dateAdd_loop fuel' tp dom
        else if tm_mon tp <? 0 then
          let tp := set_year tp (to_int (tm_year tp + (Z.quot (tm_mon tp) 12 - 1))) in
          let tp := set_mon tp (to_int (Z.rem (tm_mon tp) 12 + 12)) in
          dateAdd_loop fuel' tp dom
        else
          let dom := daysOfMonth tp in
          if dom <? tm_mday tp then
            let tp := set_mday tp (to_int (tm_mday tp - dom)) in
            let tp := set_mon tp (to_int (tm_mon tp + 1)) in
            let dom := daysOfMonth tp in
            dateAdd_loop fuel' tp dom
          else if tm_mday tp <? 1 then
            let tp := set_mon tp (to_int (tm_mon tp - 1)) in
            let dom := daysOfMonth tp in
            let tp := set_mday tp (to_int (tm_mday tp + dom)) in
            dateAdd_loop fuel' tp dom
          else dateAdd_loop fuel' tp dom
      else Done tp
  end.

Definition dateAdd (fuel : nat) (tp : tm) (addYears addMonths addDays : Z) : outcome tm :=
  let tp := set_mday tp (to_int (tm_mday tp + addDays)) in
  let tp := set_mon tp (to_int (tm_mon tp + addMonths)) in
  let tp := set_year tp (to_int (tm_year tp + addYears)) in
  let dom := 28 in
  dateAdd_loop fuel tp dom.

(** A date of the calendar of [daysOfMonth]: a month from 0 to 11 and a day
    of that month. *)
Definition date_ok (tp : tm) : Prop :=
  0 <= tm_mon tp <= 11 /\ 1 <= tm_mday tp <= daysOfMonth tp.

(** The months since year 0 of [struct tm]. *)
Definition monthNumber (tp : tm) : Z := 12 * tm_year tp + tm_mon tp.

(** The days of the calendar of [daysOfMonth] before the month of month
    number [n], counted from January of year 0 of [struct tm]. *)
Fixpoint daysBefore (n : nat) : Z :=
  match n with
  | O => 0
  | S k => daysBefore k
           + daysOfMonth {| tm_mday := 1; tm_mon := Z.of_nat k mod 12;
                            tm_year := Z.of_nat k / 12 |}
  end.

(** The day number of a date: day 1 is the first of January of year 0. *)
Definition dayNumber (tp : tm) : Z :=
  daysBefore (Z.to_nat (monthNumber tp)) + tm_mday tp.

(** What the loop of [dateAdd] keeps of a date that is to end on day
    number [K]: the month is at most one off its range, and the month
    number is not negative. *)
Definition dayInv (K : Z) (tp : tm) : Prop :=
  -1 <= tm_mon tp <= 12 /\ 0 <= monthNumber tp /\ dayNumber tp = K
  /\ is_int (tm_mday tp).

(** A bound on the iterations the loop of [dateAdd] has left. *)
Definition dateAdd_measure (tp : tm) (dom : Z) : Z :=
  3 * (if tm_mday tp <? 1 then 5 - tm_mday tp
       else if 28 <? tm_mday tp then tm_mday tp - 28 else 0)
  + (if tm_mon tp <? 0 then 2 else if 11 <? tm_mon tp then 1 else 0)
  + (if dom <? tm_mday tp then 1 else 0) + 1.

(** ** Singly-linked lists *)

(** Modelled from the spec: [struct slList] (common.h is not among the
    sources): every list node starts with its [next] pointer, and the list
    routines touch nothing else of it.  The heap maps the address of each
    allocated node to its [next] field; [NULL] is address 0. *)
Definition NULL : Z := 0.

(** [p->next] as an rvalue. *)
Definition getNext (h : gmap Z Z) (p : Z) : outcome Z :=
  if p =? NULL then Fault
  else match h !! p with
       | Some n => Done n
       | None => Fault
       end.

(** [p->next = n]. *)
Definition setNext (h : gmap Z Z) (p n : Z) : outcome (gmap Z Z) :=
  if p =? NULL then Fault
  else match h !! p with
       | Some _ => Done (<[p := n]> h)
       | None => Fault
       end.

(** What a [struct slList **] points at: the list variable of the caller,
    or the [next] field of a node. *)
Inductive slot : Type :=
| ListVar
| NextOf (p : Z).

Definition readSlot (h : gmap Z Z) (list : Z) (ppt : slot) : outcome Z :=
  match ppt with
  | ListVar => Done list
  | NextOf p => getNext h p
  end.

Definition writeSlot (h : gmap Z Z) (list : Z) (ppt : slot) (v : Z)
  : outcome (gmap Z Z * Z) :=
  match ppt with
  | ListVar => Done (h, v)
  | NextOf p => h' <- setNext h p v ;; Done (h', list)
  end.

(** [while (pt != NULL) { len += 1; pt = pt->next; }] *)
Fixpoint slCount_loop (fuel : nat) (h : gmap Z Z) (pt len : Z) : outcome Z :=
  match fuel with
  | O => Timeout
  | S fuel' =>
      if pt =? NULL then Done len
      else
        let len := to_int (len + 1) in
        pt <- getNext h pt ;;
        slCount_loop fuel' h pt len
  end.

Definition slCount (fuel : nat) (h : gmap Z Z) (list : Z) : outcome Z :=
  slCount_loop fuel h list 0.

(** [for (i=0;i<ix;i++) { if (pt == NULL) return NULL; pt = pt->next; }]
    with [n] the iterations left. *)
Fixpoint slElementFromIx_loop (n : nat) (h : gmap Z Z) (pt : Z) : outcome Z :=
  match n with
  | O => Done pt
  | S n' =>
      if pt =? NULL then Done NULL
      else pt <- getNext h pt ;; slElementFromIx_loop n' h pt
  end.

Definition slElementFromIx (h : gmap Z Z) (list ix : Z) : outcome Z :=
  slElementFromIx_loop (Z.to_nat ix) h list.

(** [for (pt = list, ix=0; pt != NULL; pt = pt->next, ++ix)
       if (el == pt) return ix;] *)
Fixpoint slIxFromElement_loop (fuel : nat) (h : gmap Z Z) (pt el ix : Z) : outcome Z :=
  match fuel with
  | O => Timeout
  | S fuel' =>
      if pt =? NULL then Done (-1)
      else if el =? pt then Done ix
      else pt <- getNext h pt ;; slIxFromElement_loop fuel' h pt el (to_int (ix + 1))
  end.

Definition slIxFromElement (fuel : nat) (h : gmap Z Z) (list el : Z) : outcome Z :=
  slIxFromElement_loop fuel h list el 0.

(** [while ((next = el->next) != NULL) el = next;] *)
Fixpoint slLastEl_loop (fuel : nat) (h : gmap Z Z) (el : Z) : outcome Z :=
  match fuel with
  | O => Timeout
  | S fuel' =>
      next <- getNext h el ;;
      if next =? NULL then Done el else slLastEl_loop fuel' h next
  end.

Definition slLastEl (fuel : nat) (h : gmap Z Z) (list : Z) : outcome Z :=
  let el := list in
  if el =? NULL then Done NULL
  else slLastEl_loop fuel h el.

(** The walk of [ppt] to the slot that holds NULL: while the slot holds a
    node, go on to the [next] field of that node. *)
Fixpoint slAddTail_loop (fuel : nat) (h : gmap Z Z) (list : Z) (ppt : slot)
  : outcome slot :=
  match fuel with
  | O => Timeout
  | S fuel' =>
      v <- readSlot h list ppt ;;
      if v =? NULL then Done ppt
      else slAddTail_loop fuel' h list (NextOf v)
  end.

(** [slAddTail(&list, node)]: the heap and the list variable afterwards. *)
Definition slAddTail (fuel : nat) (h : gmap Z Z) (list node : Z)
  : outcome (gmap Z Z * Z) :=
  ppt <- slAddTail_loop fuel h list ListVar ;;
  h <- setNext h node NULL ;;
  writeSlot h list ppt node.

(** [slPopHead(&list)]: the heap, the list variable and the returned
    element. *)
Definition slPopHead (h : gmap Z Z) (list : Z) : outcome (gmap Z Z * Z * Z) :=
  let el := list in
  if el =? NULL then Done (h, list, el)
  else
    next <- getNext h el ;;
    let list := next in
    h <- setNext h el NULL ;;
    Done (h, list, el).

(** [for (end = a; end->next != NULL; end = end->next) ;] *)
Fixpoint slCat_loop (fuel : nat) (h : gmap Z Z) (end_ : Z) : outcome Z :=
  match fuel with
  | O => Timeout
  | S fuel' =>
      next <- getNext h end_ ;;
      if next =? NULL then Done end_ else slCat_loop fuel' h next
  end.

Definition slCat (fuel : nat) (h : gmap Z Z) (a b : Z) : outcome (gmap Z Z * Z) :=
  if a =? NULL then Done (h, b)
  else
    end_ <- slCat_loop fuel h a ;;
    h <- setNext h end_ b ;;
    Done (h, a).

(** [while (next != NULL)
       { el = next; next = el->next; el->next = newList; newList = el; }] *)
Fixpoint slReverse_loop (fuel : nat) (h : gmap Z Z) (next newList : Z)
  : outcome (gmap Z Z * Z) :=
  match fuel with
  | O => Timeout
  | S fuel' =>
      if next =? NULL then Done (h, newList)
      else
        let el := next in
        next <- getNext h el ;;
        h <- setNext h el newList ;;
        slReverse_loop fuel' h next el
  end.

(** [slReverse(&list)]: the heap and the list variable afterwards. *)
Definition slReverse (fuel : nat) (h : gmap Z Z) (list : Z) : outcome (gmap Z Z * Z) :=
  slReverse_loop fuel h list NULL.

(** Modelled from the spec: the macro [slAddHead(listPt, node)] of common.h
    (not among the sources) puts [node] in front of the list:
    [node->next = *listPt; *listPt = node]. *)
Definition slAddHead (h : gmap Z Z) (list node : Z) : outcome (gmap Z Z * Z) :=
  h <- setNext h node list ;;
  Done (h, node).

(** [for (el = *pList; el != NULL; el = next)
       { next = el->next;
         if (el != toRemove) slAddHead(&newList, el); else didRemove = TRUE; }] *)
Fixpoint slRemoveEl_loop (fuel : nat) (h : gmap Z Z) (el toRemove newList didRemove : Z)
  : outcome (gmap Z Z * Z * Z) :=
  match fuel with
  | O => Timeout
  | S fuel' =>
      if el =? NULL then Done (h, newList, didRemove)
      else
        next <- getNext h el ;;
        if negb (el =? toRemove) then
          r <- slAddHead h newList el ;;
          slRemoveEl_loop fuel' (fst r) next toRemove (snd r) didRemove
        else
          slRemoveEl_loop fuel' h next toRemove newList TRUE
  end.

(** [slRemoveEl(&list, toRemove)]: the heap, the list variable and the
    returned flag. *)
Definition slRemoveEl (fuel : nat) (h : gmap Z Z) (list toRemove : Z)
  : outcome (gmap Z Z * Z * Z) :=
  r <- slRemoveEl_loop fuel h list toRemove NULL FALSE ;;
  let '(h, newList, didRemove) := r in
  r' <- slReverse fuel h newList ;;
  Done (fst r', snd r', didRemove).

(** The heap holds at [p] the list whose nodes are, in order, at the
    addresses [l]. *)
Fixpoint is_list (h : gmap Z Z) (p : Z) (l : list Z) : Prop :=
  match l with
  | [] => p = NULL
  | a :: l' => p = a /\ a <> NULL /\ exists n, h !! a = Some n /\ is_list h n l'
  end.

(** ** Strings *)

(** The characters live in one memory [mem], a [char *] is an index into
    it, and a string runs from its index up to the first 0. *)

(** [for (i=0; ;i += 1)
       { if ((c = start[i]) == 0) return TRUE;
         if (string[i] != c) return FALSE; }] *)
Fixpoint startsWith_loop (fuel : nat) (mem : list Z) (start string i : Z) : outcome Z :=
  match fuel with
  | O => Timeout
  | S fuel' =>
      c <- load mem (start + i) ;;
      if c =? 0 then Done TRUE
      else
        d <- load mem (string + i) ;;
        if negb (d =? c) then Done FALSE
        else startsWith_loop fuel' mem start string (to_int (i + 1))
  end.

Definition startsWith (fuel : nat) (mem : list Z) (start string : Z) : outcome Z :=
  startsWith_loop fuel mem start string 0.

(** [while ((a = *s++) != 0) if (a == c) ++count;] *)
Fixpoint countChars_loop (fuel : nat) (mem : list Z) (s c count : Z) : outcome Z :=
  match fuel with
  | O => Timeout
  | S fuel' =>
      a <- load mem s ;;
      let s := s + 1 in
      if a =? 0 then Done count
      else
        let count := if a =? c then to_int (count + 1) else count in
        countChars_loop fuel' mem s c count
  end.

Definition countChars (fuel : nat) (mem : list Z) (s c : Z) : outcome Z :=
  countChars_loop fuel mem s c 0.

(** [for (;;) { b = *out = *in++; if (b == 0) break; if (b != c) ++out; }] *)
Fixpoint stripChar_loop (fuel : nat) (mem : list Z) (in_ out c : Z)
  : outcome (list Z) :=
  match fuel with
  | O => Timeout
  | S fuel' =>
      b <- load mem in_ ;;
      let in_ := in_ + 1 in
      mem <- poke mem out b ;;
      if b =? 0 then Done mem
      else
        let out := if negb (b =? c) then out + 1 else out in
        stripChar_loop fuel' mem in_ out c
  end.

Definition stripChar (fuel : nat) (mem : list Z) (s c : Z) : outcome (list Z) :=
  stripChar_loop fuel mem s s c.

(** The memory holds at index [p] the string of the characters [str]: none
    of them is 0 and a 0 follows them. *)
Definition holds_string (mem : list Z) (p : Z) (str : list Z) : Prop :=
  0 <= p
  /\ Forall (fun x => x <> 0) str
  /\ (forall k : nat, (k < length str)%nat -> mem !! (Z.to_nat p + k)%nat = str !! k)
  /\ mem !! (Z.to_nat p + length str)%nat = Some 0.

(** [p != NULL] for a pointer that is [None] when NULL. *)
Definition notNull {A : Type} (p : option A) : bool :=
  match p with
  | Some _ => true
  | None => false
  end.

(** How the inner loop of [chopByChar] ends: at the 0 that ends the string
    ([return i+1]) or at a [chopper] ([break]). *)
Inductive scanEnd : Type :=
| AtEnd
| AtChopper.

(** [for (;;)
       { if ((c = *in++) == 0) return i+1;
         else if (c == chopper) { if (outArray != NULL) in[-1] = 0; break; } }]
    with [store] telling whether [outArray] is not NULL. *)
Fixpoint chopByChar_scan (fuel : nat) (mem : list Z) (in_ chopper : Z) (store : bool)
  : outcome (scanEnd * list Z * Z) :=
  match fuel with
  | O => Timeout
  | S fuel' =>
      c <- load mem in_ ;;
      let in_ := in_ + 1 in
      if c =? 0 then Done (AtEnd, mem, in_)
      else if c =? chopper then
        mem <- (if store then poke mem (in_ - 1) 0 else Done mem) ;;
        Done (AtChopper, mem, in_)
      else chopByChar_scan fuel' mem in_ chopper store
  end.

(** [for (i=0; (i<outSize) || (outArray==NULL); ++i)]; [outArray] is [None]
    for NULL and the array of the [char *] slots otherwise. *)
Fixpoint chopByChar_loop (fuel : nat) (mem : list Z) (outArray : option (list Z))
    (in_ chopper outSize i : Z) : outcome (Z * list Z * option (list Z)) :=
  match fuel with
  | O => Timeout
  | S fuel' =>
      if (i <? outSize) || negb (notNull outArray) then
        outArray <- match outArray with
                    | Some a => a <- poke a i in_ ;; Done (Some a)
                    | None => Done None
                    end ;;
        r <- chopByChar_scan fuel mem in_ chopper (notNull outArray) ;;
        match r with
        | (AtEnd, mem, _) => Done (to_int (i + 1), mem, outArray)
        | (AtChopper, mem, in_) =>
            chopByChar_loop fuel' mem outArray in_ chopper outSize (to_int (i + 1))
        end
      else Done (i, mem, outArray)
  end.

(** The result is the returned count, the memory and the array. *)
Definition chopByChar (fuel : nat) (mem : list Z) (outArray : option (list Z))
    (in_ chopper outSize : Z) : outcome (Z * list Z * option (list Z)) :=
  c <- load mem in_ ;;
  if c =? 0 then Done (0, mem, outArray)
  else chopByChar_loop fuel mem outArray in_ chopper outSize 0.

(** [while ((c = *string++) != 0)
       { if (c == separator) ++count; lastC = c; }] *)
Fixpoint countSeparatedItems_loop (fuel : nat) (mem : list Z)
    (string separator count lastC : Z) : outcome (Z * Z) :=
  match fuel with
  | O => Timeout
  | S fuel' =>
      c <- load mem string ;;
      let string := string + 1 in
      if c =? 0 then Done (count, lastC)
      else
        let count := if c =? separator then to_int (count + 1) else count in
        let lastC := c in
        countSeparatedItems_loop fuel' mem string separator count lastC
  end.

Definition countSeparatedItems (fuel : nat) (mem : list Z) (string separator : Z)
  : outcome Z :=
  r <- countSeparatedItems_loop fuel mem string separator 0 0 ;;
  let count := fst r in
  let lastC := snd r in
  let count := if negb (lastC =? separator) && negb (lastC =? 0)
               then to_int (count + 1) else count in
  Done count.

(** The fields of a string cut at every [c]: one more than there are [c]s. *)
Fixpoint fields (c : Z) (str : list Z) : list (list Z) :=
  match str with
  | [] => [[]]
  | a :: rest =>
      if a =? c then [] :: fields c rest
      else match fields c rest with
           | f :: fs => (a :: f) :: fs
           | [] => [[a]]
           end
  end.

(** * Basic facts *)

Section Basics.

Lemma to_int_id z : is_int z -> to_int z = z.
Proof.
  unfold is_int, INT_MIN, INT_MAX, to_int. intros H.
  rewrite Z.mod_small by lia. lia.
Qed.

Lemma shiftr3 x : Z.shiftr x 3 = x / 8.
Proof. now rewrite Z.shiftr_div_pow2 by lia. Qed.

Lemma shiftl3 x : Z.shiftl x 3 = x * 8.
Proof. now rewrite Z.shiftl_mul_pow2 by lia. Qed.

Lemma land7 x : Z.land x 7 = x mod 8.
Proof. change 7 with (Z.ones 3). now rewrite Z.land_ones by lia. Qed.

Lemma bind_done {A B} (m : outcome A) (k : A -> outcome B) (r : B) :
  bind m k = Done r -> exists a, m = Done a /\ k a = Done r.
Proof. destruct m; simpl; intros; eauto; discriminate. Qed.

Lemma load_done (b : list Z) (i x : Z) :
  0 <= i -> b !! Z.to_nat i = Some x -> load b i = Done x.
Proof.
  intros Hi Hx. unfold load.
  destruct (Z.ltb_spec i 0); [lia|]. now rewrite Hx.
Qed.

Lemma load_in_range (b : list Z) (i : Z) :
  0 <= i < Z.of_nat (length b) -> exists x, b !! Z.to_nat i = Some x /\ load b i = Done x.
Proof.
  intros Hi. destruct (lookup_lt_is_Some_2 b (Z.to_nat i)) as [x Hx]; [lia|].
  exists x. split; [done|]. apply load_done; [lia|done].
Qed.

Lemma load_inv (b : list Z) (i x : Z) :
  load b i = Done x -> 0 <= i < Z.of_nat (length b) /\ b !! Z.to_nat i = Some x.
Proof.
  unfold load. destruct (Z.ltb_spec i 0); [discriminate|].
  destruct (b !! Z.to_nat i) eqn:E; [|discriminate].
  intros [= ->]. split; [|done].
  apply lookup_lt_Some in E. lia.
Qed.

Lemma store_done (b : Bits) (i v : Z) :
  0 <= i < Z.of_nat (length b) ->
  store b i v = Done (<[Z.to_nat i := to_uchar v]> b).
Proof.
  intros Hi. unfold store.
  destruct (Z.ltb_spec i 0); [lia|].
  destruct (Nat.ltb_spec (Z.to_nat i) (length b)); [done|lia].
Qed.

Lemma to_uchar_range v : 0 <= to_uchar v < 256.
Proof. unfold to_uchar. apply Z.mod_pos_bound. lia. Qed.

Lemma to_uchar_bit v p : 0 <= p < 8 -> byte_bit (to_uchar v) p = byte_bit v p.
Proof.
  intros Hp. unfold byte_bit, to_uchar. change 256 with (2 ^ 8).
  apply Z.mod_pow2_bits_low. lia.
Qed.

Lemma bytes_ok_lookup (b : Bits) (j : nat) (x : Z) :
  bytes_ok b = true -> b !! j = Some x -> 0 <= x < 256.
Proof.
  unfold bytes_ok. rewrite forallb_forall. intros H Hx.
  apply list_elem_of_lookup_2, list_elem_of_In, H in Hx. lia.
Qed.

Lemma bytes_ok_insert (b : Bits) (j : nat) (v : Z) :
  bytes_ok b = true -> bytes_ok (<[j := to_uchar v]> b) = true.
Proof.
  unfold bytes_ok. rewrite !forallb_forall. intros H x Hx.
  apply list_elem_of_In, list_elem_of_lookup in Hx as [k Hk].
  destruct (decide (k = j)) as [->|Hne].
  - destruct (decide (j < length b)%nat).
    + rewrite list_lookup_insert_eq in Hk by done. injection Hk as <-.
      pose proof (to_uchar_range v). lia.
    + rewrite list_insert_ge in Hk by lia.
      apply H, list_elem_of_In, list_elem_of_lookup. eauto.
  - rewrite list_lookup_insert_ne in Hk by done.
    apply H, list_elem_of_In, list_elem_of_lookup. eauto.
Qed.

Lemma bytes_ok_replicate n : bytes_ok (replicate n 0) = true.
Proof. induction n; simpl; auto. Qed.

End Basics.

(** * The static tables, bit by bit *)

Ltac cases8 k :=
  let H := fresh in
  assert (H : k = 0 \/ k = 1 \/ k = 2 \/ k = 3 \/ k = 4 \/ k = 5 \/ k = 6 \/ k = 7)
    by lia;
  destruct H as [->|[->|[->|[->|[->|[->|[->| ->]]]]]]].

Section Tables.

Lemma oneBit_pow k : 0 <= k < 8 -> tbl oneBit k = 2 ^ (7 - k).
Proof. intros H. cases8 k; reflexivity. Qed.

Lemma leftMask_bit k p :
  0 <= k < 8 -> 0 <= p < 8 -> byte_bit (tbl leftMask k) p = (k <=? p).
Proof. intros Hk Hp. cases8 k; cases8 p; reflexivity. Qed.

Lemma rightMask_bit k p :
  0 <= k < 8 -> 0 <= p < 8 -> byte_bit (tbl rightMask k) p = (p <=? k).
Proof. intros Hk Hp. cases8 k; cases8 p; reflexivity. Qed.

Lemma land_pow2_eqb x m :
  0 <= m -> (Z.land x (2 ^ m) =? 0) = negb (Z.testbit x m).
Proof.
  intros Hm. destruct (Z.testbit x m) eqn:E; simpl.
  - apply Z.eqb_neq. intros H0.
    assert (Hb : Z.testbit (Z.land x (2 ^ m)) m = false)
      by (rewrite H0; apply Z.bits_0).
    rewrite Z.land_spec, E, Z.pow2_bits_true in Hb by lia. discriminate.
  - apply Z.eqb_eq. apply Z.bits_inj'. intros n Hn.
    rewrite Z.land_spec, Z.bits_0, Z.pow2_bits_eqb by lia.
    destruct (Z.eqb_spec m n) as [->|]; [now rewrite E|apply andb_false_r].
Qed.

Lemma mod8_range i : 0 <= i mod 8 < 8.
Proof. apply Z.mod_pos_bound. lia. Qed.

Lemma bitReadOne_bit (b : Bits) (i : Z) :
  0 <= i -> i / 8 < Z.of_nat (length b) ->
  bitReadOne b i = Done (Z.b2z (bit b i)).
Proof.
  intros Hi Hlen. unfold bitReadOne, bit. rewrite shiftr3, land7.
  destruct (load_in_range b (i / 8)) as (x & Hx & ->).
  { split; [apply Z.div_pos; lia|done]. }
  rewrite Hx. simpl. pose proof (mod8_range i).
  rewrite oneBit_pow, land_pow2_eqb by lia. unfold byte_bit.
  now destruct (Z.testbit x (7 - i mod 8)).
Qed.

End Tables.

(** * bitSetRange *)

Ltac split_leb :=
  match goal with |- context [?x <=? ?y] => destruct (Z.leb_spec x y) end.

Ltac split_ltb :=
  match goal with |- context [?x <? ?y] => destruct (Z.ltb_spec x y) end.

Ltac split_eqb :=
  match goal with |- context [?x =? ?y] => destruct (Z.eqb_spec x y) end.

(** Decide every integer comparison of the goal, then finish by arithmetic. *)
Ltac bool_lia :=
  repeat first [split_leb | split_ltb | split_eqb];
  simpl; try reflexivity; try lia.

Section SetRange.

Lemma div8_decomp x : x = 8 * (x / 8) + x mod 8 /\ 0 <= x mod 8 < 8.
Proof. split; [apply Z.div_mod; lia | apply Z.mod_pos_bound; lia]. Qed.

(** The bulk fill of the interior bytes. *)
Lemma fill_ff (n : nat) : forall (i : Z) (b : Bits),
  0 <= i -> i + Z.of_nat n <= Z.of_nat (length b) ->
  exists b', for_up n i (fun i b => store b i 255) b = Done b'
    /\ length b' = length b
    /\ (bytes_ok b = true -> bytes_ok b' = true)
    /\ (forall j, i <= j < i + Z.of_nat n -> b' !! Z.to_nat j = Some 255)
    /\ (forall j, 0 <= j -> ~ (i <= j < i + Z.of_nat n) ->
          b' !! Z.to_nat j = b !! Z.to_nat j).
Proof.
  induction n as [|n IH]; intros i b Hi Hlen.
  - exists b. simpl. repeat split; auto. intros; lia.
  - cbn [for_up]. rewrite store_done by lia. cbn [bind].
    destruct (IH (i + 1) (<[Z.to_nat i := to_uchar 255]> b)) as (b' & E & L & O & In & Out).
    { lia. } { rewrite length_insert. lia. }
    exists b'. split; [exact E|]. rewrite length_insert in L.
    split; [exact L|]. split; [|split].
    + intros Hb. apply O. now apply bytes_ok_insert.
    + intros j Hj. destruct (Z.eq_dec j i) as [->|Hne].
      * rewrite Out by lia. rewrite list_lookup_insert_eq by lia. reflexivity.
      * apply In. lia.
    + intros j Hj0 Hj. rewrite Out by lia.
      apply list_lookup_insert_ne. lia.
Qed.

Lemma bit_insert_same (b : Bits) (j v i : Z) :
  0 <= j < Z.of_nat (length b) -> 0 <= i -> i / 8 = j ->
  bit (<[Z.to_nat j := to_uchar v]> b) i = byte_bit v (i mod 8).
Proof.
  intros Hj Hi E. unfold bit. rewrite E.
  rewrite list_lookup_insert_eq by lia.
  apply to_uchar_bit, mod8_range.
Qed.

Lemma bit_insert_other (b : Bits) (j v i : Z) :
  0 <= j -> 0 <= i -> i / 8 <> j ->
  bit (<[Z.to_nat j := v]> b) i = bit b i.
Proof.
  intros Hj Hi E. unfold bit.
  assert (0 <= i / 8) by (apply Z.div_pos; lia).
  rewrite list_lookup_insert_ne by lia. reflexivity.
Qed.

Lemma bit_lookup (b : Bits) (i x : Z) :
  b !! Z.to_nat (i / 8) = Some x -> bit b i = byte_bit x (i mod 8).
Proof. unfold bit. now intros ->. Qed.

Lemma bit_same_byte (b b' : Bits) (i : Z) :
  b' !! Z.to_nat (i / 8) = b !! Z.to_nat (i / 8) -> bit b' i = bit b i.
Proof. unfold bit. now intros ->. Qed.

Lemma byte_bit_lor x y p : byte_bit (Z.lor x y) p = byte_bit x p || byte_bit y p.
Proof. unfold byte_bit. apply Z.lor_spec. Qed.

Lemma byte_bit_land x y p : byte_bit (Z.land x y) p = byte_bit x p && byte_bit y p.
Proof. unfold byte_bit. apply Z.land_spec. Qed.

Lemma byte_bit_255 p : 0 <= p < 8 -> byte_bit 255 p = true.
Proof. intros H. cases8 p; reflexivity. Qed.

(** The effect of [bitSetRange] on every bit, for a range inside the array. *)
Lemma bitSetRange_bits (b : Bits) (s c : Z) :
  0 <= s -> 0 < c -> s + c <= INT_MAX -> s + c <= 8 * Z.of_nat (length b) ->
  exists b', bitSetRange b s c = Done b'
    /\ length b' = length b
    /\ (bytes_ok b = true -> bytes_ok b' = true)
    /\ (forall i, 0 <= i -> bit b' i = bit b i || ((s <=? i) && (i <? s + c))).
Proof.
  intros Hs Hc Hmax Hlen. unfold bitSetRange.
  destruct (Z.leb_spec c 0); [lia|].
  unfold INT_MAX in Hmax.
  rewrite (to_int_id (s + c)) by (unfold is_int, INT_MIN, INT_MAX; lia).
  rewrite (to_int_id (s + c - 1)) by (unfold is_int, INT_MIN, INT_MAX; lia).
  rewrite !shiftr3, !land7.
  destruct (div8_decomp s) as [Es Rs]. destruct (div8_decomp (s + c - 1)) as [Ee Re].
  set (sB := s / 8) in *. set (eB := (s + c - 1) / 8) in *.
  set (sb := s mod 8) in *. set (eb := (s + c - 1) mod 8) in *.
  assert (HsB : 0 <= sB <= eB) by lia.
  assert (HeB : eB < Z.of_nat (length b)) by lia.
  destruct (load_in_range b sB) as (x & Hx & Lx); [lia|]. rewrite Lx. cbn [bind].
  destruct (Z.eqb_spec sB eB) as [EB|NB].
  - rewrite store_done by lia. eexists. split; [reflexivity|].
    rewrite length_insert. split; [reflexivity|]. split; [apply bytes_ok_insert|].
    intros i Hi. destruct (div8_decomp i) as [Ei Ri].
    destruct (Z.eq_dec (i / 8) sB) as [Ej|Ej].
    + rewrite bit_insert_same by lia. rewrite <- Ej in Hx.
      rewrite (bit_lookup _ _ _ Hx), byte_bit_lor, byte_bit_land.
      rewrite leftMask_bit, rightMask_bit by lia. f_equal. bool_lia.
    + rewrite bit_insert_other by lia.
      destruct (bit b i); simpl; [reflexivity|]. bool_lia.
  - rewrite store_done by lia. cbn [bind]. unfold for_loop.
    set (b1 := <[Z.to_nat sB := to_uchar (Z.lor x (tbl leftMask sb))]> b).
    assert (L1 : length b1 = length b) by apply length_insert.
    destruct (fill_ff (Z.to_nat (eB - (sB + 1))) (sB + 1) b1)
      as (b2 & E2 & L2 & O2 & In2 & Out2); [lia|lia|].
    rewrite E2. cbn [bind].
    destruct (load_in_range b2 eB) as (y & Hy & Ly); [lia|]. rewrite Ly. cbn [bind].
    rewrite store_done by lia. eexists. split; [reflexivity|].
    rewrite length_insert. split; [lia|]. split.
    { intros Hb. apply bytes_ok_insert, O2. now apply bytes_ok_insert. }
    intros i Hi. destruct (div8_decomp i) as [Ei Ri].
    assert (Hj0 : 0 <= i / 8) by (apply Z.div_pos; lia).
    destruct (Z.eq_dec (i / 8) eB) as [Ej|Ej].
    + rewrite bit_insert_same by lia. rewrite byte_bit_lor, rightMask_bit by lia.
      rewrite Out2 in Hy by lia. unfold b1 in Hy.
      rewrite list_lookup_insert_ne in Hy by lia. rewrite <- Ej in Hy.
      rewrite (bit_lookup _ _ _ Hy). f_equal. bool_lia.
    + rewrite bit_insert_other by lia.
      destruct (Z_lt_le_dec sB (i / 8)) as [Hgt|Hle];
        [destruct (Z_lt_le_dec (i / 8) eB) as [Hlt|Hge]|].
      * rewrite (bit_lookup b2 i 255) by (apply In2; lia).
        rewrite byte_bit_255 by lia. rewrite orb_comm. bool_lia.
      * rewrite (bit_same_byte b1 b2) by (apply Out2; lia).
        unfold b1. rewrite bit_insert_other by lia.
        destruct (bit b i); simpl; [reflexivity|]. bool_lia.
      * rewrite (bit_same_byte b1 b2) by (apply Out2; lia). unfold b1.
        destruct (Z.eq_dec (i / 8) sB) as [Ej'|Ej'].
        -- rewrite bit_insert_same by lia. rewrite byte_bit_lor, leftMask_bit by lia.
           rewrite <- Ej' in Hx. rewrite (bit_lookup _ _ _ Hx). f_equal. bool_lia.
        -- rewrite bit_insert_other by lia.
           destruct (bit b i); simpl; [reflexivity|]. bool_lia.
Qed.

End SetRange.

(** * Counting bits *)

Section Counting.

Lemma cnt_app f (n m : nat) : forall s,
  cnt f s (n + m) = cnt f s n + cnt f (s + Z.of_nat n) m.
Proof.
  induction n as [|n IH]; intros s.
  - simpl. now rewrite Z.add_0_r.
  - cbn [Nat.add cnt]. rewrite IH. replace (s + 1 + Z.of_nat n) with (s + Z.of_nat (S n)) by lia. lia.
Qed.

Lemma cnt_ext f g (n : nat) : forall s,
  (forall i, s <= i < s + Z.of_nat n -> f i = g i) -> cnt f s n = cnt g s n.
Proof.
  induction n as [|n IH]; intros s H; [reflexivity|].
  cbn [cnt]. rewrite (H s) by lia. rewrite (IH (s + 1)); [reflexivity|].
  intros i Hi. apply H. lia.
Qed.

Lemma cnt_shift f d (n : nat) : forall s,
  cnt f (d + s) n = cnt (fun p => f (d + p)) s n.
Proof.
  induction n as [|n IH]; intros s; [reflexivity|].
  cbn [cnt]. rewrite <- IH. now rewrite Z.add_assoc.
Qed.

Lemma cnt_false (n : nat) : forall s, cnt (fun _ => false) s n = 0.
Proof. induction n as [|n IH]; intros s; [reflexivity|]. cbn [cnt]. now rewrite IH. Qed.

Lemma cnt_true (n : nat) : forall s, cnt (fun _ => true) s n = Z.of_nat n.
Proof. induction n as [|n IH]; intros s; [reflexivity|]. cbn [cnt]. rewrite IH. simpl Z.b2z. lia. Qed.

Lemma cnt_bounds f (n : nat) : forall s, 0 <= cnt f s n <= Z.of_nat n.
Proof.
  induction n as [|n IH]; intros s; [simpl; lia|].
  cbn [cnt]. specialize (IH (s + 1)). destruct (f s); simpl Z.b2z; lia.
Qed.

Lemma cnt_filter f (n : nat) : forall s,
  Z.of_nat (length (List.filter f (seqZ s (Z.of_nat n)))) = cnt f s n.
Proof.
  induction n as [|n IH]; intros s; [reflexivity|].
  rewrite seqZ_cons by lia.
  replace (Z.pred (Z.of_nat (S n))) with (Z.of_nat n) by lia.
  cbn [List.filter cnt]. rewrite <- IH.
  destruct (f s); simpl Z.b2z; cbn [length]; unfold Z.succ; lia.
Qed.

(** Counting with a window [lo <= p < hi] inside a byte. *)
Lemma cnt_window f lo hi :
  0 <= lo -> lo <= hi -> hi <= 8 ->
  cnt (fun p => f p && ((lo <=? p) && (p <? hi))) 0 8 = cnt f lo (Z.to_nat (hi - lo)).
Proof.
  intros H0 H1 H2.
  replace 8%nat with (Z.to_nat lo + (Z.to_nat (hi - lo) + Z.to_nat (8 - hi)))%nat by lia.
  rewrite !cnt_app.
  rewrite (cnt_ext _ (fun _ => false) (Z.to_nat lo)).
  2:{ intros i Hi. rewrite andb_comm. bool_lia. }
  rewrite (cnt_ext _ (fun _ => false) (Z.to_nat (8 - hi))).
  2:{ intros i Hi. rewrite andb_comm. bool_lia. }
  rewrite !cnt_false.
  rewrite (cnt_ext _ f (Z.to_nat (hi - lo))).
  2:{ intros i Hi. rewrite andb_comm. bool_lia. }
  replace (0 + Z.of_nat (Z.to_nat lo)) with lo by lia. lia.
Qed.

Lemma popcount_bits v : popcount v = cnt (byte_bit v) 0 8.
Proof.
  unfold popcount, byte_bit. cbn [cnt].
  repeat match goal with
         | |- context [Z.testbit v ?e] =>
             lazymatch e with
             | Zpos _ => fail
             | Z0 => fail
             | _ => let e' := eval vm_compute in e in change e with e'
             end
         end.
  lia.
Qed.

Lemma land_byte x m : 0 <= x < 256 -> 0 <= Z.land x m < 256.
Proof.
  intros Hx.
  assert (E : Z.land x m = Z.land x m mod 2 ^ 8).
  { apply Z.bits_inj'. intros n Hn. destruct (Z_lt_le_dec n 8).
    - now rewrite Z.mod_pow2_bits_low.
    - rewrite Z.mod_pow2_bits_high by lia. rewrite Z.land_spec.
      rewrite <- (Z.mod_small x (2 ^ 8)) by (change (2 ^ 8) with 256; lia).
      now rewrite Z.mod_pow2_bits_high by lia. }
  rewrite E. change (2 ^ 8) with 256. apply Z.mod_pos_bound. lia.
Qed.

Lemma popcount_masked x k k' :
  0 <= k < 8 -> 0 <= k' < 8 -> k <= k' ->
  popcount (Z.land (Z.land x (tbl leftMask k)) (tbl rightMask k'))
  = cnt (byte_bit x) k (Z.to_nat (k' + 1 - k)).
Proof.
  intros Hk Hk' Hle. rewrite popcount_bits, <- cnt_window by lia.
  apply cnt_ext. intros p Hp. simpl in Hp.
  rewrite !byte_bit_land, leftMask_bit, rightMask_bit by lia.
  rewrite <- andb_assoc. f_equal. f_equal. bool_lia.
Qed.

Lemma popcount_left x k :
  0 <= k < 8 ->
  popcount (Z.land x (tbl leftMask k)) = cnt (byte_bit x) k (Z.to_nat (8 - k)).
Proof.
  intros Hk. rewrite popcount_bits, <- cnt_window by lia.
  apply cnt_ext. intros p Hp. simpl in Hp.
  rewrite !byte_bit_land, leftMask_bit by lia. f_equal. bool_lia.
Qed.

Lemma popcount_right x k' :
  0 <= k' < 8 ->
  popcount (Z.land x (tbl rightMask k')) = cnt (byte_bit x) 0 (Z.to_nat (k' + 1)).
Proof.
  intros Hk. replace (k' + 1) with (k' + 1 - 0) by lia.
  rewrite popcount_bits, <- cnt_window by lia.
  apply cnt_ext. intros p Hp. simpl in Hp.
  rewrite !byte_bit_land, rightMask_bit by lia. f_equal. bool_lia.
Qed.

Lemma popcount_full x : popcount x = cnt (byte_bit x) 0 8.
Proof. apply popcount_bits. Qed.

(** Bits of one byte of the array, counted through [bit]. *)
Lemma cnt_in_byte (b : Bits) (j x k : Z) (m : nat) :
  0 <= j -> b !! Z.to_nat j = Some x -> 0 <= k -> k + Z.of_nat m <= 8 ->
  cnt (bit b) (8 * j + k) m = cnt (byte_bit x) k m.
Proof.
  intros Hj Hx Hk Hm. rewrite cnt_shift. apply cnt_ext. intros p Hp.
  unfold bit.
  replace ((8 * j + p) / 8) with j by (apply Z.div_unique with p; lia).
  replace ((8 * j + p) mod 8) with p by (apply Z.mod_unique with j; lia).
  now rewrite Hx.
Qed.

Lemma table_ready_load (t : list Z) (v : Z) :
  table_ready t = true -> 0 <= v < 256 -> load t v = Done (popcount v).
Proof.
  unfold table_ready. rewrite forallb_forall. intros H Hv.
  specialize (H (Z.to_nat v)). rewrite in_seq in H.
  specialize (H ltac:(lia)). rewrite Z2Nat.id in H by lia.
  destruct (t !! Z.to_nat v) as [c|] eqn:E; [|discriminate].
  apply Z.eqb_eq in H. subst c. apply load_done; [lia|done].
Qed.

Lemma globals_ready_table : table_ready (bitsInByte globals_ready) = true.
Proof. vm_compute. reflexivity. Qed.

Lemma globals_ready_flag : inittedBitsInByte globals_ready = true.
Proof. reflexivity. Qed.

Lemma bitsInByteInit_ready : bitsInByteInit globals_ready = globals_ready.
Proof. unfold bitsInByteInit at 1. now rewrite globals_ready_flag. Qed.

End Counting.

(** * bitCountRange *)

Section CountRange.

Lemma bitCountRange_globals g b s c r g' :
  bitCountRange g b s c = Done (r, g') ->
  g' = g \/ g' = bitsInByteInit g.
Proof.
  unfold bitCountRange. destruct (c <=? 0); [intros [= _ ->]; now left|].
  assert (E : (if negb (inittedBitsInByte g) then bitsInByteInit g else g) = bitsInByteInit g).
  { unfold bitsInByteInit. now destruct (inittedBitsInByte g). }
  rewrite E. clear E. generalize (bitsInByteInit g). intros g1.
  destruct (_ =? _); intros H.
  - apply bind_done in H as (x & _ & H). apply bind_done in H as (y & _ & H).
    injection H as _ <-. now right.
  - apply bind_done in H as (x & _ & H). apply bind_done in H as (y & _ & H).
    apply bind_done in H as (z & _ & H). apply bind_done in H as (u & _ & H).
    apply bind_done in H as (v & _ & H). injection H as _ <-. now right.
Qed.

Lemma reachable_cases g : reachable g -> g = globals_start \/ g = globals_ready.
Proof.
  induction 1 as [|g Hg IH|g b s c r g' Hg IH Hc].
  - now left.
  - right. destruct IH as [->| ->]; [reflexivity|apply bitsInByteInit_ready].
  - apply bitCountRange_globals in Hc as [->| ->]; [exact IH|].
    right. destruct IH as [->| ->]; [reflexivity|apply bitsInByteInit_ready].
Qed.

Lemma reachable_init g :
  reachable g ->
  (if negb (inittedBitsInByte g) then bitsInByteInit g else g) = globals_ready.
Proof.
  intros H. apply reachable_cases in H as [->| ->].
  - reflexivity.
  - now rewrite globals_ready_flag.
Qed.

Lemma count_loop (b : Bits) (t : list Z) (n : nat) : forall (i count : Z),
  bytes_ok b = true -> table_ready t = true ->
  0 <= i -> i + Z.of_nat n <= Z.of_nat (length b) ->
  0 <= count -> count + 8 * Z.of_nat n <= INT_MAX ->
  for_up n i (fun i count => y <- load b i ;; c <- load t y ;; Done (to_int (count + c))) count
  = Done (count + cnt (bit b) (8 * i) (8 * n)).
Proof.
  induction n as [|n IH]; intros i count Hb Ht Hi Hlen Hc Hmax.
  - simpl. now rewrite Z.add_0_r.
  - cbn [for_up]. destruct (load_in_range b i) as (y & Hy & ->); [lia|]. cbn [bind].
    pose proof (bytes_ok_lookup _ _ _ Hb Hy) as Ry.
    rewrite (table_ready_load t y Ht Ry). cbn [bind].
    rewrite popcount_full.
    rewrite <- (cnt_in_byte b i y 0 8 Hi Hy) by lia. rewrite Z.add_0_r.
    pose proof (cnt_bounds (bit b) 8 (8 * i)) as B8.
    rewrite to_int_id by (unfold is_int, INT_MIN, INT_MAX in *; lia).
    rewrite IH; try assumption; try lia.
    replace (8 * S n)%nat with (8 + 8 * n)%nat by lia.
    rewrite cnt_app. replace (8 * (i + 1)) with (8 * i + Z.of_nat 8) by lia. f_equal. lia.
Qed.

(** [bitCountRange] computes the naive count, for a range inside the array. *)
Lemma bitCountRange_cnt (g : globals) (b : Bits) (s c : Z) :
  reachable g -> bytes_ok b = true ->
  0 <= s -> 0 < c -> s + c <= INT_MAX -> s + c <= 8 * Z.of_nat (length b) ->
  bitCountRange g b s c = Done (cnt (bit b) s (Z.to_nat c), globals_ready).
Proof.
  intros Hg Hb Hs Hc Hmax Hlen. unfold bitCountRange.
  destruct (Z.leb_spec c 0); [lia|].
  rewrite (reachable_init g Hg).
  pose proof globals_ready_table as Ht. revert Ht.
  generalize globals_ready. intros gr Ht.
  unfold INT_MAX in Hmax.
  rewrite (to_int_id (s + c)) by (unfold is_int, INT_MIN, INT_MAX; lia).
  rewrite (to_int_id (s + c - 1)) by (unfold is_int, INT_MIN, INT_MAX; lia).
  rewrite !shiftr3, !land7.
  destruct (div8_decomp s) as [Es Rs]. destruct (div8_decomp (s + c - 1)) as [Ee Re].
  set (sB := s / 8) in *. set (eB := (s + c - 1) / 8) in *.
  set (sb := s mod 8) in *. set (eb := (s + c - 1) mod 8) in *.
  assert (HsB : 0 <= sB <= eB) by lia.
  assert (HeB : eB < Z.of_nat (length b)) by lia.
  destruct (load_in_range b sB) as (x & Hx & Lx); [lia|]. rewrite Lx. cbn [bind].
  pose proof (bytes_ok_lookup _ _ _ Hb Hx) as Rx.
  destruct (Z.eqb_spec sB eB) as [EB|NB].
  - rewrite (table_ready_load _ _ Ht) by (apply land_byte, land_byte, Rx). cbn [bind].
    rewrite popcount_masked by lia.
    rewrite Es at 1. rewrite (cnt_in_byte b sB x sb) by first [lia | eassumption].
    do 3 f_equal. lia.
  - rewrite (table_ready_load _ _ Ht) by (apply land_byte, Rx). cbn [bind].
    rewrite popcount_left by lia. unfold for_loop.
    pose proof (cnt_bounds (byte_bit x) (Z.to_nat (8 - sb)) sb) as B1.
    rewrite (count_loop b (bitsInByte gr)); try assumption; try (unfold INT_MAX; lia).
    cbn [bind].
    destruct (load_in_range b eB) as (z & Hz & Lz); [lia|]. rewrite Lz. cbn [bind].
    pose proof (bytes_ok_lookup _ _ _ Hb Hz) as Rz.
    rewrite (table_ready_load _ _ Ht) by (apply land_byte, Rz). cbn [bind].
    rewrite popcount_right by lia.
    pose proof (cnt_bounds (bit b) (8 * Z.to_nat (eB - (sB + 1))) (8 * (sB + 1))) as B2.
    pose proof (cnt_bounds (byte_bit z) (Z.to_nat (eb + 1)) 0) as B3.
    rewrite to_int_id by (unfold is_int, INT_MIN, INT_MAX; lia).
    replace (Z.to_nat c)
      with (Z.to_nat (8 - sb) + (8 * Z.to_nat (eB - (sB + 1)) + Z.to_nat (eb + 1)))%nat
      by lia.
    rewrite !cnt_app.
    replace (s + Z.of_nat (Z.to_nat (8 - sb))) with (8 * (sB + 1)) by lia.
    rewrite Es at 1. rewrite (cnt_in_byte b sB x sb) by first [lia | eassumption].
    replace (8 * (sB + 1) + Z.of_nat (8 * Z.to_nat (eB - (sB + 1)))) with (8 * eB + 0) by lia.
    rewrite (cnt_in_byte b eB z 0) by first [lia | eassumption].
    do 2 f_equal. lia.
Qed.

Lemma is_set_bit (b : Bits) (i : Z) :
  0 <= i < 8 * Z.of_nat (length b) -> is_set b i = bit b i.
Proof.
  intros Hi. unfold is_set. destruct (div8_decomp i).
  rewrite bitReadOne_bit by lia. now destruct (bit b i).
Qed.

Lemma naiveCount_cnt (b : Bits) (s c : Z) :
  0 <= s -> 0 <= c -> s + c <= 8 * Z.of_nat (length b) ->
  naiveCount b s c = cnt (bit b) s (Z.to_nat c).
Proof.
  intros Hs Hc Hlen. unfold naiveCount.
  rewrite <- (Z2Nat.id c) at 1 by lia. rewrite cnt_filter.
  apply cnt_ext. intros i Hi. apply is_set_bit. lia.
Qed.

End CountRange.

(** * bitFind *)

Section Find.

Lemma scanBits_post (guard : Z -> bool) (b : Bits) (val bitCount : Z) (fuel : nat) :
  forall iBit,
  0 <= iBit -> bitCount <= INT_MAX -> bitCount <= 8 * Z.of_nat (length b) ->
  (Z.to_nat (bitCount - iBit) < fuel)%nat ->
  exists r, scanBits fuel guard b iBit val bitCount = Done r
            /\ scan_post guard b iBit val bitCount r.
Proof.
  induction fuel as [|fuel IH]; intros iBit H0 Hmax Hlen Hfuel; [lia|].
  cbn [scanBits]. destruct (guard iBit && (iBit <? bitCount)) eqn:G.
  - apply andb_true_iff in G as [G1 G2]. apply Z.ltb_lt in G2.
    destruct (div8_decomp iBit) as [Ei Ri].
    rewrite bitReadOne_bit by lia. cbn [bind].
    destruct (Z.eqb_spec (Z.b2z (bit b iBit)) val) as [E|E].
    + eexists. split; [reflexivity|]. simpl. repeat split; try lia.
    + unfold INT_MAX in Hmax.
      rewrite to_int_id by (unfold is_int, INT_MIN, INT_MAX; lia).
      destruct (IH (iBit + 1)) as (r & Er & Pr); try lia; [assumption|].
      exists r. split; [exact Er|]. destruct r as [j|j]; simpl in *.
      * destruct Pr as (R1 & R2 & R3). repeat split; try lia.
        intros i Hi. destruct (Z.eq_dec i iBit) as [->|]; [exact E|apply R3; lia].
      * destruct Pr as (R1 & R2 & R3 & R4). repeat split; try lia; try exact R3.
        intros i Hi. destruct (Z.eq_dec i iBit) as [->|]; [exact E|apply R4; lia].
  - eexists. split; [reflexivity|]. simpl. repeat split; try lia; try exact G.
Qed.

(** A scan that starts at or after [bitCount] reads nothing. *)
Lemma scanBits_past (guard : Z -> bool) (b : Bits) (val bitCount iBit : Z) (fuel : nat) :
  bitCount <= iBit -> (0 < fuel)%nat ->
  scanBits fuel guard b iBit val bitCount = Done (Exhausted iBit).
Proof.
  intros H Hf. destruct fuel as [|fuel]; [lia|]. cbn [scanBits].
  destruct (Z.ltb_spec iBit bitCount); [lia|]. now rewrite andb_false_r.
Qed.

Lemma skipBytes_post (b : Bits) (endByte nb : Z) (fuel : nat) : forall iByte,
  0 <= iByte -> endByte <= INT_MAX -> endByte <= Z.of_nat (length b) ->
  (Z.to_nat (endByte - iByte) < fuel)%nat ->
  exists j, skipBytes fuel b iByte endByte nb = Done j
            /\ iByte <= j /\ (j <= iByte \/ j <= endByte)
            /\ forall k, iByte <= k < j -> b !! Z.to_nat k = Some nb.
Proof.
  induction fuel as [|fuel IH]; intros iByte H0 Hmax Hlen Hfuel; [lia|].
  cbn [skipBytes]. destruct (Z.ltb_spec iByte endByte) as [Hlt|Hge].
  - destruct (load_in_range b iByte) as (x & Hx & ->); [lia|]. cbn [bind].
    destruct (Z.eqb_spec x nb) as [->|Hne].
    + unfold INT_MAX in Hmax.
      rewrite to_int_id by (unfold is_int, INT_MIN, INT_MAX; lia).
      destruct (IH (iByte + 1)) as (j & Ej & R1 & R2 & R3); try lia; [assumption|].
      exists j. split; [exact Ej|]. repeat split; try lia.
      intros k Hk. destruct (Z.eq_dec k iByte) as [->|]; [exact Hx|apply R3; lia].
    + exists iByte. split; [reflexivity|]. repeat split; try lia.
  - exists iByte. split; [reflexivity|]. repeat split; try lia.
Qed.

(** A byte equal to [notByteVal] holds no bit equal to [val]. *)
Lemma notByteVal_bits (b : Bits) (val i : Z) :
  0 <= i ->
  b !! Z.to_nat (i / 8) = Some (if val =? 0 then 255 else 0) ->
  Z.b2z (bit b i) <> val.
Proof.
  intros Hi Hx. rewrite (bit_lookup _ _ _ Hx).
  destruct (Z.eqb_spec val 0) as [->|Hv].
  - rewrite byte_bit_255 by apply mod8_range. discriminate.
  - unfold byte_bit. rewrite Z.bits_0. simpl. congruence.
Qed.

Lemma bitFind_post (fuel : nat) (b : Bits) (startIx val bitCount : Z) :
  0 <= startIx -> 0 <= bitCount <= INT_MAX -> bitCount <= 8 * Z.of_nat (length b) ->
  (Z.to_nat (bitCount - startIx) < fuel)%nat ->
  exists r, bitFind fuel b startIx val bitCount = Done r
            /\ find_post b startIx val bitCount r.
Proof.
  intros H0 Hn Hlen Hfuel. unfold bitFind, find_post.
  assert (Hmax : bitCount <= INT_MAX) by lia. unfold INT_MAX in Hn.
  destruct (scanBits_post (fun iBit => negb (Z.land iBit 7 =? 0)) b val bitCount fuel startIx)
    as (r1 & E1 & P1); try assumption.
  rewrite E1. cbn [bind]. destruct r1 as [j|iBit1]; simpl in P1.
  { exists j. split; [reflexivity|]. destruct P1 as (R1 & R2 & R3).
    split; [left; split; [lia|exact R2]|]. intros i Hi Hj. apply R3. lia. }
  destruct P1 as (R1 & R2 & R3 & R4).
  rewrite to_int_id by (unfold is_int, INT_MIN, INT_MAX; lia).
  rewrite !shiftr3. rewrite land7 in R3.
  destruct (div8_decomp iBit1) as [Ei Ri]. destruct (div8_decomp (bitCount - 1)) as [Ee Re].
  set (iByte := iBit1 / 8) in *. set (endByte := (bitCount - 1) / 8) in *.
  assert (exists iBit2,
    (if iByte <? endByte
     then iByte0 <- skipBytes fuel b iByte endByte (if val =? 0 then 255 else 0) ;;
          Done (to_int (Z.shiftl iByte0 3))
     else Done iBit1) = Done iBit2
    /\ iBit1 <= iBit2 /\ (iBit2 <= iBit1 \/ iBit2 <= bitCount)
    /\ forall i, iBit1 <= i < iBit2 -> Z.b2z (bit b i) <> val) as (iBit2 & E2 & S1 & S2 & S3).
  { destruct (Z.ltb_spec iByte endByte) as [Hlt|Hge].
    - assert (Hal : iBit1 mod 8 = 0).
      { destruct (Z.eqb_spec (iBit1 mod 8) 0) as [|Hne]; [assumption|].
        simpl in R3. destruct (Z.ltb_spec iBit1 bitCount); [discriminate|lia]. }
      destruct (skipBytes_post b endByte (if val =? 0 then 255 else 0) fuel iByte)
        as (j & Ej & T1 & T2 & T3); try (unfold INT_MAX; lia).
      rewrite Ej. cbn [bind]. rewrite shiftl3.
      rewrite to_int_id by (unfold is_int, INT_MIN, INT_MAX; lia).
      exists (j * 8). split; [reflexivity|]. repeat split; try lia.
      intros i Hi. apply notByteVal_bits; [lia|]. apply T3.
      destruct (div8_decomp i). lia.
    - exists iBit1. split; [reflexivity|]. repeat split; try lia. }
  rewrite E2. cbn [bind].
  destruct (scanBits_post (fun _ => true) b val bitCount fuel iBit2)
    as (r3 & E3 & P3); try assumption; try lia.
  rewrite E3. cbn [bind]. destruct r3 as [j|j]; simpl in P3.
  - exists j. split; [reflexivity|]. destruct P3 as (Q1 & Q2 & Q3).
    split; [left; split; [lia|exact Q2]|].
    intros i Hi Hj. destruct (Z_lt_le_dec i iBit1); [apply R4; lia|].
    destruct (Z_lt_le_dec i iBit2); [apply S3; lia|apply Q3; lia].
  - exists bitCount. split; [reflexivity|]. destruct P3 as (Q1 & Q2 & Q3 & Q4).
    split; [now right|].
    destruct (Z.ltb_spec j bitCount); [discriminate|].
    intros i Hi _. destruct (Z_lt_le_dec i iBit1); [apply R4; lia|].
    destruct (Z_lt_le_dec i iBit2); [apply S3; lia|apply Q4; lia].
Qed.

(** A search that starts at or after [bitCount] reads no byte at all: it
    gives [bitCount] on every array, the empty one included. *)
Lemma bitFind_past (fuel : nat) (b : Bits) (startIx val bitCount : Z) :
  bitCount <= startIx -> INT_MIN < bitCount -> (0 < fuel)%nat ->
  bitFind fuel b startIx val bitCount = Done bitCount.
Proof.
  intros H Hmin Hf. unfold bitFind.
  rewrite scanBits_past by assumption. cbn [bind].
  assert (Hi : bitCount <= INT_MAX \/ INT_MAX < bitCount) by lia.
  rewrite !shiftr3.
  assert (Hend : (startIx / 8 <? to_int (bitCount - 1) / 8) = false).
  { apply Z.ltb_ge. apply Z.div_le_mono; [lia|].
    unfold to_int. unfold INT_MIN in Hmin.
    pose proof (Z.mod_pos_bound (bitCount - 1 + 2147483648) 4294967296 ltac:(lia)).
    destruct Hi as [Hi|Hi]; unfold INT_MAX in Hi.
    - rewrite Z.mod_small by lia. lia.
    - lia. }
  rewrite Hend. cbn [bind]. rewrite scanBits_past by assumption. reflexivity.
Qed.

End Find.

(** * The range gap finder *)

Section FindGap.

Lemma findGap_first (l : list fileOffsetSize) :
  l <> [] -> forallb bits64_ok l = true -> sorted_extents l = true ->
  exists k : nat,
    fileOffsetSizeFindGap l = Done (drop k l, drop (S k) l)
    /\ gap_after l k
    /\ forall j : nat, (j < k)%nat -> ~ gap_after l j.
Proof.
  induction l as [|pt next IH]; intros Hne Hok Hs; [congruence|].
  destruct next as [|nx tl].
  - exists 0%nat. split; [reflexivity|]. split; [exact I|]. intros j Hj. lia.
  - cbn [fileOffsetSizeFindGap].
    assert (Hsum : to_bits64 (offset pt + size pt) = offset pt + size pt).
    { cbn [forallb sorted_extents] in Hok, Hs. unfold bits64_ok in Hok.
      repeat (apply andb_true_iff in Hok as [Hok ?]).
      repeat (apply andb_true_iff in Hs as [Hs ?]).
      unfold to_bits64. apply Z.mod_small. lia. }
    rewrite Hsum. destruct (Z.eqb_spec (offset nx) (offset pt + size pt)) as [E|E]; cbn [negb].
    + destruct IH as (k & Ek & Gk & Fk).
      * congruence.
      * cbn [forallb] in Hok. now apply andb_true_iff in Hok as [_ Hok].
      * cbn [sorted_extents] in Hs. now apply andb_true_iff in Hs as [_ Hs].
      * exists (S k). split; [exact Ek|]. split; [exact Gk|].
        intros [|j] Hj.
        -- unfold gap_after. simpl. tauto.
        -- apply (Fk j). lia.
    + exists 0%nat. split; [reflexivity|]. split; [exact E|]. intros j Hj. lia.
Qed.

End FindGap.

(** * The cache controller *)

Section Cache.

Lemma blockCount_bounds (sz bs : Z) :
  0 < bs -> 0 <= sz ->
  0 <= blockCount sz bs /\ sz <= blockCount sz bs * bs < sz + bs.
Proof.
  intros Hbs Hsz. unfold blockCount.
  pose proof (Z.div_mod (sz + bs - 1) bs ltac:(lia)) as E.
  pose proof (Z.mod_pos_bound (sz + bs - 1) bs Hbs) as R.
  assert (0 <= (sz + bs - 1) / bs) by (apply Z.div_pos; lia).
  nia.
Qed.

Lemma block_of_pos (p bs k : Z) :
  0 < bs -> (k * bs <= p < (k + 1) * bs <-> p / bs = k).
Proof.
  intros Hbs. pose proof (Z.div_mod p bs ltac:(lia)) as E.
  pose proof (Z.mod_pos_bound p bs Hbs) as R. split; intros H.
  - symmetry. apply Z.div_unique with (p - k * bs); lia.
  - subst k. nia.
Qed.

Lemma missingExtents_post (bits : list Z) (endBlock : Z) (fuel : nat) : forall s,
  0 <= s -> 0 <= endBlock <= INT_MAX -> endBlock <= 8 * Z.of_nat (length bits) ->
  (Z.to_nat (endBlock - s) < fuel)%nat ->
  exists xs, missingExtents fuel bits s endBlock = Done xs
    /\ Forall (fun x => s <= offset x /\ 0 < size x /\ offset x + size x <= endBlock) xs
    /\ forall k, s <= k < endBlock -> bit bits k = true \/ Exists (fun x => covers x k) xs.
Proof.
  induction fuel as [|fuel IH]; intros s Hs Hn Hlen Hfuel; [lia|].
  cbn [missingExtents]. unfold bitFindClear, bitFindSet.
  destruct (bitFind_post (S fuel) bits s FALSE endBlock) as (r1 & E1 & [D1 N1]);
    try assumption.
  rewrite E1. cbn [bind]. destruct (Z.leb_spec endBlock r1) as [Hge|Hlt].
  - exists []. split; [reflexivity|]. split; [constructor|].
    intros k Hk. left. specialize (N1 k Hk ltac:(lia)).
    destruct (bit bits k); [reflexivity|]. now elim N1.
  - destruct D1 as [[R1 B1]|]; [|lia].
    destruct (bitFind_post (S fuel) bits r1 TRUE endBlock) as (r2 & E2 & [D2 N2]);
      try assumption; try lia.
    rewrite E2. cbn [bind].
    assert (Hr2 : r1 < r2 <= endBlock).
    { destruct D2 as [[R2 B2]|]; [|lia].
      destruct (Z.eq_dec r2 r1) as [->|]; [|lia].
      rewrite B2 in B1. discriminate. }
    destruct (IH r2) as (xs & Exs & Fxs & Cxs); try assumption; try lia.
    rewrite Exs. cbn [bind]. eexists. split; [reflexivity|]. split.
    + constructor; [simpl; lia|].
      eapply Forall_impl; [exact Fxs|]. simpl. intros x Hx. lia.
    + intros k Hk. destruct (Z_lt_le_dec k r1) as [K1|K1].
      * left. specialize (N1 k Hk K1). destruct (bit bits k); [reflexivity|]. now elim N1.
      * destruct (Z_lt_le_dec k r2) as [K2|K2].
        -- right. apply Exists_cons_hd. unfold covers. simpl. lia.
        -- destruct (Cxs k ltac:(lia)) as [Hb|Hx]; [now left|right].
           now apply Exists_cons_tl.
Qed.

Lemma fetchRange_ok (src : list Z) (start end_ : Z) :
  0 <= start -> start <= end_ -> end_ <= Z.of_nat (length src) ->
  fetchRange src start end_
  = Ok (take (Z.to_nat (end_ - start)) (drop (Z.to_nat start) src)).
Proof.
  intros H1 H2 H3. unfold fetchRange.
  destruct (Z.leb_spec 0 start); [|lia].
  destruct (Z.leb_spec start end_); [|lia].
  destruct (Z.leb_spec end_ (Z.of_nat (length src))); [|lia]. reflexivity.
Qed.

(** Fetching one extent keeps the cache right and sets exactly its bits. *)
Lemma fetchExtent_inv (src : list Z) (e : CacheEntry) (x : fileOffsetSize) :
  cache_inv src e ->
  0 <= offset x -> 0 < size x ->
  offset x + size x <= blockCount (remoteSize e) (blockSize e) ->
  exists e', fetchExtent src e x = Ok e'
    /\ cache_inv src e'
    /\ blockSize e' = blockSize e /\ remoteSize e' = remoteSize e
    /\ forall k, 0 <= k ->
         bit (bitVector e') k
         = bit (bitVector e) k || ((offset x <=? k) && (k <? offset x + size x)).
Proof.
  intros (Hbs & Hsz & Hdata & Hcap & Hmax & Hinv) Hx0 Hx1 Hx2.
  unfold fetchExtent.
  destruct (blockCount_bounds (remoteSize e) (blockSize e) Hbs ltac:(lia)) as (Hn0 & Hn1).
  set (bs := blockSize e) in *. set (n := blockCount (remoteSize e) bs) in *.
  set (start := offset x * bs).
  set (end_ := Z.min ((offset x + size x) * bs) (remoteSize e)).
  assert (Hstart : 0 <= start /\ start < end_ /\ end_ <= remoteSize e).
  { unfold start, end_. split; [nia|]. split; [|lia].
    apply Z.min_glb_lt; nia. }
  rewrite fetchRange_ok by lia. cbn [rbind].
  destruct (bitSetRange_bits (bitVector e) (offset x) (size x)) as (b' & Eb & Lb & _ & Bb);
    try lia.
  rewrite Eb. cbn [lift rbind]. eexists. split; [reflexivity|].
  split; [|cbn; repeat split; try reflexivity; exact Bb].
  unfold cache_inv. cbn [blockSize remoteSize sparseData bitVector].
  fold bs. fold n. rewrite length_inserts, Lb.
  repeat split; try assumption.
  intros k p Hk Hbit Hp Hlt. rewrite Bb in Hbit by assumption.
  set (bytes := take (Z.to_nat (end_ - start)) (drop (Z.to_nat start) src)).
  assert (Hlen : length bytes = Z.to_nat (end_ - start)).
  { unfold bytes. rewrite length_take_le; [reflexivity|]. rewrite length_drop. lia. }
  destruct (Z_lt_le_dec p start) as [P1|P1].
  - rewrite list_lookup_inserts_lt by lia.
    apply (Hinv k); try assumption.
    apply orb_true_iff in Hbit as [Hb|Hb]; [exact Hb|].
    apply andb_true_iff in Hb as [Hb1 Hb2]. apply Z.leb_le in Hb1.
    unfold start in P1. nia.
  - destruct (Z_lt_le_dec p end_) as [P2|P2].
    + rewrite list_lookup_inserts by lia. unfold bytes.
      rewrite lookup_take_lt by lia. rewrite lookup_drop. f_equal. lia.
    + rewrite list_lookup_inserts_ge by lia.
      apply (Hinv k); try assumption.
      apply orb_true_iff in Hbit as [Hb|Hb]; [exact Hb|].
      apply andb_true_iff in Hb as [Hb1 Hb2]. apply Z.ltb_lt in Hb2.
      unfold end_ in P2. nia.
Qed.

Lemma fetchExtents_inv (src : list Z) (xs : list fileOffsetSize) : forall (e : CacheEntry),
  cache_inv src e ->
  Forall (fun x => 0 <= offset x /\ 0 < size x
                   /\ offset x + size x <= blockCount (remoteSize e) (blockSize e)) xs ->
  exists e', fetchExtents src e xs = Ok e'
    /\ cache_inv src e'
    /\ blockSize e' = blockSize e /\ remoteSize e' = remoteSize e
    /\ forall k, 0 <= k ->
         bit (bitVector e) k = true \/ Exists (fun x => covers x k) xs ->
         bit (bitVector e') k = true.
Proof.
  induction xs as [|x xs IH]; intros e Hinv Hxs.
  - exists e. split; [reflexivity|]. split; [exact Hinv|]. repeat split.
    intros k Hk [Hb|Hx]; [exact Hb|inversion Hx].
  - apply Forall_cons in Hxs as [(X0 & X1 & X2) Hxs]. cbn [fetchExtents].
    destruct (fetchExtent_inv src e x Hinv X0 X1 X2) as (e1 & E1 & I1 & B1 & S1 & Bit1).
    rewrite E1. cbn [rbind].
    destruct (IH e1 I1) as (e2 & E2 & I2 & B2 & S2 & Bit2).
    { rewrite B1, S1. exact Hxs. }
    exists e2. split; [exact E2|]. split; [exact I2|].
    split; [congruence|]. split; [congruence|].
    intros k Hk H. apply Bit2; [exact Hk|]. rewrite Bit1 by exact Hk.
    destruct H as [Hb|Hx].
    + left. now rewrite Hb.
    + apply Exists_cons in Hx as [Hc|Hx]; [left|now right].
      unfold covers in Hc. apply orb_true_iff. right.
      apply andb_true_iff. split; [apply Z.leb_le|apply Z.ltb_lt]; lia.
Qed.

Lemma cacheRead_ok (fuel : nat) (src : list Z) (e : CacheEntry) (off len : Z) :
  cache_inv src e ->
  0 <= off -> 0 <= len -> off + len <= Z.of_nat (length src) ->
  (Z.to_nat (blockCount (remoteSize e) (blockSize e)) < fuel)%nat ->
  exists e', cacheRead fuel src e off len = Ok (sourceBytes src off len, e')
    /\ cache_inv src e'
    /\ blockSize e' = blockSize e /\ remoteSize e' = remoteSize e.
Proof.
  intros Hinv Hoff Hlen Hin Hfuel. pose proof Hinv as (Hbs & Hsz & Hdata & Hcap & Hmax & _).
  unfold cacheRead.
  destruct (Z.ltb_spec off 0); [lia|]. destruct (Z.ltb_spec len 0); [lia|].
  destruct (Z.ltb_spec (remoteSize e) (off + len)); [lia|]. cbn [orb].
  set (bs := blockSize e) in *. set (n := blockCount (remoteSize e) bs) in *.
  set (startBlock := off / bs). set (endBlock := (off + len + bs - 1) / bs).
  assert (Hsb : 0 <= startBlock) by (apply Z.div_pos; lia).
  assert (Heb : 0 <= endBlock <= n).
  { split; [apply Z.div_pos; lia|]. apply Z.div_le_mono; lia. }
  destruct (missingExtents_post (bitVector e) endBlock fuel startBlock)
    as (xs & Exs & Fxs & Cxs); try lia.
  rewrite Exs. cbn [lift rbind].
  destruct (fetchExtents_inv src xs e Hinv) as (e' & E' & I' & B' & S' & Bit').
  { eapply Forall_impl; [exact Fxs|]. simpl. fold bs. fold n. intros x Hx. lia. }
  rewrite E'. cbn [rbind]. exists e'. split; [|tauto].
  f_equal. f_equal. unfold sourceBytes. apply list_eq. intros i.
  destruct (decide (i < Z.to_nat len)%nat) as [Hi|Hi].
  2:{ rewrite !lookup_take_ge by lia. reflexivity. }
  rewrite !lookup_take_lt by lia. rewrite !lookup_drop.
  set (p := off + Z.of_nat i).
  replace (Z.to_nat off + i)%nat with (Z.to_nat p) by lia.
  destruct I' as (_ & _ & _ & _ & _ & Hbytes).
  assert (Hk : startBlock <= p / bs < endBlock).
  { split; [apply Z.div_le_mono; lia|].
    assert (p / bs + 1 <= endBlock); [|lia].
    rewrite <- Z_div_plus_full by lia. apply Z.div_le_mono; lia. }
  apply (Hbytes (p / bs)); try lia.
  - apply Bit'; [lia|]. apply Cxs. exact Hk.
  - rewrite B'. fold bs. now apply block_of_pos.
Qed.

Lemma udcSeek_inv (src : list Z) (e : CacheEntry) (off : Z) :
  cache_inv src e -> cache_inv src (udcSeek e off).
Proof. unfold cache_inv. now cbn. Qed.

Lemma udcRead_ok (fuel : nat) (src : list Z) (e : CacheEntry) (size : Z) :
  cache_inv src e ->
  0 <= cursor e -> 0 <= size -> cursor e + size <= Z.of_nat (length src) ->
  (Z.to_nat (blockCount (remoteSize e) (blockSize e)) < fuel)%nat ->
  exists e', udcRead fuel src e size = Ok (sourceBytes src (cursor e) size, e')
    /\ cache_inv src e'
    /\ blockSize e' = blockSize e /\ remoteSize e' = remoteSize e.
Proof.
  intros Hinv H0 H1 H2 Hfuel. unfold udcRead.
  destruct (cacheRead_ok fuel src e (cursor e) size) as (e' & E & I & B & S); try assumption.
  rewrite E. cbn [rbind fst snd]. eexists. split; [reflexivity|].
  split; [now apply udcSeek_inv|]. now cbn.
Qed.

Lemma serve_ok (fuel : nat) (src : list Z) (reqs : list (Z * Z)) : forall (e : CacheEntry),
  cache_inv src e ->
  (Z.to_nat (blockCount (remoteSize e) (blockSize e)) < fuel)%nat ->
  forallb (in_source src) reqs = true ->
  serve fuel src e reqs = Ok (map (fun r => sourceBytes src (fst r) (snd r)) reqs).
Proof.
  induction reqs as [|[off len] reqs IH]; intros e Hinv Hfuel Hreqs; [reflexivity|].
  cbn [forallb] in Hreqs. apply andb_true_iff in Hreqs as [Hr Hreqs].
  unfold in_source in Hr. cbn [fst snd] in Hr.
  apply andb_true_iff in Hr as [Hr H3]. apply andb_true_iff in Hr as [H1 H2].
  apply Z.leb_le in H1, H2, H3. cbn [serve].
  pose proof (udcSeek_inv src e off Hinv) as Hseek.
  destruct (udcRead_ok fuel src (udcSeek e off) len Hseek) as (e' & E & I & B & S);
    try assumption; try (cbn; lia).
  rewrite E. cbn [rbind fst snd]. cbn in B, S.
  rewrite (IH e' I); [reflexivity| |exact Hreqs]. now rewrite B, S.
Qed.

Lemma bit_replicate_zero (m : nat) (k : Z) : bit (replicate m 0) k = false.
Proof.
  unfold bit. destruct (replicate m 0 !! Z.to_nat (k / 8)) as [x|] eqn:E; [|reflexivity].
  apply lookup_replicate_1 in E as [-> _]. unfold byte_bit. apply Z.bits_0.
Qed.

Lemma bitAlloc_length (n : Z) :
  0 <= n -> n + 7 <= INT_MAX -> Z.of_nat (length (bitAlloc n)) = (n + 7) / 8.
Proof.
  intros H0 H1. unfold bitAlloc, needLargeZeroedMem. unfold INT_MAX in H1.
  rewrite to_int_id by (unfold is_int, INT_MIN, INT_MAX; lia).
  rewrite shiftr3, length_replicate. apply Z2Nat.id. apply Z.div_pos; lia.
Qed.

Lemma udcFileOpen_inv (src : list Z) (bs : Z) :
  0 < bs -> blockCount (Z.of_nat (length src)) bs + 7 <= INT_MAX ->
  cache_inv src (udcFileOpen src bs).
Proof.
  intros Hbs Hmax. unfold cache_inv, udcFileOpen. cbn [blockSize remoteSize sparseData bitVector].
  destruct (blockCount_bounds (Z.of_nat (length src)) bs Hbs ltac:(lia)) as (Hn0 & _).
  rewrite length_replicate. repeat split; try lia.
  - rewrite bitAlloc_length by lia.
    pose proof (Z.div_mod (blockCount (Z.of_nat (length src)) bs + 7) 8 ltac:(lia)).
    pose proof (Z.mod_pos_bound (blockCount (Z.of_nat (length src)) bs + 7) 8 ltac:(lia)).
    lia.
  - intros k p Hk Hbit. unfold bitAlloc, needLargeZeroedMem in Hbit.
    rewrite bit_replicate_zero in Hbit. discriminate.
Qed.

End Cache.

Section Reference.

Lemma capacity_bound (b : Bits) (n : Z) : capacity b n -> n <= 8 * Z.of_nat (length b).
Proof.
  unfold capacity. intros ->.
  pose proof (Z.div_mod (n + 7) 8 ltac:(lia)).
  pose proof (Z.mod_pos_bound (n + 7) 8 ltac:(lia)). lia.
Qed.

Lemma read_bit (b : Bits) (n i : Z) :
  capacity b n -> 0 <= i < n -> bitReadOne b i = Done (Z.b2z (bit b i)).
Proof.
  intros Hc Hi. apply capacity_bound in Hc. destruct (div8_decomp i).
  apply bitReadOne_bit; lia.
Qed.

Lemma refSetRange_length (c : nat) : forall (ref : list bool) (s : nat),
  length (refSetRange ref s c) = length ref.
Proof.
  induction c as [|c IH]; intros ref s; [reflexivity|].
  cbn [refSetRange]. now rewrite IH, length_insert.
Qed.

Lemma refSetRange_lookup (c : nat) : forall (ref : list bool) (s i : nat),
  (i < length ref)%nat ->
  refSetRange ref s c !! i
  = if decide (s <= i < s + c)%nat then Some true else ref !! i.
Proof.
  induction c as [|c IH]; intros ref s i Hi.
  - cbn [refSetRange]. case_decide; [lia|reflexivity].
  - cbn [refSetRange]. rewrite IH by (rewrite length_insert; lia).
    destruct (decide (i = s)) as [->|Hne].
    + rewrite list_lookup_insert_eq by lia. repeat case_decide; try lia; reflexivity.
    + rewrite list_lookup_insert_ne by lia. repeat case_decide; try lia; reflexivity.
Qed.

Lemma agrees_spec (b : Bits) (ref : list bool) :
  agrees b ref = true <->
  forall (i : nat) v, ref !! i = Some v -> bitReadOne b (Z.of_nat i) = Done (Z.b2z v).
Proof.
  unfold agrees. rewrite forallb_forall. split.
  - intros H i v Hv. specialize (H i). rewrite in_seq in H.
    apply lookup_lt_Some in Hv as Hi. specialize (H ltac:(lia)). rewrite Hv in H.
    destruct (bitReadOne b (Z.of_nat i)); try discriminate.
    apply Z.eqb_eq in H. now subst.
  - intros H i Hi. apply in_seq in Hi.
    destruct (lookup_lt_is_Some_2 ref i ltac:(lia)) as [v Hv].
    rewrite Hv, (H i v Hv). apply Z.eqb_refl.
Qed.

End Reference.

(** * The functions on small inputs *)

Example bitSetRange_example : bitSetRange (bitAlloc 20) 3 10 = Done [31; 248; 0].
Proof. reflexivity. Qed.

Example bitSetRange_outside : bitSetRange (bitAlloc 20) 20 8 = Fault.
Proof. reflexivity. Qed.

Example bitReadOne_example :
  bitReadOne [31; 248; 0] 2 = Done FALSE /\ bitReadOne [31; 248; 0] 3 = Done TRUE
  /\ bitReadOne [31; 248; 0] 12 = Done TRUE /\ bitReadOne [31; 248; 0] 13 = Done FALSE.
Proof. repeat split. Qed.

Example bitCountRange_example :
  returned (bitCountRange globals_start [0; 3; 24; 255] 1 30) = Done 11.
Proof. reflexivity. Qed.

Example bitFind_example :
  bitFindSet 33 [0; 0; 24; 0] 0 32 = Done 19
  /\ bitFindSet 33 [0; 0; 24; 0] 21 32 = Done 32
  /\ bitFindClear 33 [0; 0; 24; 0] 19 32 = Done 21
  /\ bitFindClear 33 [255; 255; 255; 231] 0 32 = Done 27
  /\ bitFindSet 33 [0; 0; 24; 0] 40 32 = Done 32.
Proof. repeat split. Qed.

Example bitFind_out_of_fuel : bitFindSet 3 [0; 0; 24; 0] 9 32 = Timeout.
Proof. reflexivity. Qed.

Example fileOffsetSizeFindGap_example :
  fileOffsetSizeFindGap
    [ {| offset := 0; size := 3 |}; {| offset := 3; size := 5 |};
      {| offset := 9; size := 1 |} ]
  = Done ([ {| offset := 3; size := 5 |}; {| offset := 9; size := 1 |} ],
          [ {| offset := 9; size := 1 |} ]).
Proof. reflexivity. Qed.

Example missingExtents_example :
  missingExtents 9 [176] 0 8
  = Done [ {| offset := 1; size := 1 |}; {| offset := 4; size := 4 |} ].
Proof. reflexivity. Qed.

(** * The stated properties *)

(** C1.  For a bit array with room for [bitCount] bits and a start index
    [startIx >= 0], [bitFind] returns the smallest index in
    [[startIx, bitCount)] whose bit equals [val], and [bitCount] when there
    is none.  In particular, when the set bits are exactly one run [[a, e)],
    a search for a set bit from any start [<= a] returns [a], and from any
    start [>= e] returns [bitCount]. *)
Theorem bitFind_first_match (fuel : nat) (b : Bits) (startIx val bitCount : Z) :
  capacity b bitCount -> 0 <= bitCount <= INT_MAX -> 0 <= startIx ->
  (Z.to_nat (bitCount - startIx) < fuel)%nat ->
  exists r, bitFind fuel b startIx val bitCount = Done r
    /\ ((startIx <= r < bitCount /\ bitReadOne b r = Done val
         /\ forall i, startIx <= i < r -> bitReadOne b i <> Done val)
        \/ (r = bitCount
            /\ forall i, startIx <= i < bitCount -> bitReadOne b i <> Done val))
    /\ forall a e, 0 <= a -> a < e -> e <= bitCount ->
         (forall i, 0 <= i < bitCount -> bitReadOne b i = Done TRUE <-> a <= i < e) ->
         val = TRUE ->
         (startIx <= a -> r = a) /\ (e <= startIx -> r = bitCount).
Proof.
  intros Hcap Hn Hs Hfuel.
  destruct (bitFind_post fuel b startIx val bitCount) as (r & Er & [D N]);
    try assumption; [now apply capacity_bound|].
  assert (Hread : forall i, startIx <= i < bitCount ->
                            bitReadOne b i = Done val <-> Z.b2z (bit b i) = val).
  { intros i Hi. rewrite (read_bit b bitCount) by (assumption || lia).
    split; [now intros [= ->]|now intros ->]. }
  assert (Hmin : forall i, startIx <= i < bitCount -> i < r -> bitReadOne b i <> Done val).
  { intros i Hi Hr. rewrite Hread by assumption. now apply N. }
  exists r. split; [exact Er|]. split.
  - destruct D as [[R B]| ->].
    + left. split; [exact R|]. split; [now apply Hread|].
      intros i Hi. apply Hmin; lia.
    + right. split; [reflexivity|]. intros i Hi. apply Hmin; lia.
  - intros a e Ha Hae He Hrun ->. split.
    + intros Hsa. destruct D as [[R B]| ->].
      * apply Hread in B; [|exact R]. apply Hrun in B; [|lia].
        destruct (Z_lt_le_dec a r) as [Hlt|]; [|lia].
        elim (Hmin a); try lia. apply Hrun; lia.
      * elim (Hmin a); try lia. apply Hrun; lia.
    + intros Hes. destruct D as [[R B]| ->]; [|reflexivity].
      apply Hread in B; [|exact R]. apply Hrun in B; lia.
Qed.

Lemma bitFind_first_match_witness :
  exists r, bitFind 33 [0; 0; 24; 0] 5 TRUE 32 = Done r
    /\ ((5 <= r < 32 /\ bitReadOne [0; 0; 24; 0] r = Done TRUE
         /\ forall i, 5 <= i < r -> bitReadOne [0; 0; 24; 0] i <> Done TRUE)
        \/ (r = 32
            /\ forall i, 5 <= i < 32 -> bitReadOne [0; 0; 24; 0] i <> Done TRUE))
    /\ forall a e, 0 <= a -> a < e -> e <= 32 ->
         (forall i, 0 <= i < 32 -> bitReadOne [0; 0; 24; 0] i = Done TRUE <-> a <= i < e) ->
         TRUE = TRUE ->
         (5 <= a -> r = a) /\ (e <= 5 -> r = 32).
Proof.
  apply (bitFind_first_match 33 [0; 0; 24; 0] 5 TRUE 32).
  - reflexivity.
  - unfold INT_MAX. lia.
  - lia.
  - simpl. lia.
Defined.

(** C3.  For a bit array with room for [n] bits and a range with [0 <= s]
    and [s + c <= n]: after [bitSetRange b s c] with [c > 0] every bit of
    [[s, s+c)] reads as set and every other bit of the array reads as it
    did before; with [c <= 0] the array is unchanged. *)
Theorem bitSetRange_sets_range (b : Bits) (n s c : Z) :
  capacity b n -> n <= INT_MAX -> 0 <= s -> s + c <= n ->
  exists b', bitSetRange b s c = Done b'
    /\ (0 < c ->
        (forall i, s <= i < s + c -> bitReadOne b' i = Done TRUE)
        /\ (forall i, 0 <= i < 8 * Z.of_nat (length b) -> ~ (s <= i < s + c) ->
              bitReadOne b' i = bitReadOne b i))
    /\ (c <= 0 -> b' = b).
Proof.
  intros Hcap Hmax Hs Hsc. pose proof (capacity_bound b n Hcap) as Hlen.
  destruct (Z_lt_le_dec 0 c) as [Hc|Hc].
  - destruct (bitSetRange_bits b s c) as (b' & E & L & _ & B); try lia.
    exists b'. split; [exact E|]. split; [|lia]. intros _. split.
    + intros i Hi. destruct (div8_decomp i).
      rewrite bitReadOne_bit by lia. rewrite B by lia.
      replace ((s <=? i) && (i <? s + c)) with true; [now rewrite orb_true_r|].
      symmetry. apply andb_true_iff. split; [apply Z.leb_le|apply Z.ltb_lt]; lia.
    + intros i Hi Hout. destruct (div8_decomp i).
      rewrite !bitReadOne_bit by lia. rewrite B by lia.
      replace ((s <=? i) && (i <? s + c)) with false; [now rewrite orb_false_r|].
      symmetry. apply andb_false_iff.
      destruct (Z_lt_le_dec i s); [left; apply Z.leb_gt|right; apply Z.ltb_ge]; lia.
  - exists b. unfold bitSetRange. destruct (Z.leb_spec c 0); [|lia].
    split; [reflexivity|]. split; [lia|reflexivity].
Qed.

Lemma bitSetRange_sets_range_witness :
  exists b', bitSetRange [1; 0; 128] 3 10 = Done b'
    /\ (0 < 10 ->
        (forall i, 3 <= i < 3 + 10 -> bitReadOne b' i = Done TRUE)
        /\ (forall i, 0 <= i < 8 * Z.of_nat (length [1; 0; 128]) -> ~ (3 <= i < 3 + 10) ->
              bitReadOne b' i = bitReadOne [1; 0; 128] i))
    /\ (10 <= 0 -> b' = [1; 0; 128]).
Proof.
  apply (bitSetRange_sets_range [1; 0; 128] 20 3 10).
  - reflexivity.
  - unfold INT_MAX. lia.
  - lia.
  - lia.
Defined.

(** C4.  For a bit array with room for [n] bits and a range with [0 <= s],
    [c > 0] and [s + c <= n], [bitCountRange] returns the number of indices
    in [[s, s+c)] whose bit reads as set: the table-driven count agrees with
    the naive bit-by-bit one. *)
Theorem bitCountRange_counts (g : globals) (b : Bits) (n s c : Z) :
  reachable g -> bytes_ok b = true -> capacity b n -> n <= INT_MAX ->
  0 <= s -> 0 < c -> s + c <= n ->
  exists g', bitCountRange g b s c = Done (naiveCount b s c, g').
Proof.
  intros Hg Hb Hcap Hmax Hs Hc Hsc. pose proof (capacity_bound b n Hcap) as Hlen.
  exists globals_ready. rewrite naiveCount_cnt by lia.
  apply bitCountRange_cnt; try assumption; lia.
Qed.

Lemma bitCountRange_counts_witness :
  exists g', bitCountRange globals_start [0; 3; 24; 255] 1 30
             = Done (naiveCount [0; 3; 24; 255] 1 30, g').
Proof.
  apply (bitCountRange_counts globals_start [0; 3; 24; 255] 32 1 30).
  - apply reach_start.
  - reflexivity.
  - reflexivity.
  - unfold INT_MAX. lia.
  - lia.
  - lia.
  - lia.
Defined.

(** C5.  For a range with [0 <= s], [c > 0] and [s + c <= n] in a bit array
    with room for [n] bits, [bitSetRange b s c] followed by
    [bitCountRange] over the same range gives exactly [c], whatever the
    array held before; and if [bitReadOne] agreed with a reference array of
    [n] booleans before, it agrees at every index with the reference array
    updated the same way afterwards. *)
Theorem setRange_then_count (g : globals) (b : Bits) (n s c : Z) :
  reachable g -> bytes_ok b = true -> capacity b n -> n <= INT_MAX ->
  0 <= s -> 0 < c -> s + c <= n ->
  exists b' g',
    bitSetRange b s c = Done b'
    /\ bitCountRange g b' s c = Done (c, g')
    /\ forall ref : list bool,
         Z.of_nat (length ref) = n -> agrees b ref = true ->
         agrees b' (refSetRange ref (Z.to_nat s) (Z.to_nat c)) = true.
Proof.
  intros Hg Hb Hcap Hmax Hs Hc Hsc. pose proof (capacity_bound b n Hcap) as Hlen.
  destruct (bitSetRange_bits b s c) as (b' & E & L & O & B); try lia.
  exists b', globals_ready. split; [exact E|]. split.
  - rewrite bitCountRange_cnt; try (rewrite ?L; assumption || lia); [|now apply O].
    do 2 f_equal. rewrite (cnt_ext _ (fun _ => true)).
    + rewrite cnt_true. lia.
    + intros i Hi. rewrite B by lia.
      replace ((s <=? i) && (i <? s + c)) with true; [now rewrite orb_true_r|].
      symmetry. apply andb_true_iff. split; [apply Z.leb_le|apply Z.ltb_lt]; lia.
  - intros ref Href Hag. rewrite agrees_spec in Hag. apply agrees_spec.
    intros i v Hv. apply lookup_lt_Some in Hv as Hi. rewrite refSetRange_length in Hi.
    rewrite refSetRange_lookup in Hv by exact Hi.
    destruct (lookup_lt_is_Some_2 ref i Hi) as [v0 Hv0].
    pose proof (Hag i v0 Hv0) as Hold.
    destruct (div8_decomp (Z.of_nat i)).
    rewrite bitReadOne_bit in Hold |- * by lia. rewrite B by lia.
    injection Hold as Hold. f_equal. case_decide as Hin.
    + injection Hv as <-.
      replace ((s <=? Z.of_nat i) && (Z.of_nat i <? s + c)) with true;
        [now rewrite orb_true_r|].
      symmetry. apply andb_true_iff. split; [apply Z.leb_le|apply Z.ltb_lt]; lia.
    + rewrite Hv0 in Hv. injection Hv as <-.
      replace ((s <=? Z.of_nat i) && (Z.of_nat i <? s + c)) with false;
        [now rewrite orb_false_r|].
      symmetry. apply andb_false_iff.
      destruct (Z_lt_le_dec (Z.of_nat i) s); [left; apply Z.leb_gt|right; apply Z.ltb_ge]; lia.
Qed.

Lemma setRange_then_count_witness :
  exists b' g',
    bitSetRange [1; 0; 128] 3 10 = Done b'
    /\ bitCountRange globals_start b' 3 10 = Done (10, g')
    /\ forall ref : list bool,
         Z.of_nat (length ref) = 20 -> agrees [1; 0; 128] ref = true ->
         agrees b' (refSetRange ref (Z.to_nat 3) (Z.to_nat 10)) = true.
Proof.
  apply (setRange_then_count globals_start [1; 0; 128] 20 3 10).
  - apply reach_start.
  - reflexivity.
  - reflexivity.
  - unfold INT_MAX. lia.
  - lia.
  - lia.
  - lia.
Defined.

Example reference_array_example :
  agrees [1; 0; 128] (replicate 7 false ++ [true] ++ replicate 8 false
                      ++ [true] ++ replicate 3 false) = true
  /\ (b' <- bitSetRange [1; 0; 128] 3 10 ;;
      Done (agrees b' (refSetRange (replicate 7 false ++ [true] ++ replicate 8 false
                                    ++ [true] ++ replicate 3 false) 3 10)))
     = Done true.
Proof. split; reflexivity. Qed.

(** C6.  Under valid bounds (an array of [ceil(n/8)] bytes, indices inside
    [[0, n)], [n] an [int] and, for the allocation, [n + 7] an [int] too)
    every operation returns: no byte outside the array is accessed and no
    loop runs out of fuel.  The find function moreover accepts a start at
    or after [bitCount]: it returns [bitCount] having read no byte, on any
    array whatever. *)
Theorem bit_ops_in_bounds (n : Z) :
  0 <= n -> n <= INT_MAX ->
  (n + 7 <= INT_MAX -> capacity (bitAlloc n) n /\ bytes_ok (bitAlloc n) = true)
  /\ forall b : Bits, capacity b n -> bytes_ok b = true ->
       (forall s c, 0 <= s -> s + c <= n ->
          exists b', bitSetRange b s c = Done b' /\ capacity b' n /\ bytes_ok b' = true)
       /\ (forall i, 0 <= i < n -> exists v, bitReadOne b i = Done v)
       /\ (forall g s c, reachable g -> 0 <= s -> s + c <= n ->
             exists r g', bitCountRange g b s c = Done (r, g'))
       /\ (forall fuel s val, 0 <= s -> (Z.to_nat (n - s) < fuel)%nat ->
             exists r, bitFind fuel b s val n = Done r)
       /\ (forall fuel s val (any : Bits), n <= s -> (0 < fuel)%nat ->
             bitFind fuel any s val n = Done n).
Proof.
  intros Hn Hmax. split.
  { intros H7. split; [unfold capacity; now apply bitAlloc_length|].
    unfold bitAlloc, needLargeZeroedMem. apply bytes_ok_replicate. }
  intros b Hcap Hb. pose proof (capacity_bound b n Hcap) as Hlen.
  split; [|split; [|split; [|split]]].
  - intros s c Hs Hsc. destruct (Z_lt_le_dec 0 c) as [Hc|Hc].
    + destruct (bitSetRange_bits b s c) as (b' & E & L & O & _); try lia.
      exists b'. split; [exact E|]. split; [|now apply O].
      unfold capacity in *. now rewrite L.
    + exists b. unfold bitSetRange. destruct (Z.leb_spec c 0); [|lia]. auto.
  - intros i Hi. eexists. now apply (read_bit b n).
  - intros g s c Hg Hs Hsc. destruct (Z_lt_le_dec 0 c) as [Hc|Hc].
    + do 2 eexists. apply bitCountRange_cnt; try assumption; lia.
    + exists 0, g. unfold bitCountRange. destruct (Z.leb_spec c 0); [|lia]. reflexivity.
  - intros fuel s val Hs Hfuel.
    destruct (bitFind_post fuel b s val n) as (r & E & _); try assumption; try lia.
    now exists r.
  - intros fuel s val any Hs Hfuel. apply bitFind_past; try assumption.
    unfold INT_MIN. lia.
Qed.

Lemma bit_ops_in_bounds_witness :
  (20 + 7 <= INT_MAX -> capacity (bitAlloc 20) 20 /\ bytes_ok (bitAlloc 20) = true)
  /\ forall b : Bits, capacity b 20 -> bytes_ok b = true ->
       (forall s c, 0 <= s -> s + c <= 20 ->
          exists b', bitSetRange b s c = Done b' /\ capacity b' 20 /\ bytes_ok b' = true)
       /\ (forall i, 0 <= i < 20 -> exists v, bitReadOne b i = Done v)
       /\ (forall g s c, reachable g -> 0 <= s -> s + c <= 20 ->
             exists r g', bitCountRange g b s c = Done (r, g'))
       /\ (forall fuel s val, 0 <= s -> (Z.to_nat (20 - s) < fuel)%nat ->
             exists r, bitFind fuel b s val 20 = Done r)
       /\ (forall fuel s val (any : Bits), 20 <= s -> (0 < fuel)%nat ->
             bitFind fuel any s val 20 = Done 20).
Proof.
  apply (bit_ops_in_bounds 20).
  - lia.
  - unfold INT_MAX. lia.
Defined.

(** C6, as the claim states it, fails for the allocation: for the last
    seven values of [int] the sum [bitCount + 7] wraps around, the byte
    count that [bitAlloc] asks the allocator for is negative, and what it
    returns is not an array of [ceil(bitCount/8)] bytes. *)
Lemma bit_ops_alloc_overflow :
  (0 <= 2147483647 /\ 2147483647 <= INT_MAX)
  /\ Z.shiftr (to_int (2147483647 + 7)) 3 = -268435456
  /\ bitAlloc 2147483647 = []
  /\ ~ capacity (bitAlloc 2147483647) 2147483647.
Proof.
  split; [unfold INT_MAX; lia|]. split; [reflexivity|]. split; [reflexivity|].
  unfold capacity. change (bitAlloc 2147483647) with (@nil Z). simpl length.
  intros H. vm_compute in H. discriminate H.
Qed.

(** C9.  [bitCountRange] returns 0 whenever [bitCount <= 0], for every
    array and start index, and reads no byte doing so: the result is the
    same on the empty array, where any read would be outside it.  The
    globals are left as they were. *)
Theorem bitCountRange_empty_range (g : globals) (b : Bits) (s c : Z) :
  c <= 0 ->
  bitCountRange g b s c = Done (0, g) /\ bitCountRange g [] s c = Done (0, g).
Proof.
  intros Hc. unfold bitCountRange. destruct (Z.leb_spec c 0); [|lia]. auto.
Qed.

Lemma bitCountRange_empty_range_witness :
  bitCountRange globals_start [255; 255] 5 (-3) = Done (0, globals_start)
  /\ bitCountRange globals_start [] 5 (-3) = Done (0, globals_start).
Proof.
  apply (bitCountRange_empty_range globals_start [255; 255] 5 (-3)). lia.
Defined.

(** C10.  In every state [g] that calls of [bitsInByteInit] and
    [bitCountRange] can reach, in whatever order, one more call of
    [bitsInByteInit] leaves [bitsInByte[i]] equal to the population count of
    [i] for all [i] in [[0, 256)]; calling it again, or counting, changes
    nothing any more; and [bitCountRange] returns the same value whether it
    starts from [g] or from the initialised state. *)
Theorem bitsInByteInit_idempotent (g : globals) :
  reachable g ->
  (forall i, 0 <= i < 256 -> load (bitsInByte (bitsInByteInit g)) i = Done (popcount i))
  /\ inittedBitsInByte (bitsInByteInit g) = true
  /\ bitsInByteInit (bitsInByteInit g) = bitsInByteInit g
  /\ (inittedBitsInByte g = true -> bitsInByteInit g = g)
  /\ (forall b s c r g', bitCountRange (bitsInByteInit g) b s c = Done (r, g') ->
        g' = bitsInByteInit g)
  /\ (forall b s c r g', bitCountRange g b s c = Done (r, g') -> 0 < c ->
        g' = bitsInByteInit g)
  /\ (forall b s c,
        returned (bitCountRange g b s c)
        = returned (bitCountRange (bitsInByteInit g) b s c)).
Proof.
  intros Hg.
  assert (Hinit : bitsInByteInit g = globals_ready).
  { apply reachable_cases in Hg as [->| ->]; [reflexivity|apply bitsInByteInit_ready]. }
  assert (Hlazy : forall b s c, 0 < c ->
            bitCountRange g b s c = bitCountRange globals_ready b s c).
  { intros b s c Hc. unfold bitCountRange. destruct (Z.leb_spec c 0); [lia|].
    rewrite (reachable_init g Hg), globals_ready_flag. reflexivity. }
  rewrite Hinit. split; [|split; [|split; [|split; [|split; [|split]]]]].
  - intros i Hi. apply table_ready_load; [apply globals_ready_table|exact Hi].
  - apply globals_ready_flag.
  - apply bitsInByteInit_ready.
  - intros Hflag. rewrite <- Hinit. unfold bitsInByteInit. now rewrite Hflag.
  - intros b s c r g' H. apply bitCountRange_globals in H as [->| ->];
      [reflexivity|apply bitsInByteInit_ready].
  - intros b s c r g' H Hc. rewrite Hlazy in H by exact Hc.
    apply bitCountRange_globals in H as [->| ->];
      [reflexivity|apply bitsInByteInit_ready].
  - intros b s c. destruct (Z_lt_le_dec 0 c) as [Hc|Hc].
    + now rewrite Hlazy.
    + unfold bitCountRange. destruct (Z.leb_spec c 0); [|lia]. reflexivity.
Qed.

Lemma bitsInByteInit_idempotent_witness :
  (forall i, 0 <= i < 256 ->
     load (bitsInByte (bitsInByteInit globals_start)) i = Done (popcount i))
  /\ inittedBitsInByte (bitsInByteInit globals_start) = true
  /\ bitsInByteInit (bitsInByteInit globals_start) = bitsInByteInit globals_start
  /\ (inittedBitsInByte globals_start = true -> bitsInByteInit globals_start = globals_start)
  /\ (forall b s c r g',
        bitCountRange (bitsInByteInit globals_start) b s c = Done (r, g') ->
        g' = bitsInByteInit globals_start)
  /\ (forall b s c r g', bitCountRange globals_start b s c = Done (r, g') -> 0 < c ->
        g' = bitsInByteInit globals_start)
  /\ (forall b s c,
        returned (bitCountRange globals_start b s c)
        = returned (bitCountRange (bitsInByteInit globals_start) b s c)).
Proof.
  apply (bitsInByteInit_idempotent globals_start). apply reach_start.
Defined.

(** C2.  On a non-empty extent list sorted by ascending offset without
    overlaps, [fileOffsetSizeFindGap] returns [(beforeGap, afterGap)] where
    [beforeGap] points at the first element [k] whose successor is absent or
    does not start at [offset + size] of it, [afterGap] points at that
    successor (and is NULL when every element is contiguous with the next),
    and every consecutive pair up to [beforeGap] is contiguous. *)
Theorem findGap_returns_first_gap (l : list fileOffsetSize) :
  l <> [] -> forallb bits64_ok l = true -> sorted_extents l = true ->
  exists (k : nat) (beforeGap afterGap : list fileOffsetSize),
    fileOffsetSizeFindGap l = Done (beforeGap, afterGap)
    /\ beforeGap = drop k l /\ afterGap = drop (S k) l
    /\ gap_after l k
    /\ (forall j : nat, (j < k)%nat ->
          exists cur nx, l !! j = Some cur /\ l !! S j = Some nx
                         /\ offset nx = offset cur + size cur)
    /\ ((forall j : nat, (S j < length l)%nat -> ~ gap_after l j) -> afterGap = []).
Proof.
  intros Hne Hok Hs.
  destruct (findGap_first l Hne Hok Hs) as (k & E & G & F).
  assert (Hk : (k < length l)%nat).
  { unfold gap_after in G. destruct (l !! k) eqn:Ek; [|contradiction].
    now apply lookup_lt_Some in Ek. }
  exists k, (drop k l), (drop (S k) l).
  split; [exact E|]. split; [reflexivity|]. split; [reflexivity|].
  split; [exact G|]. split.
  - intros j Hj. specialize (F j Hj). unfold gap_after in F.
    destruct (lookup_lt_is_Some_2 l j ltac:(lia)) as [cur Hcur].
    destruct (lookup_lt_is_Some_2 l (S j) ltac:(lia)) as [nx Hnx].
    rewrite Hcur, Hnx in F. exists cur, nx. split; [exact Hcur|]. split; [exact Hnx|].
    destruct (Z.eq_dec (offset nx) (offset cur + size cur)); [assumption|contradiction].
  - intros Hall. apply drop_ge.
    destruct (Nat.lt_ge_cases (S k) (length l)) as [Hlt|Hge]; [|exact Hge].
    elim (Hall k Hlt G).
Qed.

Lemma findGap_returns_first_gap_witness :
  exists (k : nat) (beforeGap afterGap : list fileOffsetSize),
    fileOffsetSizeFindGap
      [ {| offset := 0; size := 3 |}; {| offset := 3; size := 5 |};
        {| offset := 9; size := 1 |} ] = Done (beforeGap, afterGap)
    /\ beforeGap = drop k [ {| offset := 0; size := 3 |}; {| offset := 3; size := 5 |};
                            {| offset := 9; size := 1 |} ]
    /\ afterGap = drop (S k) [ {| offset := 0; size := 3 |}; {| offset := 3; size := 5 |};
                               {| offset := 9; size := 1 |} ]
    /\ gap_after [ {| offset := 0; size := 3 |}; {| offset := 3; size := 5 |};
                   {| offset := 9; size := 1 |} ] k
    /\ (forall j : nat, (j < k)%nat ->
          exists cur nx,
            [ {| offset := 0; size := 3 |}; {| offset := 3; size := 5 |};
              {| offset := 9; size := 1 |} ] !! j = Some cur
            /\ [ {| offset := 0; size := 3 |}; {| offset := 3; size := 5 |};
                 {| offset := 9; size := 1 |} ] !! S j = Some nx
            /\ offset nx = offset cur + size cur)
    /\ ((forall j : nat,
           (S j < length [ {| offset := 0; size := 3 |}; {| offset := 3; size := 5 |};
                           {| offset := 9; size := 1 |} ])%nat ->
           ~ gap_after [ {| offset := 0; size := 3 |}; {| offset := 3; size := 5 |};
                         {| offset := 9; size := 1 |} ] j) -> afterGap = []).
Proof.
  apply (findGap_returns_first_gap
           [ {| offset := 0; size := 3 |}; {| offset := 3; size := 5 |};
             {| offset := 9; size := 1 |} ]).
  - discriminate.
  - reflexivity.
  - reflexivity.
Defined.

(** C8.  On the empty extent list (a NULL pointer) [fileOffsetSizeFindGap]
    reads [pt->next] through NULL on its first iteration; it returns exactly
    when the list is non-empty. *)
Theorem findGap_needs_nonempty :
  fileOffsetSizeFindGap [] = Fault
  /\ forall l : list fileOffsetSize,
       (exists r, fileOffsetSizeFindGap l = Done r) <-> l <> [].
Proof.
  split; [reflexivity|]. intros l. split.
  - intros [r Hr] ->. discriminate.
  - intros Hne. induction l as [|pt next IH]; [congruence|].
    destruct next as [|nx tl]; [eexists; reflexivity|].
    cbn [fileOffsetSizeFindGap].
    destruct (negb (offset nx =? to_bits64 (offset pt + size pt)));
      [eexists; reflexivity|].
    apply IH. discriminate.
Qed.



(** * More of bits.c: single bits, clones, and how the operations compose *)

Section MoreBits.

Lemma oneBit_bit k p :
  0 <= k < 8 -> 0 <= p < 8 -> byte_bit (tbl oneBit k) p = (p =? k).
Proof. intros Hk Hp. cases8 k; cases8 p; reflexivity. Qed.

Lemma masks_meet k : 0 <= k < 8 ->
  Z.land (tbl leftMask k) (tbl rightMask k) = tbl oneBit k.
Proof. intros Hk. cases8 k; reflexivity. Qed.

Lemma byte_bit_lnot x p : 0 <= p < 8 -> byte_bit (Z.lnot x) p = negb (byte_bit x p).
Proof. intros Hp. unfold byte_bit. apply Z.lnot_spec. lia. Qed.

(** A byte value is determined by its eight bits. *)
Lemma byte_ext x y :
  0 <= x < 256 -> 0 <= y < 256 ->
  (forall p, 0 <= p < 8 -> byte_bit x p = byte_bit y p) -> x = y.
Proof.
  intros Hx Hy H. apply Z.bits_inj'. intros n Hn.
  destruct (Z_lt_le_dec n 8) as [Hlt|Hge].
  - specialize (H (7 - n) ltac:(lia)). unfold byte_bit in H.
    now replace (7 - (7 - n)) with n in H by lia.
  - rewrite <- (Z.mod_small x (2 ^ 8)), <- (Z.mod_small y (2 ^ 8))
      by (change (2 ^ 8) with 256; lia).
    now rewrite !Z.mod_pow2_bits_high by lia.
Qed.

(** Two arrays of bytes of the same length with the same bits are equal. *)
Lemma bits_ext (b b' : Bits) :
  bytes_ok b = true -> bytes_ok b' = true -> length b = length b' ->
  (forall i, 0 <= i < 8 * Z.of_nat (length b) -> bit b i = bit b' i) -> b = b'.
Proof.
  intros Hb Hb' Hlen H. apply list_eq. intros j.
  destruct (decide (j < length b)%nat) as [Hj|Hj].
  - destruct (lookup_lt_is_Some_2 b j Hj) as [x Hx].
    destruct (lookup_lt_is_Some_2 b' j ltac:(lia)) as [y Hy].
    rewrite Hx, Hy. f_equal.
    apply byte_ext; [now apply (bytes_ok_lookup b j)|now apply (bytes_ok_lookup b' j)|].
    intros p Hp. specialize (H (8 * Z.of_nat j + p) ltac:(lia)). unfold bit in H.
    replace ((8 * Z.of_nat j + p) / 8) with (Z.of_nat j) in H
      by (apply Z.div_unique with p; lia).
    replace ((8 * Z.of_nat j + p) mod 8) with p in H
      by (apply Z.mod_unique with (Z.of_nat j); lia).
    now rewrite Nat2Z.id, Hx, Hy in H.
  - rewrite !lookup_ge_None_2 by lia. reflexivity.
Qed.

Lemma bitSetOne_bits (b : Bits) (i : Z) :
  0 <= i < 8 * Z.of_nat (length b) ->
  exists b', bitSetOne b i = Done b'
    /\ length b' = length b
    /\ (bytes_ok b = true -> bytes_ok b' = true)
    /\ forall j, 0 <= j -> bit b' j = bit b j || (j =? i).
Proof.
  intros Hi. unfold bitSetOne. rewrite shiftr3, land7.
  destruct (div8_decomp i) as [Ei Ri].
  destruct (load_in_range b (i / 8)) as (x & Hx & ->); [lia|]. cbn [bind].
  rewrite store_done by lia. eexists. split; [reflexivity|].
  rewrite length_insert. split; [reflexivity|]. split; [apply bytes_ok_insert|].
  intros j Hj. destruct (div8_decomp j) as [Ej Rj].
  destruct (Z.eq_dec (j / 8) (i / 8)) as [E|E].
  - rewrite bit_insert_same by lia. rewrite <- E in Hx.
    rewrite (bit_lookup _ _ _ Hx), byte_bit_lor, oneBit_bit by lia. f_equal. bool_lia.
  - rewrite bit_insert_other by lia. destruct (bit b j); simpl; [reflexivity|]. bool_lia.
Qed.

Lemma bitClearOne_bits (b : Bits) (i : Z) :
  0 <= i < 8 * Z.of_nat (length b) ->
  exists b', bitClearOne b i = Done b'
    /\ length b' = length b
    /\ (bytes_ok b = true -> bytes_ok b' = true)
    /\ forall j, 0 <= j -> bit b' j = bit b j && negb (j =? i).
Proof.
  intros Hi. unfold bitClearOne. rewrite shiftr3, land7.
  destruct (div8_decomp i) as [Ei Ri].
  destruct (load_in_range b (i / 8)) as (x & Hx & ->); [lia|]. cbn [bind].
  rewrite store_done by lia. eexists. split; [reflexivity|].
  rewrite length_insert. split; [reflexivity|]. split; [apply bytes_ok_insert|].
  intros j Hj. destruct (div8_decomp j) as [Ej Rj].
  destruct (Z.eq_dec (j / 8) (i / 8)) as [E|E].
  - rewrite bit_insert_same by lia. rewrite <- E in Hx.
    rewrite (bit_lookup _ _ _ Hx), byte_bit_land, byte_bit_lnot, oneBit_bit by lia.
    f_equal. bool_lia.
  - rewrite bit_insert_other by lia. destruct (bit b j); simpl; [|reflexivity]. bool_lia.
Qed.

End MoreBits.

(** X1.  [bitSetOne b i] on an index inside the array returns an array of
    the same length in which bit [i] reads as set and every other bit reads
    as before; on an index outside the array it accesses a byte outside. *)
Theorem bitSetOne_sets_bit (b : Bits) (i : Z) :
  0 <= i ->
  (i < 8 * Z.of_nat (length b) ->
   exists b', bitSetOne b i = Done b'
     /\ length b' = length b
     /\ bitReadOne b' i = Done TRUE
     /\ forall j, 0 <= j < 8 * Z.of_nat (length b) -> j <> i ->
          bitReadOne b' j = bitReadOne b j)
  /\ (8 * Z.of_nat (length b) <= i -> bitSetOne b i = Fault).
Proof.
  intros H0. split.
  - intros Hi. destruct (bitSetOne_bits b i) as (b' & E & L & _ & B); [lia|].
    exists b'. split; [exact E|]. split; [exact L|]. split.
    + destruct (div8_decomp i). rewrite bitReadOne_bit by lia.
      rewrite B by lia. rewrite Z.eqb_refl, orb_true_r. reflexivity.
    + intros j Hj Hne. destruct (div8_decomp j).
      rewrite !bitReadOne_bit by lia. rewrite B by lia.
      destruct (Z.eqb_spec j i); [contradiction|]. now rewrite orb_false_r.
  - intros Hi. unfold bitSetOne, load. rewrite shiftr3.
    destruct (div8_decomp i). destruct (Z.ltb_spec (i / 8) 0); [reflexivity|].
    rewrite lookup_ge_None_2 by lia. reflexivity.
Qed.

Lemma bitSetOne_sets_bit_witness :
  (11 < 8 * Z.of_nat (length [1; 0; 128]) ->
   exists b', bitSetOne [1; 0; 128] 11 = Done b'
     /\ length b' = length [1; 0; 128]
     /\ bitReadOne b' 11 = Done TRUE
     /\ forall j, 0 <= j < 8 * Z.of_nat (length [1; 0; 128]) -> j <> 11 ->
          bitReadOne b' j = bitReadOne [1; 0; 128] j)
  /\ (8 * Z.of_nat (length [1; 0; 128]) <= 11 -> bitSetOne [1; 0; 128] 11 = Fault).
Proof. apply (bitSetOne_sets_bit [1; 0; 128] 11). lia. Defined.

(** X2.  [bitClearOne b i] on an index inside the array returns an array of
    the same length in which bit [i] reads as clear and every other bit
    reads as before. *)
Theorem bitClearOne_clears_bit (b : Bits) (i : Z) :
  0 <= i < 8 * Z.of_nat (length b) ->
  exists b', bitClearOne b i = Done b'
    /\ length b' = length b
    /\ bitReadOne b' i = Done FALSE
    /\ forall j, 0 <= j < 8 * Z.of_nat (length b) -> j <> i ->
         bitReadOne b' j = bitReadOne b j.
Proof.
  intros Hi. destruct (bitClearOne_bits b i) as (b' & E & L & _ & B); [lia|].
  exists b'. split; [exact E|]. split; [exact L|]. split.
  - destruct (div8_decomp i). rewrite bitReadOne_bit by lia.
    rewrite B by lia. rewrite Z.eqb_refl, andb_false_r. reflexivity.
  - intros j Hj Hne. destruct (div8_decomp j).
    rewrite !bitReadOne_bit by lia. rewrite B by lia.
    destruct (Z.eqb_spec j i); [contradiction|]. now rewrite andb_true_r.
Qed.

Lemma bitClearOne_clears_bit_witness :
  exists b', bitClearOne [1; 255; 128] 11 = Done b'
    /\ length b' = length [1; 255; 128]
    /\ bitReadOne b' 11 = Done FALSE
    /\ forall j, 0 <= j < 8 * Z.of_nat (length [1; 255; 128]) -> j <> 11 ->
         bitReadOne b' j = bitReadOne [1; 255; 128] j.
Proof. apply (bitClearOne_clears_bit [1; 255; 128] 11). simpl. lia. Defined.

(** X3.  Setting a bit that was clear and clearing it again gives back the
    very same array, and so does clearing a bit that was set and setting it
    again. *)
Theorem bitSetOne_bitClearOne_round_trip (b : Bits) (i : Z) :
  bytes_ok b = true -> 0 <= i < 8 * Z.of_nat (length b) ->
  (bitReadOne b i = Done FALSE ->
   (b1 <- bitSetOne b i ;; bitClearOne b1 i) = Done b)
  /\ (bitReadOne b i = Done TRUE ->
      (b1 <- bitClearOne b i ;; bitSetOne b1 i) = Done b).
Proof.
  intros Hb Hi. destruct (div8_decomp i).
  rewrite bitReadOne_bit by lia. split; intros Hbit.
  - destruct (bitSetOne_bits b i Hi) as (b1 & E1 & L1 & O1 & B1).
    rewrite E1. cbn [bind].
    destruct (bitClearOne_bits b1 i) as (b2 & E2 & L2 & O2 & B2); [lia|].
    rewrite E2. f_equal. apply bits_ext; auto; [lia|].
    intros j Hj. rewrite B2, B1 by lia.
    destruct (Z.eqb_spec j i) as [->|].
    + destruct (bit b i); [discriminate|reflexivity].
    + now rewrite orb_false_r, andb_true_r.
  - destruct (bitClearOne_bits b i Hi) as (b1 & E1 & L1 & O1 & B1).
    rewrite E1. cbn [bind].
    destruct (bitSetOne_bits b1 i) as (b2 & E2 & L2 & O2 & B2); [lia|].
    rewrite E2. f_equal. apply bits_ext; auto; [lia|].
    intros j Hj. rewrite B2, B1 by lia.
    destruct (Z.eqb_spec j i) as [->|].
    + destruct (bit b i); [reflexivity|discriminate].
    + now rewrite orb_false_r, andb_true_r.
Qed.

Lemma bitSetOne_bitClearOne_round_trip_witness :
  (bitReadOne [1; 16; 128] 12 = Done FALSE ->
   (b1 <- bitSetOne [1; 16; 128] 12 ;; bitClearOne b1 12) = Done [1; 16; 128])
  /\ (bitReadOne [1; 16; 128] 12 = Done TRUE ->
      (b1 <- bitClearOne [1; 16; 128] 12 ;; bitSetOne b1 12) = Done [1; 16; 128]).
Proof.
  apply (bitSetOne_bitClearOne_round_trip [1; 16; 128] 12).
  - reflexivity.
  - simpl. lia.
Defined.

(** X4.  A range of one bit is the single bit: [bitSetRange b i 1] and
    [bitSetOne b i] give the same outcome, the same array or the same
    access outside it. *)
Theorem bitSetRange_one_is_bitSetOne (b : Bits) (i : Z) :
  0 <= i < INT_MAX -> bitSetRange b i 1 = bitSetOne b i.
Proof.
  intros Hi. unfold bitSetRange, bitSetOne, INT_MAX in *. cbn [Z.leb Z.compare].
  rewrite (to_int_id (i + 1)) by (unfold is_int, INT_MIN, INT_MAX; lia).
  replace (i + 1 - 1) with i by lia.
  rewrite (to_int_id i) by (unfold is_int, INT_MIN, INT_MAX; lia).
  rewrite Z.eqb_refl, land7, masks_meet by apply mod8_range. reflexivity.
Qed.

Lemma bitSetRange_one_is_bitSetOne_witness :
  bitSetRange [1; 0; 128] 11 1 = bitSetOne [1; 0; 128] 11.
Proof. apply (bitSetRange_one_is_bitSetOne [1; 0; 128] 11). unfold INT_MAX. lia. Defined.

Section MoreBitsCompose.

Lemma bit_take (b : Bits) (m : nat) (i : Z) :
  0 <= i < 8 * Z.of_nat m -> bit (take m b) i = bit b i.
Proof.
  intros Hi. unfold bit. destruct (div8_decomp i).
  rewrite lookup_take_lt by lia. reflexivity.
Qed.

Lemma bitSetRange_total (b : Bits) (s c : Z) :
  0 <= s -> s + c <= INT_MAX -> s + c <= 8 * Z.of_nat (length b) ->
  exists b', bitSetRange b s c = Done b'
    /\ length b' = length b
    /\ (bytes_ok b = true -> bytes_ok b' = true)
    /\ forall i, 0 <= i -> bit b' i = bit b i || ((s <=? i) && (i <? s + c)).
Proof.
  intros Hs Hmax Hlen. destruct (Z_lt_le_dec 0 c) as [Hc|Hc].
  - now apply bitSetRange_bits.
  - exists b. unfold bitSetRange. destruct (Z.leb_spec c 0); [|lia].
    repeat split; auto. intros i Hi.
    replace ((s <=? i) && (i <? s + c)) with false; [now rewrite orb_false_r|].
    symmetry. apply andb_false_iff.
    destruct (Z_lt_le_dec i s); [left; apply Z.leb_gt|right; apply Z.ltb_ge]; lia.
Qed.

Lemma find_post_unique (b : Bits) (s val n r r' : Z) :
  find_post b s val n r -> find_post b s val n r' -> r = r'.
Proof.
  intros [D N] [D' N'].
  destruct D as [[R B]| ->], D' as [[R' B']| ->]; try reflexivity.
  - destruct (Z.lt_trichotomy r r') as [H|[H|H]]; [|exact H|].
    + elim (N' r); lia || assumption.
    + elim (N r'); lia || assumption.
  - elim (N' r); lia || assumption.
  - elim (N r'); lia || assumption.
Qed.

End MoreBitsCompose.

(** X5.  [bitClone orig bitCount] of an array that holds at least
    [ceil(bitCount/8)] bytes returns an array of exactly that many bytes in
    which every bit below [bitCount] reads as in the original; of a shorter
    array it reads outside the original. *)
Theorem bitClone_copies (orig : Bits) (bitCount : Z) :
  0 <= bitCount -> bitCount + 7 <= INT_MAX ->
  ((bitCount + 7) / 8 <= Z.of_nat (length orig) ->
   exists c, bitClone orig bitCount = Done c
     /\ capacity c bitCount
     /\ forall i, 0 <= i < bitCount -> bitReadOne c i = bitReadOne orig i)
  /\ (Z.of_nat (length orig) < (bitCount + 7) / 8 -> bitClone orig bitCount = Fault).
Proof.
  intros H0 Hmax. unfold bitClone, memcpy, needLargeZeroedMem. unfold INT_MAX in Hmax.
  rewrite to_int_id by (unfold is_int, INT_MIN, INT_MAX; lia).
  rewrite shiftr3, length_replicate.
  set (n := (bitCount + 7) / 8).
  assert (Hn : 0 <= n) by (apply Z.div_pos; lia).
  assert (Hcap : bitCount <= 8 * n).
  { unfold n. pose proof (Z.div_mod (bitCount + 7) 8 ltac:(lia)).
    pose proof (Z.mod_pos_bound (bitCount + 7) 8 ltac:(lia)). lia. }
  destruct (Z.ltb_spec n 0); [lia|].
  destruct (Z.ltb_spec (Z.of_nat (Z.to_nat n)) n); [lia|]. split.
  - intros Hlen. destruct (Z.ltb_spec (Z.of_nat (length orig)) n); [lia|]. cbn [orb].
    rewrite drop_ge by (rewrite length_replicate; lia). rewrite app_nil_r.
    eexists. split; [reflexivity|].
    assert (L : length (take (Z.to_nat n) orig) = Z.to_nat n)
      by (apply length_take_le; lia).
    split; [unfold capacity; rewrite L; fold n; lia|].
    intros i Hi. destruct (div8_decomp i).
    rewrite !bitReadOne_bit by lia. rewrite bit_take by lia. reflexivity.
  - intros Hlen. destruct (Z.ltb_spec (Z.of_nat (length orig)) n); [|lia]. reflexivity.
Qed.

Lemma bitClone_copies_witness :
  ((20 + 7) / 8 <= Z.of_nat (length [1; 16; 128; 77]) ->
   exists c, bitClone [1; 16; 128; 77] 20 = Done c
     /\ capacity c 20
     /\ forall i, 0 <= i < 20 -> bitReadOne c i = bitReadOne [1; 16; 128; 77] i)
  /\ (Z.of_nat (length [1; 16; 128; 77]) < (20 + 7) / 8 ->
      bitClone [1; 16; 128; 77] 20 = Fault).
Proof.
  apply (bitClone_copies [1; 16; 128; 77] 20).
  - lia.
  - unfold INT_MAX. lia.
Defined.

(** X6.  On a freshly allocated array of [n] bits with the one range
    [[s, s+c)] set: a search for a set bit from any start up to [s] finds
    [s], a search for a clear bit from [s] finds [s+c], no set bit is found
    from [s+c] on, and the count over the whole array is [c]. *)
Theorem alloc_set_find (fuel : nat) (g : globals) (n s c : Z) :
  reachable g -> 0 <= s -> 0 < c -> s + c <= n -> n + 7 <= INT_MAX ->
  (Z.to_nat n < fuel)%nat ->
  exists b, bitSetRange (bitAlloc n) s c = Done b
    /\ (forall start, 0 <= start <= s -> bitFindSet fuel b start n = Done s)
    /\ bitFindClear fuel b s n = Done (s + c)
    /\ bitFindSet fuel b (s + c) n = Done n
    /\ returned (bitCountRange g b 0 n) = Done c.
Proof.
  intros Hg Hs Hc Hsc Hmax Hfuel.
  pose proof (bitAlloc_length n ltac:(lia) Hmax) as Hlen.
  assert (Hcap : n <= 8 * Z.of_nat (length (bitAlloc n))).
  { apply capacity_bound. exact Hlen. }
  assert (Hok : bytes_ok (bitAlloc n) = true) by apply bytes_ok_replicate.
  unfold INT_MAX in Hmax.
  destruct (bitSetRange_bits (bitAlloc n) s c) as (b & E & L & O & B);
    try (unfold INT_MAX; lia).
  assert (Hbit : forall i, 0 <= i -> bit b i = (s <=? i) && (i <? s + c)).
  { intros i Hi. rewrite B by exact Hi. unfold bitAlloc, needLargeZeroedMem.
    now rewrite bit_replicate_zero. }
  assert (Hfind : forall start val r, 0 <= start ->
            find_post b start val n r -> bitFind fuel b start val n = Done r).
  { intros start val r H0 Hr.
    destruct (bitFind_post fuel b start val n) as (r' & E' & P');
      try (unfold INT_MAX; lia).
    rewrite E'. f_equal. eapply find_post_unique; eassumption. }
  exists b. split; [exact E|]. split; [|split; [|split]].
  - intros start Hstart. apply Hfind; [lia|]. split.
    + left. split; [lia|]. rewrite Hbit by lia.
      destruct (Z.leb_spec s s); [|lia]. destruct (Z.ltb_spec s (s + c)); [|lia]. reflexivity.
    + intros i Hi Hlt. rewrite Hbit by lia.
      destruct (Z.leb_spec s i); [lia|]. discriminate.
  - apply Hfind; [lia|]. split.
    + destruct (Z.eq_dec (s + c) n) as [->|]; [now right|left]. split; [lia|].
      rewrite Hbit by lia. destruct (Z.ltb_spec (s + c) (s + c)); [lia|].
      now rewrite andb_false_r.
    + intros i Hi Hlt. rewrite Hbit by lia.
      destruct (Z.leb_spec s i); [|lia]. destruct (Z.ltb_spec i (s + c)); [|lia].
      discriminate.
  - apply Hfind; [lia|]. split; [now right|].
    intros i Hi Hlt. rewrite Hbit by lia.
    destruct (Z.ltb_spec i (s + c)); [lia|]. rewrite andb_false_r. discriminate.
  - unfold returned. rewrite bitCountRange_cnt; try assumption; try lia;
      try (unfold INT_MAX; lia); [|now apply O].
    cbn [bind fst]. f_equal.
    rewrite (cnt_ext _ (fun i => (s <=? i) && (i <? s + c))) by (intros; apply Hbit; lia).
    replace (Z.to_nat n) with (Z.to_nat s + (Z.to_nat c + Z.to_nat (n - (s + c))))%nat by lia.
    rewrite !cnt_app.
    rewrite (cnt_ext _ (fun _ => false) (Z.to_nat s)) by (intros; bool_lia).
    rewrite (cnt_ext _ (fun _ => true) (Z.to_nat c)) by (intros; bool_lia).
    rewrite (cnt_ext _ (fun _ => false) (Z.to_nat (n - (s + c)))) by (intros; bool_lia).
    rewrite !cnt_false, cnt_true. lia.
Qed.

Lemma alloc_set_find_witness :
  exists b, bitSetRange (bitAlloc 20) 3 10 = Done b
    /\ (forall start, 0 <= start <= 3 -> bitFindSet 21 b start 20 = Done 3)
    /\ bitFindClear 21 b 3 20 = Done (3 + 10)
    /\ bitFindSet 21 b (3 + 10) 20 = Done 20
    /\ returned (bitCountRange globals_start b 0 20) = Done 10.
Proof.
  apply (alloc_set_find 21 globals_start 20 3 10).
  - apply reach_start.
  - lia.
  - lia.
  - lia.
  - unfold INT_MAX. lia.
  - simpl. lia.
Defined.

(** X7.  Setting two ranges of an array gives the same array whichever is
    set first, and setting a range that is already set changes nothing. *)
Theorem bitSetRange_commutes (b : Bits) (s1 c1 s2 c2 : Z) :
  bytes_ok b = true ->
  0 <= s1 -> s1 + c1 <= 8 * Z.of_nat (length b) ->
  0 <= s2 -> s2 + c2 <= 8 * Z.of_nat (length b) ->
  8 * Z.of_nat (length b) <= INT_MAX ->
  (b1 <- bitSetRange b s1 c1 ;; bitSetRange b1 s2 c2)
  = (b2 <- bitSetRange b s2 c2 ;; bitSetRange b2 s1 c1)
  /\ (b1 <- bitSetRange b s1 c1 ;; bitSetRange b1 s1 c1) = bitSetRange b s1 c1.
Proof.
  intros Hb Hs1 Hl1 Hs2 Hl2 Hmax.
  destruct (bitSetRange_total b s1 c1) as (b1 & E1 & L1 & O1 & B1); try lia.
  destruct (bitSetRange_total b s2 c2) as (b2 & E2 & L2 & O2 & B2); try lia.
  destruct (bitSetRange_total b1 s2 c2) as (b12 & E12 & L12 & O12 & B12); try lia.
  destruct (bitSetRange_total b2 s1 c1) as (b21 & E21 & L21 & O21 & B21); try lia.
  destruct (bitSetRange_total b1 s1 c1) as (b11 & E11 & L11 & O11 & B11); try lia.
  rewrite E1, E2. cbn [bind]. rewrite E12, E21, E11. split; f_equal.
  - apply bits_ext; auto; [lia|]. intros i Hi.
    rewrite B12, B21, B1, B2 by lia.
    destruct (bit b i); simpl; [reflexivity|]. apply orb_comm.
  - apply bits_ext; auto. intros i Hi.
    rewrite B11, B1 by lia. rewrite <- orb_assoc. now rewrite orb_diag.
Qed.

Lemma bitSetRange_commutes_witness :
  (b1 <- bitSetRange [1; 0; 128] 3 10 ;; bitSetRange b1 9 12)
  = (b2 <- bitSetRange [1; 0; 128] 9 12 ;; bitSetRange b2 3 10)
  /\ (b1 <- bitSetRange [1; 0; 128] 3 10 ;; bitSetRange b1 3 10)
     = bitSetRange [1; 0; 128] 3 10.
Proof.
  apply (bitSetRange_commutes [1; 0; 128] 3 10 9 12).
  - reflexivity.
  - lia.
  - simpl. lia.
  - lia.
  - simpl. lia.
  - unfold INT_MAX. simpl. lia.
Defined.

(** X8.  Setting two adjacent ranges one after the other gives the same
    array as setting their union at once. *)
Theorem bitSetRange_adjacent (b : Bits) (s c1 c2 : Z) :
  bytes_ok b = true ->
  0 <= s -> 0 <= c1 -> 0 <= c2 -> s + c1 + c2 <= 8 * Z.of_nat (length b) ->
  8 * Z.of_nat (length b) <= INT_MAX ->
  (b1 <- bitSetRange b s c1 ;; bitSetRange b1 (s + c1) c2)
  = bitSetRange b s (c1 + c2).
Proof.
  intros Hb Hs Hc1 Hc2 Hlen Hmax.
  destruct (bitSetRange_total b s c1) as (b1 & E1 & L1 & O1 & B1); try lia.
  destruct (bitSetRange_total b1 (s + c1) c2) as (b2 & E2 & L2 & O2 & B2); try lia.
  destruct (bitSetRange_total b s (c1 + c2)) as (b3 & E3 & L3 & O3 & B3); try lia.
  rewrite E1. cbn [bind]. rewrite E2, E3. f_equal.
  apply bits_ext; auto; [lia|]. intros i Hi.
  rewrite B2, B1, B3 by lia. rewrite <- orb_assoc. f_equal. bool_lia.
Qed.

Lemma bitSetRange_adjacent_witness :
  (b1 <- bitSetRange [1; 0; 128] 3 6 ;; bitSetRange b1 (3 + 6) 9)
  = bitSetRange [1; 0; 128] 3 (6 + 9).
Proof.
  apply (bitSetRange_adjacent [1; 0; 128] 3 6 9).
  - reflexivity.
  - lia.
  - lia.
  - lia.
  - simpl. lia.
  - unfold INT_MAX. simpl. lia.
Defined.

(** X9.  The count over a range is the sum of the counts over its two
    parts, wherever it is split, and it lies between 0 and the length of the
    range. *)
Theorem bitCountRange_additive (g : globals) (b : Bits) (s c1 c2 : Z) :
  reachable g -> bytes_ok b = true ->
  0 <= s -> 0 < c1 -> 0 < c2 -> s + c1 + c2 <= 8 * Z.of_nat (length b) ->
  8 * Z.of_nat (length b) <= INT_MAX ->
  exists k1 k2,
    returned (bitCountRange g b s c1) = Done k1
    /\ returned (bitCountRange g b (s + c1) c2) = Done k2
    /\ returned (bitCountRange g b s (c1 + c2)) = Done (k1 + k2)
    /\ 0 <= k1 <= c1 /\ 0 <= k2 <= c2.
Proof.
  intros Hg Hb Hs Hc1 Hc2 Hlen Hmax. unfold returned.
  rewrite !bitCountRange_cnt by (assumption || lia). cbn [bind fst].
  do 2 eexists. split; [reflexivity|]. split; [reflexivity|]. split.
  - f_equal. replace (Z.to_nat (c1 + c2)) with (Z.to_nat c1 + Z.to_nat c2)%nat by lia.
    rewrite cnt_app. do 2 f_equal. lia.
  - pose proof (cnt_bounds (bit b) (Z.to_nat c1) s).
    pose proof (cnt_bounds (bit b) (Z.to_nat c2) (s + c1)). lia.
Qed.

Lemma bitCountRange_additive_witness :
  exists k1 k2,
    returned (bitCountRange globals_start [0; 3; 24; 255] 1 12) = Done k1
    /\ returned (bitCountRange globals_start [0; 3; 24; 255] (1 + 12) 18) = Done k2
    /\ returned (bitCountRange globals_start [0; 3; 24; 255] 1 (12 + 18)) = Done (k1 + k2)
    /\ 0 <= k1 <= 12 /\ 0 <= k2 <= 18.
Proof.
  apply (bitCountRange_additive globals_start [0; 3; 24; 255] 1 12 18).
  - apply reach_start.
  - reflexivity.
  - lia.
  - lia.
  - lia.
  - simpl. lia.
  - unfold INT_MAX. simpl. lia.
Defined.

(** X10.  Setting a range raises the count over any range that contains it
    by the number of bits of it that were clear. *)
Theorem bitSetRange_raises_count (g : globals) (b : Bits) (lo n s c : Z) :
  reachable g -> bytes_ok b = true ->
  0 <= lo -> lo <= s -> 0 < c -> s + c <= lo + n ->
  lo + n <= 8 * Z.of_nat (length b) -> 8 * Z.of_nat (length b) <= INT_MAX ->
  exists b' before inside after,
    bitSetRange b s c = Done b'
    /\ returned (bitCountRange g b lo n) = Done before
    /\ returned (bitCountRange g b s c) = Done inside
    /\ returned (bitCountRange g b' lo n) = Done after
    /\ after = before + (c - inside).
Proof.
  intros Hg Hb Hlo Hs Hc Hsc Hlen Hmax.
  destruct (bitSetRange_bits b s c) as (b' & E & L & O & B); try lia.
  unfold returned. exists b'.
  rewrite (bitCountRange_cnt g b lo n) by (auto; lia).
  rewrite (bitCountRange_cnt g b s c) by (auto; lia).
  rewrite (bitCountRange_cnt g b' lo n) by (rewrite ?L; auto; lia).
  cbn [bind fst]. do 3 eexists. split; [exact E|]. do 3 (split; [reflexivity|]).
  replace (Z.to_nat n)
    with (Z.to_nat (s - lo) + (Z.to_nat c + Z.to_nat (lo + n - (s + c))))%nat by lia.
  rewrite !cnt_app.
  replace (lo + Z.of_nat (Z.to_nat (s - lo))) with s by lia.
  rewrite (cnt_ext (bit b') (bit b) (Z.to_nat (s - lo)) lo).
  2:{ intros i Hi. rewrite B by lia.
      replace ((s <=? i) && (i <? s + c)) with false; [apply orb_false_r|].
      symmetry. bool_lia. }
  rewrite (cnt_ext (bit b') (fun _ => true) (Z.to_nat c) s).
  2:{ intros i Hi. rewrite B by lia.
      replace ((s <=? i) && (i <? s + c)) with true; [apply orb_true_r|].
      symmetry. bool_lia. }
  rewrite (cnt_ext (bit b') (bit b) (Z.to_nat (lo + n - (s + c)))).
  2:{ intros i Hi. rewrite B by lia.
      replace ((s <=? i) && (i <? s + c)) with false; [apply orb_false_r|].
      symmetry. rewrite andb_comm. bool_lia. }
  rewrite cnt_true. lia.
Qed.

Lemma bitSetRange_raises_count_witness :
  exists b' before inside after,
    bitSetRange [0; 3; 24; 255] 12 10 = Done b'
    /\ returned (bitCountRange globals_start [0; 3; 24; 255] 1 30) = Done before
    /\ returned (bitCountRange globals_start [0; 3; 24; 255] 12 10) = Done inside
    /\ returned (bitCountRange globals_start b' 1 30) = Done after
    /\ after = before + (10 - inside).
Proof.
  apply (bitSetRange_raises_count globals_start [0; 3; 24; 255] 1 30 12 10).
  - apply reach_start.
  - reflexivity.
  - lia.
  - lia.
  - lia.
  - lia.
  - simpl. lia.
  - unfold INT_MAX. simpl. lia.
Defined.

(** X11.  A search restarted anywhere between its start and the index it
    found finds the same index; in particular searching again from the
    result returns the result. *)
Theorem bitFind_restart (fuel : nat) (b : Bits) (startIx val bitCount r : Z) :
  0 <= startIx -> 0 <= bitCount <= INT_MAX -> bitCount <= 8 * Z.of_nat (length b) ->
  (Z.to_nat (bitCount - startIx) < fuel)%nat ->
  bitFind fuel b startIx val bitCount = Done r ->
  forall again, startIx <= again <= r -> bitFind fuel b again val bitCount = Done r.
Proof.
  intros H0 Hn Hlen Hfuel Hr again Hagain.
  destruct (bitFind_post fuel b startIx val bitCount) as (r0 & E0 & P0); try assumption.
  rewrite Hr in E0. injection E0 as <-.
  destruct (bitFind_post fuel b again val bitCount) as (r1 & E1 & P1);
    try assumption; try lia.
  rewrite E1. f_equal. apply (find_post_unique b again val bitCount); [exact P1|].
  destruct P0 as [D N]. split.
  - destruct D as [[R B]| ->]; [left; split; [lia|exact B]|now right].
  - intros i Hi Hlt. apply N; lia.
Qed.

Lemma bitFind_restart_witness :
  bitFind 33 [0; 0; 24; 0] 12 TRUE 32 = Done 19
  /\ bitFind 33 [0; 0; 24; 0] 19 TRUE 32 = Done 19.
Proof.
  pose proof (bitFind_restart 33 [0; 0; 24; 0] 5 TRUE 32 19) as H.
  split; apply H; try reflexivity; unfold INT_MAX; simpl; lia.
Defined.

(** * More of common.c: ranges, comparisons, byte order *)

Section Ranges.

Lemma cnt_interval lo hi (n : nat) : forall s,
  cnt (fun x => (lo <=? x) && (x <? hi)) s n
  = Z.max 0 (Z.min (s + Z.of_nat n) hi - Z.max s lo).
Proof.
  induction n as [|n IH]; intros s.
  - cbn [cnt]. lia.
  - cbn [cnt]. rewrite IH.
    destruct (Z.leb_spec lo s), (Z.ltb_spec s hi); simpl Z.b2z; lia.
Qed.

End Ranges.

(** X12.  For ranges with coordinates from 0 to [INT_MAX],
    [positiveRangeIntersection] is the number of positions that lie in both
    ranges, [rangeIntersection] is positive exactly when there is such a
    position, and neither depends on the order of the two ranges. *)
Theorem rangeIntersection_counts (start1 end1 start2 end2 : Z) :
  0 <= start1 <= INT_MAX -> 0 <= end1 <= INT_MAX ->
  0 <= start2 <= INT_MAX -> 0 <= end2 <= INT_MAX ->
  positiveRangeIntersection start1 end1 start2 end2
  = commonPositions start1 end1 start2 end2
  /\ (0 < rangeIntersection start1 end1 start2 end2 <->
      exists x, start1 <= x < end1 /\ start2 <= x < end2)
  /\ rangeIntersection start1 end1 start2 end2
     = rangeIntersection start2 end2 start1 end1.
Proof.
  intros H1 H2 H3 H4. unfold INT_MAX in *.
  assert (E : rangeIntersection start1 end1 start2 end2
              = Z.min end1 end2 - Z.max start1 start2).
  { unfold rangeIntersection. apply to_int_id. unfold is_int, INT_MIN, INT_MAX. lia. }
  split; [|split].
  - unfold positiveRangeIntersection, commonPositions. rewrite E.
    destruct (Z_le_gt_dec start1 end1) as [Hle|Hgt].
    + rewrite <- (Z2Nat.id (end1 - start1)) at 1 by lia.
      rewrite cnt_filter, cnt_interval. rewrite Z2Nat.id by lia.
      destruct (Z.ltb_spec (Z.min end1 end2 - Z.max start1 start2) 0); lia.
    + rewrite seqZ_nil by lia. simpl.
      destruct (Z.ltb_spec (Z.min end1 end2 - Z.max start1 start2) 0); lia.
  - rewrite E. split.
    + intros H. exists (Z.max start1 start2). lia.
    + intros (x & Hx1 & Hx2). lia.
  - unfold rangeIntersection. now rewrite Z.max_comm, Z.min_comm.
Qed.

Lemma rangeIntersection_counts_witness :
  positiveRangeIntersection 10 20 15 40 = commonPositions 10 20 15 40
  /\ (0 < rangeIntersection 10 20 15 40 <->
      exists x, 10 <= x < 20 /\ 15 <= x < 40)
  /\ rangeIntersection 10 20 15 40 = rangeIntersection 15 40 10 20.
Proof.
  apply (rangeIntersection_counts 10 20 15 40); unfold INT_MAX; lia.
Defined.

(** X13.  On two [int]s, [intCmp] returns the sign of their order exactly
    when their difference is an [int]; when the subtraction wraps around it
    returns the opposite sign. *)
Theorem intCmp_sign (a b : Z) :
  is_int a -> is_int b ->
  (is_int (a - b) -> intCmp a b = orderSign a b)
  /\ (~ is_int (a - b) -> intCmp a b = - orderSign a b /\ a <> b).
Proof.
  unfold is_int, INT_MIN, INT_MAX. intros Ha Hb. unfold intCmp, orderSign. split.
  - intros Hd. rewrite to_int_id by (unfold is_int, INT_MIN, INT_MAX; lia).
    destruct (Z.compare_spec a b);
      destruct (Z.ltb_spec (a - b) 0); destruct (Z.ltb_spec 0 (a - b)); lia.
  - intros Hd. unfold to_int.
    assert (Hcase : 2147483647 < a - b \/ a - b < -2147483648) by lia.
    destruct Hcase as [Hbig|Hsmall].
    + replace ((a - b + 2147483648) mod 4294967296) with (a - b - 2147483648)
        by (apply Z.mod_unique with 1; lia).
      destruct (Z.compare_spec a b); try lia.
      destruct (Z.ltb_spec (a - b - 2147483648 - 2147483648) 0); lia.
    + replace ((a - b + 2147483648) mod 4294967296) with (a - b + 6442450944)
        by (apply Z.mod_unique with (-1); lia).
      destruct (Z.compare_spec a b); try lia.
      destruct (Z.ltb_spec (a - b + 6442450944 - 2147483648) 0); [lia|].
      destruct (Z.ltb_spec 0 (a - b + 6442450944 - 2147483648)); lia.
Qed.

Lemma intCmp_sign_witness :
  (is_int (-2147483648 - 1) -> intCmp (-2147483648) 1 = orderSign (-2147483648) 1)
  /\ (~ is_int (-2147483648 - 1) ->
      intCmp (-2147483648) 1 = - orderSign (-2147483648) 1 /\ -2147483648 <> 1).
Proof.
  apply (intCmp_sign (-2147483648) 1); unfold is_int, INT_MIN, INT_MAX; lia.
Defined.

Section ByteOrder.

Lemma length_le_bytes (n : nat) : forall a, length (le_bytes n a) = n.
Proof. induction n as [|n IH]; intros a; simpl; [reflexivity|now rewrite IH]. Qed.

Lemma le_bytes_range (n : nat) : forall a, byte_list (le_bytes n a).
Proof.
  induction n as [|n IH]; intros a; simpl; constructor; [|apply IH].
  apply Z.mod_pos_bound. lia.
Qed.

Lemma le_value_le_bytes (n : nat) : forall a,
  le_value (le_bytes n a) = a mod 256 ^ Z.of_nat n.
Proof.
  induction n as [|n IH]; intros a.
  - simpl. now rewrite Z.mod_1_r.
  - cbn [le_bytes le_value]. rewrite IH.
    rewrite Nat2Z.inj_succ, Z.pow_succ_r by lia.
    rewrite Z.rem_mul_r by lia. lia.
Qed.

Lemma le_value_bound (bytes : list Z) :
  byte_list bytes -> 0 <= le_value bytes < 256 ^ Z.of_nat (length bytes).
Proof.
  induction 1 as [|x bytes Hx _ IH]; [simpl; lia|].
  cbn [le_value length]. rewrite Nat2Z.inj_succ, Z.pow_succ_r by lia. lia.
Qed.

Lemma le_bytes_le_value (bytes : list Z) :
  byte_list bytes -> le_bytes (length bytes) (le_value bytes) = bytes.
Proof.
  induction 1 as [|x bytes Hx _ IH]; [reflexivity|].
  cbn [le_value length le_bytes].
  replace (x + 256 * le_value bytes) with (x + le_value bytes * 256) by lia. f_equal.
  - rewrite Z.mod_add by lia. now apply Z.mod_small.
  - rewrite Z.div_add by lia. rewrite (Z.div_small x) by lia. now rewrite Z.add_0_l.
Qed.

Lemma byte_list_reverse (bytes : list Z) : byte_list bytes -> byte_list (reverse bytes).
Proof.
  unfold byte_list. intros H. now apply Forall_reverse.
Qed.

Lemma swapped_involutive (n : nat) (a : Z) :
  0 <= a < 256 ^ Z.of_nat n -> swapped n (swapped n a) = a.
Proof.
  intros Ha. unfold swapped at 2.
  pose proof (byte_list_reverse _ (le_bytes_range n a)) as Hr.
  pose proof (le_bytes_le_value _ Hr) as E.
  rewrite length_reverse, length_le_bytes in E.
  unfold swapped. rewrite E, reverse_involutive, le_value_le_bytes.
  now apply Z.mod_small.
Qed.

Lemma swapped_range (n : nat) (a : Z) : 0 <= swapped n a < 256 ^ Z.of_nat n.
Proof.
  unfold swapped.
  pose proof (le_value_bound _ (byte_list_reverse _ (le_bytes_range n a))) as H.
  now rewrite length_reverse, length_le_bytes in H.
Qed.

Lemma byteSwap16_swapped o a : byteSwap16 o a = swapped 2 a.
Proof. destruct o; reflexivity. Qed.

Lemma byteSwap32_swapped o a : byteSwap32 o a = swapped 4 a.
Proof. destruct o; reflexivity. Qed.

Lemma byteSwap64_swapped o a : byteSwap64 o a = swapped 8 a.
Proof. destruct o; reflexivity. Qed.

(** Bytes written in one byte order and read back in another. *)
Lemma union_round_trip (w o : byteOrder) (n : nat) (a : Z) :
  0 <= a < 256 ^ Z.of_nat n ->
  (w = o -> union_whole o (union_bytes w n a) = a)
  /\ (w <> o -> union_whole o (union_bytes w n a) = swapped n a).
Proof.
  intros Ha. split; intros Hwo; destruct w, o; try congruence;
    cbn [union_whole union_bytes];
    rewrite ?reverse_involutive, ?le_value_le_bytes, ?Z.mod_small by assumption;
    reflexivity.
Qed.

End ByteOrder.

(** X14.  On a 32-bit value [byteSwap32] gives the same result whatever the
    byte order of the machine: the value with its four bytes in reverse
    order.  Swapping twice gives the value back. *)
Theorem byteSwap32_involutive (o : byteOrder) (a : Z) :
  0 <= a < 4294967296 ->
  byteSwap32 o a
  = a mod 256 * 16777216 + a / 256 mod 256 * 65536
    + a / 65536 mod 256 * 256 + a / 16777216 mod 256
  /\ byteSwap32 LittleEndian a = byteSwap32 BigEndian a
  /\ 0 <= byteSwap32 o a < 4294967296
  /\ byteSwap32 o (byteSwap32 o a) = a.
Proof.
  intros Ha. rewrite !byteSwap32_swapped. split; [|split; [reflexivity|split]].
  - unfold swapped. cbn [le_bytes]. rewrite !Z.div_div by lia.
    change (reverse ?l) with (rev_append l []). cbn [rev_append le_value].
    change (256 * 256 * 256) with 16777216. change (256 * 256) with 65536. lia.
  - apply (swapped_range 4).
  - apply (swapped_involutive 4). exact Ha.
Qed.

Lemma byteSwap32_involutive_witness :
  byteSwap32 LittleEndian 439041101
  = 439041101 mod 256 * 16777216 + 439041101 / 256 mod 256 * 65536
    + 439041101 / 65536 mod 256 * 256 + 439041101 / 16777216 mod 256
  /\ byteSwap32 LittleEndian 439041101 = byteSwap32 BigEndian 439041101
  /\ 0 <= byteSwap32 LittleEndian 439041101 < 4294967296
  /\ byteSwap32 LittleEndian (byteSwap32 LittleEndian 439041101) = 439041101.
Proof. apply (byteSwap32_involutive LittleEndian 439041101). lia. Defined.

(** X15.  [byteSwap64] and [byteSwap16] too give the same result on either
    byte order, stay in the range of their type, and are their own
    inverses. *)
Theorem byteSwap64_byteSwap16_involutive (o : byteOrder) (a c : Z) :
  0 <= a < 18446744073709551616 -> 0 <= c < 65536 ->
  (byteSwap64 LittleEndian a = byteSwap64 BigEndian a
   /\ 0 <= byteSwap64 o a < 18446744073709551616
   /\ byteSwap64 o (byteSwap64 o a) = a)
  /\ (byteSwap16 o c = c mod 256 * 256 + c / 256
      /\ byteSwap16 LittleEndian c = byteSwap16 BigEndian c
      /\ 0 <= byteSwap16 o c < 65536
      /\ byteSwap16 o (byteSwap16 o c) = c).
Proof.
  intros Ha Hc. rewrite !byteSwap64_swapped, !byteSwap16_swapped. split.
  - split; [reflexivity|]. split; [apply (swapped_range 8)|].
    apply (swapped_involutive 8). exact Ha.
  - split; [|split; [reflexivity|split]].
    + unfold swapped. cbn [le_bytes].
      change (reverse ?l) with (rev_append l []). cbn [rev_append le_value].
      rewrite (Z.mod_small (c / 256)); [lia|].
      split; [apply Z.div_pos; lia|apply Z.div_lt_upper_bound; lia].
    + apply (swapped_range 2).
    + apply (swapped_involutive 2). exact Hc.
Qed.

Lemma byteSwap64_byteSwap16_involutive_witness :
  (byteSwap64 LittleEndian 72623859790382856 = byteSwap64 BigEndian 72623859790382856
   /\ 0 <= byteSwap64 BigEndian 72623859790382856 < 18446744073709551616
   /\ byteSwap64 BigEndian (byteSwap64 BigEndian 72623859790382856) = 72623859790382856)
  /\ (byteSwap16 BigEndian 4660 = 4660 mod 256 * 256 + 4660 / 256
      /\ byteSwap16 LittleEndian 4660 = byteSwap16 BigEndian 4660
      /\ 0 <= byteSwap16 BigEndian 4660 < 65536
      /\ byteSwap16 BigEndian (byteSwap16 BigEndian 4660) = 4660).
Proof.
  apply (byteSwap64_byteSwap16_involutive BigEndian 72623859790382856 4660); lia.
Defined.

(** X16.  A 32-bit (16-bit) value stored in a buffer by a machine of one
    byte order is read back by [memReadBits32] ([memReadBits16]) on a
    machine of either byte order, provided [isSwapped] is set exactly when
    the two byte orders differ; the pointer advances by the size of the
    value.  With fewer bytes left in the buffer the read goes outside it. *)
Theorem memReadBits_round_trip (w o : byteOrder) (pre post : list Z) (a c isSwapped : Z) :
  0 <= a < 4294967296 -> 0 <= c < 65536 ->
  (isSwapped = 0 <-> w = o) ->
  memReadBits32 o (pre ++ union_bytes w 4 a ++ post) (Z.of_nat (length pre)) isSwapped
  = Done (a, Z.of_nat (length pre) + 4)
  /\ memReadBits16 o (pre ++ union_bytes w 2 c ++ post) (Z.of_nat (length pre)) isSwapped
     = Done (c, Z.of_nat (length pre) + 2)
  /\ (forall mem pt, Z.of_nat (length mem) < pt + 4 ->
        memReadBits32 o mem pt isSwapped = Fault)
  /\ (forall mem pt, Z.of_nat (length mem) < pt + 2 ->
        memReadBits16 o mem pt isSwapped = Fault).
Proof.
  intros Ha Hc Hsw.
  assert (Hlen : forall n v, length (union_bytes w n v) = n).
  { intros n v. destruct w; cbn [union_bytes];
      rewrite ?length_reverse; apply length_le_bytes. }
  split; [|split; [|split]].
  - unfold memReadBits32. rewrite !length_app, Hlen.
    destruct (Z.ltb_spec (Z.of_nat (length pre)) 0); [lia|].
    destruct (Z.ltb_spec (Z.of_nat (length pre + (4 + length post))%nat)
                (Z.of_nat (length pre) + 4)); [lia|]. cbn [orb].
    rewrite Nat2Z.id, drop_app_length.
    rewrite (take_app_length' _ _ 4) by (symmetry; apply Hlen).
    destruct (union_round_trip w o 4 a Ha) as [Same Diff]. f_equal. f_equal.
    destruct (Z.eqb_spec isSwapped 0) as [E|E].
    + apply Same, Hsw, E.
    + rewrite Diff by (intros Hwo; apply Hsw in Hwo; contradiction).
      rewrite byteSwap32_swapped. apply (swapped_involutive 4). exact Ha.
  - unfold memReadBits16. rewrite !length_app, Hlen.
    destruct (Z.ltb_spec (Z.of_nat (length pre)) 0); [lia|].
    destruct (Z.ltb_spec (Z.of_nat (length pre + (2 + length post))%nat)
                (Z.of_nat (length pre) + 2)); [lia|]. cbn [orb].
    rewrite Nat2Z.id, drop_app_length.
    rewrite (take_app_length' _ _ 2) by (symmetry; apply Hlen).
    destruct (union_round_trip w o 2 c Hc) as [Same Diff]. f_equal. f_equal.
    destruct (Z.eqb_spec isSwapped 0) as [E|E].
    + apply Same, Hsw, E.
    + rewrite Diff by (intros Hwo; apply Hsw in Hwo; contradiction).
      rewrite byteSwap16_swapped. apply (swapped_involutive 2). exact Hc.
  - intros mem pt Hshort. unfold memReadBits32.
    destruct (Z.ltb_spec (Z.of_nat (length mem)) (pt + 4)); [|lia].
    now rewrite orb_true_r.
  - intros mem pt Hshort. unfold memReadBits16.
    destruct (Z.ltb_spec (Z.of_nat (length mem)) (pt + 2)); [|lia].
    now rewrite orb_true_r.
Qed.

Lemma memReadBits_round_trip_witness :
  memReadBits32 LittleEndian ([7; 7] ++ union_bytes BigEndian 4 439041101 ++ [9])
    (Z.of_nat (length [7; 7])) 1
  = Done (439041101, Z.of_nat (length [7; 7]) + 4)
  /\ memReadBits16 LittleEndian ([7; 7] ++ union_bytes BigEndian 2 4660 ++ [9])
       (Z.of_nat (length [7; 7])) 1
     = Done (4660, Z.of_nat (length [7; 7]) + 2)
  /\ (forall mem pt, Z.of_nat (length mem) < pt + 4 ->
        memReadBits32 LittleEndian mem pt 1 = Fault)
  /\ (forall mem pt, Z.of_nat (length mem) < pt + 2 ->
        memReadBits16 LittleEndian mem pt 1 = Fault).
Proof.
  apply (memReadBits_round_trip BigEndian LittleEndian [7; 7] [9] 439041101 4660 1).
  - lia.
  - lia.
  - split; intros H; discriminate.
Defined.

Section ReverseBytes.

Lemma poke_done (m : list Z) (i v : Z) :
  0 <= i < Z.of_nat (length m) -> poke m i v = Done (<[Z.to_nat i := v]> m).
Proof.
  intros Hi. unfold poke. destruct (Z.ltb_spec i 0); [lia|].
  destruct (Nat.ltb_spec (Z.to_nat i) (length m)); [reflexivity|lia].
Qed.

(** The index that position [k] of the swapped zones takes its byte from. *)
Lemma reverseBytes_loop_spec (n : nat) : forall (mem : list Z) (i j : Z),
  0 <= i -> i + 2 * Z.of_nat n <= j -> j <= Z.of_nat (length mem) ->
  exists mem', reverseBytes_loop n mem i j = Done mem'
    /\ length mem' = length mem
    /\ forall k, 0 <= k ->
         mem' !! Z.to_nat k
         = if ((i <=? k) && (k <? i + Z.of_nat n))
              || ((j - Z.of_nat n <=? k) && (k <? j))
           then mem !! Z.to_nat (i + j - 1 - k)
           else mem !! Z.to_nat k.
Proof.
  induction n as [|n IH]; intros mem i j Hi Hij Hj.
  - exists mem. split; [reflexivity|]. split; [reflexivity|].
    intros k Hk. replace (i + Z.of_nat 0) with i by lia.
    replace (j - Z.of_nat 0) with j by lia.
    destruct (Z.leb_spec i k), (Z.ltb_spec k i), (Z.leb_spec j k), (Z.ltb_spec k j);
      simpl; try reflexivity; lia.
  - cbn [reverseBytes_loop].
    destruct (load_in_range mem i) as (c & Hc & ->); [lia|]. cbn [bind].
    destruct (load_in_range mem (j - 1)) as (x & Hx & ->); [lia|]. cbn [bind].
    rewrite poke_done by lia. cbn [bind].
    rewrite poke_done by (rewrite length_insert; lia). cbn [bind].
    set (mem2 := <[Z.to_nat (j - 1) := c]> (<[Z.to_nat i := x]> mem)).
    assert (L2 : length mem2 = length mem) by (unfold mem2; now rewrite !length_insert).
    assert (Look : forall t, 0 <= t ->
              mem2 !! Z.to_nat t
              = if t =? j - 1 then mem !! Z.to_nat i
                else if t =? i then mem !! Z.to_nat (j - 1)
                else mem !! Z.to_nat t).
    { intros t Ht. unfold mem2. destruct (Z.eqb_spec t (j - 1)) as [->|N1].
      - rewrite list_lookup_insert_eq by (rewrite length_insert; lia). now rewrite Hc.
      - rewrite list_lookup_insert_ne by lia. destruct (Z.eqb_spec t i) as [->|N2].
        + rewrite list_lookup_insert_eq by lia. now rewrite Hx.
        + now rewrite list_lookup_insert_ne by lia. }
    destruct (IH mem2 (i + 1) (j - 1)) as (mem' & E & L & Spec); try lia.
    exists mem'. split; [exact E|]. split; [lia|].
    intros k Hk. rewrite Spec by exact Hk.
    destruct (Z.leb_spec (i + 1) k), (Z.ltb_spec k (i + 1 + Z.of_nat n)),
             (Z.leb_spec (j - 1 - Z.of_nat n) k), (Z.ltb_spec k (j - 1)),
             (Z.leb_spec i k), (Z.ltb_spec k (i + Z.of_nat (S n))),
             (Z.leb_spec (j - Z.of_nat (S n)) k), (Z.ltb_spec k j);
      cbn [andb orb]; try lia;
      rewrite Look by lia;
      repeat match goal with
             | |- context [?a =? ?b] => destruct (Z.eqb_spec a b)
             end; try lia; try reflexivity; f_equal; lia.
Qed.

End ReverseBytes.

(** X17.  [reverseBytes] on [length] bytes at index [bytes] of a buffer
    that holds them reverses exactly these bytes and leaves the rest of the
    buffer alone; applied twice it gives the buffer back; and with a length
    of 1 or less (negative lengths too) it changes nothing and reads
    nothing. *)
Theorem reverseBytes_reverses (mem : list Z) (bytes length_ : Z) :
  0 <= bytes -> bytes + length_ <= Z.of_nat (length mem) ->
  (0 <= length_ ->
   reverseBytes mem bytes length_
   = Done (take (Z.to_nat bytes) mem
           ++ reverse (take (Z.to_nat length_) (drop (Z.to_nat bytes) mem))
           ++ drop (Z.to_nat (bytes + length_)) mem))
  /\ (0 <= length_ ->
      (m <- reverseBytes mem bytes length_ ;; reverseBytes m bytes length_) = Done mem)
  /\ (length_ <= 1 -> forall any, reverseBytes any bytes length_ = Done any).
Proof.
  intros Hb Hlen.
  assert (Main : forall (m : list Z) (off len : Z),
            0 <= off -> 0 <= len -> off + len <= Z.of_nat (length m) ->
            reverseBytes m off len
            = Done (take (Z.to_nat off) m
                    ++ reverse (take (Z.to_nat len) (drop (Z.to_nat off) m))
                    ++ drop (Z.to_nat (off + len)) m)).
  { intros m off len Hoff Hl Hin. unfold reverseBytes.
    rewrite Z.shiftr_div_pow2 by lia. change (2 ^ 1) with 2.
    pose proof (Z.div_mod len 2 ltac:(lia)) as Ediv.
    pose proof (Z.mod_pos_bound len 2 ltac:(lia)) as Rdiv.
    assert (Hh : 0 <= len / 2) by (apply Z.div_pos; lia).
    destruct (reverseBytes_loop_spec (Z.to_nat (len / 2)) m off (off + len))
      as (m' & E & L & Spec); try lia.
    rewrite E. f_equal. apply list_eq. intros k.
    specialize (Spec (Z.of_nat k) ltac:(lia)). rewrite Nat2Z.id in Spec. rewrite Spec.
    rewrite Z2Nat.id by lia.
    assert (LT : length (take (Z.to_nat off) m) = Z.to_nat off)
      by (apply length_take_le; lia).
    assert (LR : length (take (Z.to_nat len) (drop (Z.to_nat off) m)) = Z.to_nat len)
      by (apply length_take_le; rewrite length_drop; lia).
    destruct (decide (k < Z.to_nat off)%nat) as [K1|K1].
    { rewrite lookup_app_l by lia. rewrite lookup_take_lt by lia.
      destruct (Z.leb_spec off (Z.of_nat k)); [lia|].
      destruct (Z.leb_spec (off + len - len / 2) (Z.of_nat k)); [lia|]. reflexivity. }
    rewrite lookup_app_r by lia. rewrite LT.
    destruct (decide (k < Z.to_nat off + Z.to_nat len)%nat) as [K2|K2].
    - rewrite lookup_app_l by (rewrite length_reverse; lia).
      rewrite reverse_lookup by lia. rewrite LR.
      rewrite lookup_take_lt by lia. rewrite lookup_drop.
      replace (Z.to_nat off + (Z.to_nat len - S (k - Z.to_nat off)))%nat
        with (Z.to_nat (off + (off + len) - 1 - Z.of_nat k)) by lia.
      destruct (Z.leb_spec off (Z.of_nat k)), (Z.ltb_spec (Z.of_nat k) (off + len / 2)),
               (Z.leb_spec (off + len - len / 2) (Z.of_nat k)),
               (Z.ltb_spec (Z.of_nat k) (off + len));
        cbn [andb orb]; try lia; try reflexivity.
      f_equal. lia.
    - rewrite lookup_app_r by (rewrite length_reverse; lia).
      rewrite length_reverse, LR, lookup_drop.
      destruct (Z.ltb_spec (Z.of_nat k) (off + len / 2)); [lia|].
      destruct (Z.ltb_spec (Z.of_nat k) (off + len)); [lia|].
      rewrite !andb_false_r. cbn [orb]. f_equal. lia. }
  split; [|split].
  - intros Hl. now apply Main.
  - intros Hl. rewrite Main by assumption. cbn [bind].
    set (A := take (Z.to_nat bytes) mem).
    set (X := take (Z.to_nat length_) (drop (Z.to_nat bytes) mem)).
    set (B := drop (Z.to_nat (bytes + length_)) mem).
    assert (LA : length A = Z.to_nat bytes) by (apply length_take_le; lia).
    assert (LX : length X = Z.to_nat length_)
      by (apply length_take_le; rewrite length_drop; lia).
    rewrite Main; try lia.
    2:{ rewrite !length_app, length_reverse, LA, LX. unfold B. rewrite length_drop. lia. }
    f_equal. rewrite (take_app_length' A _ (Z.to_nat bytes)) by lia.
    rewrite (drop_app_length' A _ (Z.to_nat bytes)) by lia.
    rewrite (take_app_length' (reverse X) _ (Z.to_nat length_))
      by (rewrite length_reverse; lia).
    rewrite reverse_involutive.
    replace (Z.to_nat (bytes + length_)) with (length A + length (reverse X))%nat
      by (rewrite length_reverse; lia).
    rewrite drop_app_add', drop_app_length by reflexivity.
    unfold A, X, B. rewrite Z2Nat.inj_add by lia.
    rewrite <- drop_drop. rewrite take_drop. apply take_drop.
  - intros Hl any. unfold reverseBytes.
    rewrite Z.shiftr_div_pow2 by lia. change (2 ^ 1) with 2.
    replace (Z.to_nat (length_ / 2)) with 0%nat; [reflexivity|].
    assert (length_ / 2 < 1) by (apply Z.div_lt_upper_bound; lia). lia.
Qed.

Lemma reverseBytes_reverses_witness :
  (0 <= 5 ->
   reverseBytes [10; 11; 12; 13; 14; 15; 16; 17] 2 5
   = Done (take (Z.to_nat 2) [10; 11; 12; 13; 14; 15; 16; 17]
           ++ reverse (take (Z.to_nat 5) (drop (Z.to_nat 2) [10; 11; 12; 13; 14; 15; 16; 17]))
           ++ drop (Z.to_nat (2 + 5)) [10; 11; 12; 13; 14; 15; 16; 17]))
  /\ (0 <= 5 ->
      (m <- reverseBytes [10; 11; 12; 13; 14; 15; 16; 17] 2 5 ;; reverseBytes m 2 5)
      = Done [10; 11; 12; 13; 14; 15; 16; 17])
  /\ (5 <= 1 -> forall any, reverseBytes any 2 5 = Done any).
Proof.
  apply (reverseBytes_reverses [10; 11; 12; 13; 14; 15; 16; 17] 2 5).
  - lia.
  - simpl. lia.
Defined.

Lemma daysOfMonth_bounds (tp : tm) : 28 <= daysOfMonth tp <= 31.
Proof.
  unfold daysOfMonth.
  destruct ((tm_mon tp =? 3) || (tm_mon tp =? 5) || (tm_mon tp =? 8) || (tm_mon tp =? 10));
    [lia|].
  destruct (tm_mon tp =? 1); [|lia].
  destruct ((Z.rem (tm_year tp) 4 =? 0)
            && (negb (Z.rem (tm_year tp) 20 =? 0) || (Z.rem (tm_year tp) 100 =? 0))); lia.
Qed.

(** Where [daysOfMonth] and the Gregorian calendar agree. *)
Lemma daysOfMonth_agrees (tp : tm) :
  0 <= tm_year tp ->
  (daysOfMonth tp = gregorianDays (1900 + tm_year tp) (tm_mon tp) <->
   tm_mon tp <> 1 \/ tm_year tp mod 20 <> 0 \/ (1900 + tm_year tp) mod 400 = 0).
Proof.
  intros Hy. unfold daysOfMonth, gregorianDays.
  rewrite !Z.rem_mod_nonneg by lia.
  set (t := tm_year tp) in *. set (mon := tm_mon tp).
  destruct ((mon =? 3) || (mon =? 5) || (mon =? 8) || (mon =? 10)) eqn:E30.
  { split; [intros _; left|reflexivity].
    intros ->. discriminate. }
  destruct (Z.eqb_spec mon 1) as [E1|E1]; [|tauto].
  destruct (Z.eqb_spec (t mod 4) 0), (Z.eqb_spec (t mod 20) 0), (Z.eqb_spec (t mod 100) 0),
           (Z.eqb_spec ((1900 + t) mod 4) 0), (Z.eqb_spec ((1900 + t) mod 100) 0),
           (Z.eqb_spec ((1900 + t) mod 400) 0);
    cbn [andb orb negb];
    (split; [intros H; try discriminate H; try (right; left; assumption); try (right; right; assumption);
             exfalso; Z.div_mod_to_equations; lia
            |intros [H|[H|H]]; try contradiction; try reflexivity;
             exfalso; Z.div_mod_to_equations; lia]).
Qed.

(** Where they differ, and which way. *)
Lemma daysOfMonth_differs (tp : tm) :
  0 <= tm_year tp -> tm_mon tp = 1 -> tm_year tp mod 20 = 0 ->
  (1900 + tm_year tp) mod 400 <> 0 ->
  if tm_year tp mod 100 =? 0
  then daysOfMonth tp = 29 /\ gregorianDays (1900 + tm_year tp) 1 = 28
  else daysOfMonth tp = 28 /\ gregorianDays (1900 + tm_year tp) 1 = 29.
Proof.
  intros Hy Hmon H20 H400. unfold daysOfMonth, gregorianDays. rewrite Hmon.
  rewrite !Z.rem_mod_nonneg by lia. cbn [Z.eqb Pos.eqb orb].
  set (t := tm_year tp) in *.
  assert (H4 : t mod 4 = 0) by (Z.div_mod_to_equations; lia).
  assert (G4 : (1900 + t) mod 4 = 0) by (Z.div_mod_to_equations; lia).
  rewrite H4, H20, G4. cbn [Z.eqb andb negb orb].
  destruct (Z.eqb_spec (t mod 100) 0) as [H100|H100].
  - assert (G100 : (1900 + t) mod 100 = 0) by (Z.div_mod_to_equations; lia).
    rewrite G100. cbn [Z.eqb negb orb].
    destruct (Z.eqb_spec ((1900 + t) mod 400) 0); [contradiction|]. now split.
  - destruct (Z.eqb_spec ((1900 + t) mod 100) 0) as [G100|G100].
    + exfalso. Z.div_mod_to_equations. lia.
    + now split.
Qed.

(** X18.  [daysOfMonth] returns between 28 and 31 for every date.  For
    years from 1900 on ([tm_year] not negative) it gives the days of the
    month of the Gregorian calendar exactly when the month is not February,
    or [tm_year] is not a multiple of 20, or the year is a multiple of 400.
    Where it differs it gives 29 days against the 28 of the calendar when
    [tm_year] is a multiple of 100, and 28 against 29 otherwise: February
    of 1900 gets 29 days, February of 1920 and of 2020 get 28. *)
Theorem daysOfMonth_gregorian (tp : tm) :
  28 <= daysOfMonth tp <= 31
  /\ (0 <= tm_year tp ->
      (daysOfMonth tp = gregorianDays (1900 + tm_year tp) (tm_mon tp) <->
       tm_mon tp <> 1 \/ tm_year tp mod 20 <> 0 \/ (1900 + tm_year tp) mod 400 = 0)
      /\ (tm_mon tp = 1 -> tm_year tp mod 20 = 0 -> (1900 + tm_year tp) mod 400 <> 0 ->
          if tm_year tp mod 100 =? 0
          then daysOfMonth tp = 29 /\ gregorianDays (1900 + tm_year tp) 1 = 28
          else daysOfMonth tp = 28 /\ gregorianDays (1900 + tm_year tp) 1 = 29))
  /\ (daysOfMonth (set_year (set_mon tp 1) 0) = 29
      /\ daysOfMonth (set_year (set_mon tp 1) 20) = 28
      /\ daysOfMonth (set_year (set_mon tp 1) 120) = 28
      /\ gregorianDays 1900 1 = 28
      /\ gregorianDays 1920 1 = 29
      /\ gregorianDays 2020 1 = 29).
Proof.
  split; [apply daysOfMonth_bounds|]. split.
  - intros Hy. split; [now apply daysOfMonth_agrees|].
    intros Hmon H20 H400. now apply daysOfMonth_differs.
  - repeat split; reflexivity.
Qed.

Lemma daysOfMonth_gregorian_witness :
  28 <= daysOfMonth {| tm_mday := 29; tm_mon := 1; tm_year := 120 |} <= 31
  /\ (0 <= 120 ->
      (daysOfMonth {| tm_mday := 29; tm_mon := 1; tm_year := 120 |}
       = gregorianDays (1900 + 120) 1 <->
       (1 : Z) <> 1 \/ 120 mod 20 <> 0 \/ (1900 + 120) mod 400 = 0)
      /\ ((1 : Z) = 1 -> 120 mod 20 = 0 -> (1900 + 120) mod 400 <> 0 ->
          if 120 mod 100 =? 0
          then daysOfMonth {| tm_mday := 29; tm_mon := 1; tm_year := 120 |} = 29
               /\ gregorianDays (1900 + 120) 1 = 28
          else daysOfMonth {| tm_mday := 29; tm_mon := 1; tm_year := 120 |} = 28
               /\ gregorianDays (1900 + 120) 1 = 29))
  /\ (daysOfMonth {| tm_mday := 29; tm_mon := 1; tm_year := 0 |} = 29
      /\ daysOfMonth {| tm_mday := 29; tm_mon := 1; tm_year := 20 |} = 28
      /\ daysOfMonth {| tm_mday := 29; tm_mon := 1; tm_year := 120 |} = 28
      /\ gregorianDays 1900 1 = 28
      /\ gregorianDays 1920 1 = 29
      /\ gregorianDays 2020 1 = 29).
Proof.
  exact (daysOfMonth_gregorian {| tm_mday := 29; tm_mon := 1; tm_year := 120 |}).
Defined.

(** * More of common.c: singly-linked lists *)

Section Lists.

Implicit Types (h : gmap Z Z) (l : list Z).

Lemma getNext_done h (a n : Z) : a <> NULL -> h !! a = Some n -> getNext h a = Done n.
Proof.
  intros Ha Hn. unfold getNext. destruct (Z.eqb_spec a NULL); [contradiction|].
  now rewrite Hn.
Qed.

Lemma setNext_done h (a n v : Z) :
  a <> NULL -> h !! a = Some n -> setNext h a v = Done (<[a := v]> h).
Proof.
  intros Ha Hn. unfold setNext. destruct (Z.eqb_spec a NULL); [contradiction|].
  now rewrite Hn.
Qed.

Lemma is_list_null h l : is_list h NULL l -> l = [].
Proof. destruct l as [|a l]; [reflexivity|]. intros (<- & Hne & _). contradiction. Qed.

Lemma is_list_nonnull h p l : is_list h p l -> p <> NULL -> exists l', l = p :: l'.
Proof.
  destruct l as [|a l]; simpl; [intros -> Hne; contradiction|].
  intros (-> & _) _. eauto.
Qed.

Lemma is_list_functional h l : forall p l', is_list h p l -> is_list h p l' -> l = l'.
Proof.
  induction l as [|a l IH]; intros p l' H H'.
  - simpl in H. subst p. symmetry. eapply is_list_null, H'.
  - destruct H as (-> & Hne & n & Hn & Hl).
    destruct (is_list_nonnull _ _ _ H' Hne) as [l'' ->].
    destruct H' as (_ & _ & n' & Hn' & Hl'). rewrite Hn in Hn'. injection Hn' as <-.
    f_equal. eapply IH; eassumption.
Qed.

Lemma is_list_not_null_in h l : forall p, is_list h p l -> NULL ∉ l.
Proof.
  induction l as [|a l IH]; intros p H; [apply not_elem_of_nil|].
  destruct H as (-> & Hne & n & Hn & Hl). apply not_elem_of_cons. split; [congruence|].
  eapply IH, Hl.
Qed.

(** The list that starts at a node of a list is a suffix of it. *)
Lemma is_list_from_member h l : forall p a,
  is_list h p l -> a ∈ l -> exists l1 l2, l = l1 ++ a :: l2 /\ is_list h a (a :: l2).
Proof.
  induction l as [|b l IH]; intros p a H Ha; [now apply elem_of_nil in Ha|].
  pose proof H as (-> & Hne & n & Hn & Hl).
  apply elem_of_cons in Ha as [->|Ha].
  - exists [], l. split; [reflexivity|exact H].
  - destruct (IH n a Hl Ha) as (l1 & l2 & -> & H2).
    exists (b :: l1), l2. split; [reflexivity|exact H2].
Qed.

Lemma is_list_NoDup h l : forall p, is_list h p l -> NoDup l.
Proof.
  induction l as [|a l IH]; intros p H; [constructor|].
  pose proof H as (-> & Hne & n & Hn & Hl). constructor; [|eapply IH, Hl].
  intros Hin. destruct (is_list_from_member h l n a Hl Hin) as (l1 & l2 & E & H2).
  pose proof (is_list_functional h _ _ _ H H2) as Eq. injection Eq as Eq.
  apply (f_equal length) in Eq. rewrite E, length_app in Eq. simpl in Eq. lia.
Qed.

Lemma is_list_frame h l (a v : Z) : forall p,
  is_list h p l -> a ∉ l -> is_list (<[a := v]> h) p l.
Proof.
  induction l as [|b l IH]; intros p H Ha; [exact H|].
  destruct H as (-> & Hne & n & Hn & Hl). apply not_elem_of_cons in Ha as [Hab Ha].
  split; [reflexivity|]. split; [exact Hne|]. exists n. split; [|now apply IH].
  rewrite lookup_insert_ne by congruence. exact Hn.
Qed.

(** Linking the last node of one list to the head of another. *)
Lemma is_list_link h l (e : Z) lb (b : Z) : forall p,
  is_list h p (l ++ [e]) -> is_list h b lb ->
  (forall x, x ∈ l ++ [e] -> x ∉ lb) ->
  is_list (<[e := b]> h) p (l ++ e :: lb).
Proof.
  induction l as [|a l IH]; intros p H Hb Hdis.
  - destruct H as (-> & Hne & n & Hn & Hl). simpl.
    split; [reflexivity|]. split; [exact Hne|]. exists b.
    split; [apply lookup_insert_eq|]. apply is_list_frame; [exact Hb|].
    apply Hdis. set_solver.
  - pose proof (is_list_NoDup _ _ _ H) as Hnd.
    destruct H as (-> & Hne & n & Hn & Hl). simpl.
    split; [reflexivity|]. split; [exact Hne|]. exists n. split.
    + rewrite lookup_insert_ne; [exact Hn|]. simpl in Hnd.
      apply NoDup_cons in Hnd as [Hnot _]. intros ->. apply Hnot. set_solver.
    + apply IH; [exact Hl|exact Hb|]. intros x Hx. apply Hdis. set_solver.
Qed.

Lemma slCount_loop_spec h l (fuel : nat) : forall (p len : Z),
  is_list h p l -> 0 <= len -> len + Z.of_nat (length l) <= INT_MAX ->
  (length l < fuel)%nat ->
  slCount_loop fuel h p len = Done (len + Z.of_nat (length l)).
Proof.
  revert fuel. induction l as [|a l IH]; intros fuel p len H Hlen Hmax Hfuel;
    (destruct fuel as [|fuel]; [lia|]); cbn [slCount_loop].
  - simpl in H. subst p. simpl. now rewrite Z.add_0_r.
  - destruct H as (-> & Hne & n & Hn & Hl).
    destruct (Z.eqb_spec a NULL); [contradiction|].
    rewrite (getNext_done h a n) by assumption. cbn [bind].
    cbn [length] in *. unfold INT_MAX in *.
    rewrite to_int_id by (unfold is_int, INT_MIN, INT_MAX; lia).
    rewrite (IH fuel n (len + 1)); try assumption; try lia. f_equal. lia.
Qed.

Lemma slElementFromIx_loop_spec h (n : nat) : forall l (p : Z),
  is_list h p l -> slElementFromIx_loop n h p = Done (default NULL (l !! n)).
Proof.
  induction n as [|n IH]; intros l p H; cbn [slElementFromIx_loop].
  - destruct l as [|a l]; simpl in *; [now subst|]. destruct H as (-> & _). reflexivity.
  - destruct l as [|a l]; simpl in H.
    + subst p. reflexivity.
    + destruct H as (-> & Hne & nx & Hn & Hl).
      destruct (Z.eqb_spec a NULL); [contradiction|].
      rewrite (getNext_done h a nx) by assumption. cbn [bind]. now apply IH.
Qed.

Lemma slIxFromElement_loop_spec h l (el : Z) (fuel : nat) : forall (p ix : Z),
  is_list h p l -> 0 <= ix -> ix + Z.of_nat (length l) <= INT_MAX ->
  (length l < fuel)%nat ->
  (forall i : nat, l !! i = Some el ->
     slIxFromElement_loop fuel h p el ix = Done (ix + Z.of_nat i))
  /\ (el ∉ l -> slIxFromElement_loop fuel h p el ix = Done (-1)).
Proof.
  revert fuel. induction l as [|a l IH]; intros fuel p ix H Hix Hmax Hfuel;
    (destruct fuel as [|fuel]; [lia|]); cbn [slIxFromElement_loop].
  - simpl in H. subst p. simpl. split; [intros i Hi; discriminate|reflexivity].
  - pose proof (is_list_NoDup _ _ _ H) as Hnd.
    destruct H as (-> & Hne & n & Hn & Hl).
    destruct (Z.eqb_spec a NULL); [contradiction|].
    cbn [length] in *. unfold INT_MAX in *.
    destruct (IH fuel n (ix + 1) Hl) as [Hfound Hnot]; try lia.
    apply NoDup_cons in Hnd as [Ha Hnd].
    destruct (Z.eqb_spec el a) as [->|Hel].
    + split.
      * intros [|i] Hi; [f_equal; lia|]. simpl in Hi.
        apply list_elem_of_lookup_2 in Hi. contradiction.
      * intros Hin. exfalso. apply Hin. set_solver.
    + rewrite (getNext_done h a n) by assumption. cbn [bind].
      rewrite to_int_id by (unfold is_int, INT_MIN, INT_MAX; lia). split.
      * intros [|i] Hi; simpl in Hi; [congruence|].
        rewrite (Hfound i Hi). f_equal. lia.
      * intros Hin. apply Hnot. set_solver.
Qed.

Lemma last_walk_spec h l (fuel : nat) : forall (a : Z),
  is_list h a (a :: l) -> (length l < fuel)%nat ->
  slLastEl_loop fuel h a = Done (default NULL (last (a :: l)))
  /\ slCat_loop fuel h a = Done (default NULL (last (a :: l))).
Proof.
  revert fuel. induction l as [|b l IH]; intros fuel a H Hfuel;
    (destruct fuel as [|fuel]; [lia|]); cbn [slLastEl_loop slCat_loop];
    destruct H as (_ & Hne & n & Hn & Hl);
    rewrite (getNext_done h a n) by assumption; cbn [bind].
  - simpl in Hl. subst n. split; reflexivity.
  - pose proof Hl as (-> & Hb & _). destruct (Z.eqb_spec b NULL); [contradiction|].
    cbn [length] in Hfuel. rewrite last_cons_cons. apply IH; [exact Hl|lia].
Qed.

Lemma slAddTail_loop_spec h (list : Z) l (fuel : nat) : forall (ppt : slot) (q : Z),
  readSlot h list ppt = Done q -> is_list h q l -> (length l < fuel)%nat ->
  slAddTail_loop fuel h list ppt
  = Done (match last l with Some e => NextOf e | None => ppt end).
Proof.
  revert fuel. induction l as [|a l IH]; intros fuel ppt q Hq H Hfuel;
    (destruct fuel as [|fuel]; [lia|]); cbn [slAddTail_loop]; rewrite Hq; cbn [bind].
  - simpl in H. subst q. reflexivity.
  - destruct H as (-> & Hne & n & Hn & Hl).
    destruct (Z.eqb_spec a NULL); [contradiction|].
    cbn [length] in Hfuel.
    rewrite (IH fuel (NextOf a) n); [| |exact Hl|lia].
    + rewrite (last_cons a l). destruct (last l); reflexivity.
    + cbn [readSlot]. now apply getNext_done.
Qed.

Lemma slReverse_loop_spec h0 (all : list Z) l2 (fuel : nat) :
  forall h l1 (next newList : Z),
  is_list h next l2 -> is_list h newList l1 ->
  (forall x, x ∈ l2 -> x ∉ l1) ->
  (forall x, x ∈ l2 -> x ∈ all) ->
  (forall x, x ∉ all -> h !! x = h0 !! x) ->
  (length l2 < fuel)%nat ->
  exists h' q, slReverse_loop fuel h next newList = Done (h', q)
    /\ is_list h' q (reverse l2 ++ l1)
    /\ forall x, x ∉ all -> h' !! x = h0 !! x.
Proof.
  revert fuel.
  induction l2 as [|a l2 IH]; intros fuel h l1 next newList H2 H1 Hdis Hsub Hfr Hfuel;
    (destruct fuel as [|fuel]; [lia|]); cbn [slReverse_loop].
  - simpl in H2. subst next. simpl. exists h, newList. auto.
  - pose proof (is_list_NoDup _ _ _ H2) as Hnd. apply NoDup_cons in Hnd as [Ha Hnd].
    destruct H2 as (-> & Hne & n & Hn & Hl).
    destruct (Z.eqb_spec a NULL); [contradiction|].
    rewrite (getNext_done h a n) by assumption. cbn [bind].
    rewrite (setNext_done h a n) by assumption. cbn [bind]. cbn [length] in Hfuel.
    destruct (IH fuel (<[a := newList]> h) (a :: l1) n a) as (h' & q & E & L & F).
    + now apply is_list_frame.
    + split; [reflexivity|]. split; [exact Hne|]. exists newList.
      split; [apply lookup_insert_eq|]. apply is_list_frame; [exact H1|].
      apply Hdis. set_solver.
    + intros x Hx. apply not_elem_of_cons. split; [intros ->; contradiction|].
      apply Hdis. set_solver.
    + intros x Hx. apply Hsub. set_solver.
    + intros x Hx. rewrite lookup_insert_ne; [now apply Hfr|].
      intros <-. apply Hx, Hsub. set_solver.
    + lia.
    + exists h', q. split; [exact E|]. split; [|exact F].
      rewrite reverse_cons, <- app_assoc. exact L.
Qed.

Lemma is_list_member h l : forall p a,
  is_list h p l -> a ∈ l -> a <> NULL /\ exists n, h !! a = Some n.
Proof.
  intros p a H Ha. destruct (is_list_from_member h l p a H Ha) as (l1 & l2 & _ & H2).
  destruct H2 as (_ & Hne & n & Hn & _). eauto.
Qed.

Lemma is_list_head h l p : is_list h p l -> p = default NULL (head l).
Proof. destruct l as [|a l]; simpl; [auto|]. now intros (-> & _). Qed.

(** The [next] field of the node at position [i] is the node at [i+1]. *)
Lemma is_list_next h l : forall p (i : nat) a,
  is_list h p l -> l !! i = Some a -> h !! a = Some (default NULL (l !! S i)).
Proof.
  induction l as [|b l IH]; intros p i a H Hi; [discriminate|].
  destruct H as (-> & Hne & n & Hn & Hl). destruct i as [|i]; simpl in Hi.
  - injection Hi as <-. rewrite Hn. f_equal. simpl.
    now rewrite (is_list_head _ _ _ Hl), head_lookup.
  - simpl. eapply IH; eassumption.
Qed.

(** Two heaps that hold the same list and agree elsewhere are equal. *)
Lemma same_list_same_heap h h' l p p' :
  is_list h p l -> is_list h' p' l ->
  (forall x, x ∉ l -> h' !! x = h !! x) -> h' = h /\ p' = p.
Proof.
  intros H H' Hfr. split.
  - apply map_eq. intros x. destruct (decide (x ∈ l)) as [Hx|Hx]; [|now apply Hfr].
    apply list_elem_of_lookup in Hx as [i Hi].
    now rewrite (is_list_next h' l p' i x H' Hi), (is_list_next h l p i x H Hi).
  - now rewrite (is_list_head _ _ _ H), (is_list_head _ _ _ H').
Qed.

End Lists.

(** X19.  On a heap that holds a list at [list], [slCount] returns the
    number of its nodes and [slLastEl] its last node, NULL for the empty
    list. *)
Theorem slCount_slLastEl (fuel : nat) (h : gmap Z Z) (l : list Z) (list : Z) :
  is_list h list l -> Z.of_nat (length l) <= INT_MAX -> (length l < fuel)%nat ->
  slCount fuel h list = Done (Z.of_nat (length l))
  /\ slLastEl fuel h list = Done (default NULL (last l)).
Proof.
  intros H Hmax Hfuel. split.
  - unfold slCount. rewrite (slCount_loop_spec h l fuel list 0 H); [reflexivity|lia|lia|exact Hfuel].
  - unfold slLastEl. destruct l as [|a l].
    + simpl in H. subst list. reflexivity.
    + pose proof H as (-> & Hne & _). destruct (Z.eqb_spec a NULL); [contradiction|].
      apply last_walk_spec; [exact H|]. simpl in Hfuel. lia.
Qed.

Lemma slCount_slLastEl_witness :
  slCount 4 (<[10 := 30]> (<[30 := 20]> (<[20 := 0]> ∅))) 10
  = Done (Z.of_nat (length [10; 30; 20]))
  /\ slLastEl 4 (<[10 := 30]> (<[30 := 20]> (<[20 := 0]> ∅))) 10
     = Done (default NULL (last [10; 30; 20])).
Proof.
  apply (slCount_slLastEl 4 (<[10 := 30]> (<[30 := 20]> (<[20 := 0]> ∅))) [10; 30; 20] 10).
  - vm_compute. repeat split; try discriminate; eexists; (split; [reflexivity|]);
      repeat split; try discriminate; eexists; (split; [reflexivity|]);
      repeat split; try discriminate; eexists; (split; [reflexivity|]); reflexivity.
  - unfold INT_MAX. simpl. lia.
  - simpl. lia.
Defined.

(** Decides [is_list] on a heap and a list given in full. *)
Ltac solve_is_list :=
  vm_compute;
  repeat first [reflexivity | discriminate | split | eexists].

(** X20.  On a heap that holds a list, [slElementFromIx] returns the node
    at index [ix], NULL beyond the end, and the first node for a negative
    index; [slIxFromElement] of the node found at an index inside the list
    returns that index, and of an address that is no node of the list it
    returns -1. *)
Theorem slElementFromIx_slIxFromElement (fuel : nat) (h : gmap Z Z) (l : list Z) (list : Z) :
  is_list h list l -> Z.of_nat (length l) <= INT_MAX -> (length l < fuel)%nat ->
  (forall ix, slElementFromIx h list ix = Done (default NULL (l !! Z.to_nat ix)))
  /\ (forall ix, 0 <= ix < Z.of_nat (length l) ->
        (el <- slElementFromIx h list ix ;; slIxFromElement fuel h list el) = Done ix)
  /\ (forall el, el ∉ l -> slIxFromElement fuel h list el = Done (-1)).
Proof.
  intros H Hmax Hfuel.
  assert (Hel : forall ix, slElementFromIx h list ix = Done (default NULL (l !! Z.to_nat ix))).
  { intros ix. unfold slElementFromIx. now apply slElementFromIx_loop_spec. }
  split; [exact Hel|]. split.
  - intros ix Hix. rewrite Hel. cbn [bind].
    destruct (lookup_lt_is_Some_2 l (Z.to_nat ix) ltac:(lia)) as [el Hi].
    rewrite Hi. change (default NULL (Some el)) with el. unfold slIxFromElement.
    destruct (slIxFromElement_loop_spec h l el fuel list 0 H) as [Hfound _]; try lia.
    rewrite (Hfound _ Hi). f_equal. lia.
  - intros el Hnot. unfold slIxFromElement.
    destruct (slIxFromElement_loop_spec h l el fuel list 0 H) as [_ Hnone]; try lia.
    now apply Hnone.
Qed.

Lemma slElementFromIx_slIxFromElement_witness :
  (forall ix, slElementFromIx (<[10 := 30]> (<[30 := 20]> (<[20 := 0]> ∅))) 10 ix
              = Done (default NULL ([10; 30; 20] !! Z.to_nat ix)))
  /\ (forall ix, 0 <= ix < Z.of_nat (length [10; 30; 20]) ->
        (el <- slElementFromIx (<[10 := 30]> (<[30 := 20]> (<[20 := 0]> ∅))) 10 ix ;;
         slIxFromElement 4 (<[10 := 30]> (<[30 := 20]> (<[20 := 0]> ∅))) 10 el) = Done ix)
  /\ (forall el, el ∉ [10; 30; 20] ->
        slIxFromElement 4 (<[10 := 30]> (<[30 := 20]> (<[20 := 0]> ∅))) 10 el = Done (-1)).
Proof.
  apply (slElementFromIx_slIxFromElement 4
           (<[10 := 30]> (<[30 := 20]> (<[20 := 0]> ∅))) [10; 30; 20] 10).
  - solve_is_list.
  - unfold INT_MAX. simpl. lia.
  - simpl. lia.
Defined.

(** X21.  [slReverse] of a list leaves the heap holding the same nodes in
    reverse order, with every other node untouched; reversing twice gives
    back the heap and the list pointer it started from. *)
Theorem slReverse_reverses (fuel : nat) (h : gmap Z Z) (l : list Z) (list : Z) :
  is_list h list l -> (length l < fuel)%nat ->
  (exists h' list', slReverse fuel h list = Done (h', list')
     /\ is_list h' list' (reverse l)
     /\ forall x, x ∉ l -> h' !! x = h !! x)
  /\ (r <- slReverse fuel h list ;; slReverse fuel (fst r) (snd r)) = Done (h, list).
Proof.
  intros H Hfuel.
  assert (Step : forall h1 p1 l1, is_list h1 p1 l1 -> (length l1 < fuel)%nat ->
            exists h' q, slReverse fuel h1 p1 = Done (h', q)
              /\ is_list h' q (reverse l1)
              /\ forall x, x ∉ l1 -> h' !! x = h1 !! x).
  { intros h1 p1 l1 H1 Hf. unfold slReverse.
    destruct (slReverse_loop_spec h1 l1 l1 fuel h1 [] p1 NULL) as (h' & q & E & L & F);
      auto; [reflexivity|intros x _; apply not_elem_of_nil|].
    rewrite app_nil_r in L. eauto. }
  destruct (Step h list l H Hfuel) as (h1 & p1 & E1 & L1 & F1).
  split; [eauto|]. rewrite E1. cbn [bind fst snd].
  destruct (Step h1 p1 (reverse l) L1) as (h2 & p2 & E2 & L2 & F2);
    [now rewrite length_reverse|].
  rewrite E2. rewrite reverse_involutive in L2.
  destruct (same_list_same_heap h h2 l list p2 H L2) as [-> ->]; [|reflexivity].
  intros x Hx. rewrite F2 by (now rewrite elem_of_reverse). now apply F1.
Qed.

Lemma slReverse_reverses_witness :
  (exists h' list',
     slReverse 4 (<[10 := 30]> (<[30 := 20]> (<[20 := 0]> ∅))) 10 = Done (h', list')
     /\ is_list h' list' (reverse [10; 30; 20])
     /\ forall x, x ∉ [10; 30; 20] ->
          h' !! x = (<[10 := 30]> (<[30 := 20]> (<[20 := 0]> ∅)) : gmap Z Z) !! x)
  /\ (r <- slReverse 4 (<[10 := 30]> (<[30 := 20]> (<[20 := 0]> ∅))) 10 ;;
      slReverse 4 (fst r) (snd r))
     = Done (<[10 := 30]> (<[30 := 20]> (<[20 := 0]> ∅)), 10).
Proof.
  apply (slReverse_reverses 4 (<[10 := 30]> (<[30 := 20]> (<[20 := 0]> ∅))) [10; 30; 20] 10).
  - solve_is_list.
  - simpl. lia.
Defined.

(** X22.  [slCat a b] of two lists with no node in common returns a list of
    the nodes of [a] followed by those of [b]; only the last node of [a] is
    written, and with [a] empty the result is [b] and nothing is written. *)
Theorem slCat_appends (fuel : nat) (h : gmap Z Z) (la lb : list Z) (a b : Z) :
  is_list h a la -> is_list h b lb -> (forall x, x ∈ la -> x ∉ lb) ->
  (length la < fuel)%nat ->
  exists h' ab, slCat fuel h a b = Done (h', ab)
    /\ is_list h' ab (la ++ lb)
    /\ (forall x, last la <> Some x -> h' !! x = h !! x)
    /\ (la = [] -> h' = h /\ ab = b).
Proof.
  intros Ha Hb Hdis Hfuel. unfold slCat. destruct la as [|x la].
  - simpl in Ha. subst a. cbn. exists h, b. auto.
  - pose proof Ha as (-> & Hne & _). destruct (Z.eqb_spec x NULL); [contradiction|].
    destruct (last_walk_spec h la fuel x Ha) as [_ ->]; [simpl in Hfuel; lia|].
    cbn [bind].
    destruct (last (x :: la)) as [e|] eqn:El; [|now apply last_None in El].
    change (default NULL (Some e)) with e. pose proof El as Hl'. apply last_Some in Hl' as [l' El'].
    assert (He : e ∈ x :: la) by (rewrite El'; set_solver).
    destruct (is_list_member h _ _ e Ha He) as (Hen & nx & Hn).
    rewrite (setNext_done h e nx) by assumption. cbn [bind].
    exists (<[e := b]> h), x. split; [reflexivity|]. split; [|split].
    + rewrite El', <- app_assoc. simpl. apply is_list_link; [|exact Hb|].
      * rewrite <- El'. exact Ha.
      * intros y Hy. apply Hdis. now rewrite El'.
    + intros y Hy. rewrite lookup_insert_ne; [reflexivity|]. congruence.
    + discriminate.
Qed.

Lemma slCat_appends_witness :
  exists h' ab,
    slCat 3 (<[10 := 30]> (<[30 := 0]> (<[20 := 40]> (<[40 := 0]> ∅)))) 10 20
    = Done (h', ab)
    /\ is_list h' ab ([10; 30] ++ [20; 40])
    /\ (forall x, last [10; 30] <> Some x ->
          h' !! x
          = (<[10 := 30]> (<[30 := 0]> (<[20 := 40]> (<[40 := 0]> ∅))) : gmap Z Z) !! x)
    /\ ([10; 30] = [] ->
        h' = <[10 := 30]> (<[30 := 0]> (<[20 := 40]> (<[40 := 0]> ∅))) /\ ab = 20).
Proof.
  apply (slCat_appends 3 (<[10 := 30]> (<[30 := 0]> (<[20 := 40]> (<[40 := 0]> ∅))))
           [10; 30] [20; 40] 10 20).
  - solve_is_list.
  - solve_is_list.
  - intros x Hx Hy. apply elem_of_cons in Hx as [->|Hx];
      [|apply elem_of_cons in Hx as [->|Hx]; [|now apply elem_of_nil in Hx]];
      (apply elem_of_cons in Hy as [Hy|Hy]; [discriminate|]);
      (apply elem_of_cons in Hy as [Hy|Hy]; [discriminate|]); now apply elem_of_nil in Hy.
  - simpl. lia.
Defined.

Section ListsMore.

Implicit Types (h : gmap Z Z) (l : list Z).

Lemma slReverse_spec (fuel : nat) h l (p : Z) :
  is_list h p l -> (length l < fuel)%nat ->
  exists h' q, slReverse fuel h p = Done (h', q)
    /\ is_list h' q (reverse l)
    /\ forall x, x ∉ l -> h' !! x = h !! x.
Proof.
  intros H Hf. unfold slReverse.
  destruct (slReverse_loop_spec h l l fuel h [] p NULL) as (h' & q & E & L & F);
    auto; [reflexivity|intros x _; apply not_elem_of_nil|].
  rewrite app_nil_r in L. eauto.
Qed.

Lemma kept_length (toRemove : Z) l :
  (length (List.filter (fun x => negb (x =? toRemove)%Z) l) <= length l)%nat.
Proof.
  induction l as [|a l IH]; simpl; [lia|].
  destruct (negb (a =? toRemove)); simpl; lia.
Qed.

Lemma kept_elem (toRemove x : Z) l :
  x ∈ List.filter (fun y => negb (y =? toRemove)) l -> x ∈ l.
Proof.
  rewrite !list_elem_of_In. intros H. now apply filter_In in H as [H _].
Qed.

Lemma slRemoveEl_loop_spec h0 (all : list Z) (toRemove : Z) l2 (fuel : nat) :
  forall h acc (el newList didRemove : Z),
  is_list h el l2 -> is_list h newList acc ->
  (forall x, x ∈ l2 -> x ∉ acc) ->
  (forall x, x ∈ l2 -> x ∈ all) ->
  (forall x, x ∉ all -> h !! x = h0 !! x) ->
  (length l2 < fuel)%nat ->
  exists h' q d,
    slRemoveEl_loop fuel h el toRemove newList didRemove = Done (h', q, d)
    /\ is_list h' q (reverse (List.filter (fun x => negb (x =? toRemove)) l2) ++ acc)
    /\ (toRemove ∈ l2 -> d = TRUE) /\ (toRemove ∉ l2 -> d = didRemove)
    /\ forall x, x ∉ all -> h' !! x = h0 !! x.
Proof.
  revert fuel.
  induction l2 as [|a l2 IH];
    intros fuel h acc el newList didRemove H2 H1 Hdis Hsub Hfr Hfuel;
    (destruct fuel as [|fuel]; [lia|]); cbn [slRemoveEl_loop].
  - simpl in H2. subst el. simpl. exists h, newList, didRemove.
    split; [reflexivity|]. split; [exact H1|]. split; [|auto].
    intros Hin. now apply elem_of_nil in Hin.
  - pose proof (is_list_NoDup _ _ _ H2) as Hnd. apply NoDup_cons in Hnd as [Ha Hnd].
    destruct H2 as (-> & Hne & n & Hn & Hl).
    destruct (Z.eqb_spec a NULL); [contradiction|].
    rewrite (getNext_done h a n) by assumption. cbn [bind]. cbn [length] in Hfuel.
    cbn [List.filter]. destruct (Z.eqb_spec a toRemove) as [Eq|Neq]; cbn [negb].
    + destruct (IH fuel h acc n newList TRUE) as (h' & q & d & E & L & D1 & D2 & F);
        try assumption; try lia.
      * intros x Hx. apply Hdis. set_solver.
      * intros x Hx. apply Hsub. set_solver.
      * exists h', q, d. split; [exact E|]. split; [exact L|]. split; [|split; [|exact F]].
        -- intros _. destruct (decide (toRemove ∈ l2)); auto.
        -- intros Hnot. exfalso. apply Hnot. subst a. set_solver.
    + unfold slAddHead. rewrite (setNext_done h a n) by assumption. cbn [bind fst snd].
      destruct (IH fuel (<[a := newList]> h) (a :: acc) n a didRemove)
        as (h' & q & d & E & L & D1 & D2 & F); try lia.
      * now apply is_list_frame.
      * split; [reflexivity|]. split; [exact Hne|]. exists newList.
        split; [apply lookup_insert_eq|]. apply is_list_frame; [exact H1|].
        apply Hdis. set_solver.
      * intros x Hx. apply not_elem_of_cons. split; [intros ->; contradiction|].
        apply Hdis. set_solver.
      * intros x Hx. apply Hsub. set_solver.
      * intros x Hx. rewrite lookup_insert_ne; [now apply Hfr|].
        intros <-. apply Hx, Hsub. set_solver.
      * exists h', q, d. split; [exact E|]. split; [|split; [|split; [|exact F]]].
        -- rewrite reverse_cons, <- app_assoc. exact L.
        -- intros Hin. apply D1. apply elem_of_cons in Hin as [->|Hin]; [contradiction|exact Hin].
        -- intros Hnot. apply D2. set_solver.
Qed.

End ListsMore.

(** X23.  [slAddTail] of an allocated node that is not on the list makes it
    the last node: the list afterwards is the old one followed by the
    node; only the node and the old last node are written. *)
Theorem slAddTail_appends (fuel : nat) (h : gmap Z Z) (l : list Z) (list node : Z) :
  is_list h list l -> node <> NULL -> is_Some (h !! node) -> node ∉ l ->
  (length l < fuel)%nat ->
  exists h' list', slAddTail fuel h list node = Done (h', list')
    /\ is_list h' list' (l ++ [node])
    /\ forall x, x <> node -> last l <> Some x -> h' !! x = h !! x.
Proof.
  intros H Hne [n0 Hn0] Hnot Hfuel. unfold slAddTail.
  rewrite (slAddTail_loop_spec h list l fuel ListVar list); [|reflexivity|exact H|exact Hfuel].
  cbn [bind]. rewrite (setNext_done h node n0) by assumption. cbn [bind].
  assert (Hnode : is_list (<[node := NULL]> h) node [node]).
  { split; [reflexivity|]. split; [exact Hne|]. exists NULL.
    split; [apply lookup_insert_eq|reflexivity]. }
  destruct (last l) as [e|] eqn:El.
  - pose proof El as Hl'. apply last_Some in Hl' as [l' El'].
    assert (He : e ∈ l) by (rewrite El'; set_solver).
    destruct (is_list_member h _ _ e H He) as (Hen & nx & Hnx).
    assert (Hen' : e <> node) by (intros ->; contradiction).
    cbn [writeSlot].
    rewrite (setNext_done _ e nx) by (try assumption; now rewrite lookup_insert_ne).
    cbn [bind]. do 2 eexists. split; [reflexivity|]. split.
    + rewrite El', <- app_assoc. simpl. apply is_list_link; [|exact Hnode|].
      * rewrite <- El'. now apply is_list_frame.
      * intros y Hy Hy'. apply list_elem_of_singleton in Hy'. subst y.
        apply Hnot. now rewrite El'.
    + intros x Hx Hlast. rewrite !lookup_insert_ne by congruence. reflexivity.
  - apply last_None in El. subst l. cbn [writeSlot].
    do 2 eexists. split; [reflexivity|]. split; [exact Hnode|].
    intros x Hx _. now rewrite lookup_insert_ne.
Qed.

Lemma slAddTail_appends_witness :
  exists h' list',
    slAddTail 3 (<[10 := 30]> (<[30 := 0]> (<[20 := 40]> ∅))) 10 20 = Done (h', list')
    /\ is_list h' list' ([10; 30] ++ [20])
    /\ forall x, x <> 20 -> last [10; 30] <> Some x ->
         h' !! x = (<[10 := 30]> (<[30 := 0]> (<[20 := 40]> ∅)) : gmap Z Z) !! x.
Proof.
  apply (slAddTail_appends 3 (<[10 := 30]> (<[30 := 0]> (<[20 := 40]> ∅))) [10; 30] 10 20).
  - solve_is_list.
  - discriminate.
  - eexists. reflexivity.
  - intros Hin. apply elem_of_cons in Hin as [Hin|Hin]; [discriminate|].
    apply elem_of_cons in Hin as [Hin|Hin]; [discriminate|]. now apply elem_of_nil in Hin.
  - simpl. lia.
Defined.

(** X24.  [slPopHead] returns the first node of the list and leaves the
    list variable at the rest of the list; the node it returns is cut off
    (its [next] is NULL) and no other node is written.  On the empty list it
    returns NULL and changes nothing. *)
Theorem slPopHead_pops (h : gmap Z Z) (l : list Z) (list : Z) :
  is_list h list l ->
  exists h' list' el, slPopHead h list = Done (h', list', el)
    /\ el = default NULL (head l)
    /\ is_list h' list' (tail l)
    /\ (forall x, x <> el -> h' !! x = h !! x)
    /\ (l <> [] -> is_list h' el [el])
    /\ (l = [] -> h' = h).
Proof.
  intros H. unfold slPopHead. destruct l as [|a l].
  - simpl in H. subst list. cbn. exists h, NULL, NULL. repeat split; auto. congruence.
  - pose proof (is_list_NoDup _ _ _ H) as Hnd. apply NoDup_cons in Hnd as [Ha _].
    destruct H as (-> & Hne & n & Hn & Hl).
    destruct (Z.eqb_spec a NULL); [contradiction|].
    rewrite (getNext_done h a n) by assumption. cbn [bind].
    rewrite (setNext_done h a n) by assumption. cbn [bind].
    do 3 eexists. split; [reflexivity|]. split; [reflexivity|]. split; [|split; [|split]].
    + simpl. now apply is_list_frame.
    + intros x Hx. now rewrite lookup_insert_ne.
    + intros _. split; [reflexivity|]. split; [exact Hne|]. exists NULL.
      split; [apply lookup_insert_eq|reflexivity].
    + discriminate.
Qed.

Lemma slPopHead_pops_witness :
  exists h' list' el,
    slPopHead (<[10 := 30]> (<[30 := 20]> (<[20 := 0]> ∅))) 10 = Done (h', list', el)
    /\ el = default NULL (head [10; 30; 20])
    /\ is_list h' list' (tail [10; 30; 20])
    /\ (forall x, x <> el ->
          h' !! x = (<[10 := 30]> (<[30 := 20]> (<[20 := 0]> ∅)) : gmap Z Z) !! x)
    /\ ([10; 30; 20] <> [] -> is_list h' el [el])
    /\ ([10; 30; 20] = [] -> h' = <[10 := 30]> (<[30 := 20]> (<[20 := 0]> ∅))).
Proof.
  apply (slPopHead_pops (<[10 := 30]> (<[30 := 20]> (<[20 := 0]> ∅))) [10; 30; 20] 10).
  solve_is_list.
Defined.

(** X25.  [slRemoveEl] leaves the list with its nodes in their old order
    and without the node [toRemove]; it returns TRUE exactly when that node
    was on the list, and writes no node outside the list. *)
Theorem slRemoveEl_removes (fuel : nat) (h : gmap Z Z) (l : list Z) (list toRemove : Z) :
  is_list h list l -> (length l < fuel)%nat ->
  exists h' list' didRemove,
    slRemoveEl fuel h list toRemove = Done (h', list', didRemove)
    /\ is_list h' list' (List.filter (fun x => negb (x =? toRemove)) l)
    /\ (didRemove = TRUE <-> toRemove ∈ l)
    /\ (didRemove = FALSE <-> toRemove ∉ l)
    /\ forall x, x ∉ l -> h' !! x = h !! x.
Proof.
  intros H Hfuel. unfold slRemoveEl.
  destruct (slRemoveEl_loop_spec h l toRemove l fuel h [] list NULL FALSE)
    as (h1 & q1 & d & E1 & L1 & D1 & D2 & F1); auto;
    [reflexivity|intros x _; apply not_elem_of_nil|].
  rewrite E1. cbn [bind]. rewrite app_nil_r in L1.
  destruct (slReverse_spec fuel h1 _ q1 L1) as (h2 & q2 & E2 & L2 & F2).
  { rewrite length_reverse. pose proof (kept_length toRemove l). lia. }
  rewrite E2. cbn [bind fst snd]. rewrite reverse_involutive in L2.
  exists h2, q2, d. split; [reflexivity|]. split; [exact L2|].
  split; [|split].
  - split; [|exact D1]. intros Hd. destruct (decide (toRemove ∈ l)) as [|Hn]; [assumption|].
    rewrite (D2 Hn) in Hd. discriminate.
  - split; [|exact D2]. intros Hd Hin. rewrite (D1 Hin) in Hd. discriminate.
  - intros x Hx. rewrite F2; [now apply F1|].
    rewrite elem_of_reverse. intros Hk. apply Hx. eapply kept_elem, Hk.
Qed.

Lemma slRemoveEl_removes_witness :
  exists h' list' didRemove,
    slRemoveEl 4 (<[10 := 30]> (<[30 := 20]> (<[20 := 0]> ∅))) 10 30
    = Done (h', list', didRemove)
    /\ is_list h' list' (List.filter (fun x => negb (x =? 30)) [10; 30; 20])
    /\ (didRemove = TRUE <-> 30 ∈ [10; 30; 20])
    /\ (didRemove = FALSE <-> 30 ∉ [10; 30; 20])
    /\ forall x, x ∉ [10; 30; 20] ->
         h' !! x = (<[10 := 30]> (<[30 := 20]> (<[20 := 0]> ∅)) : gmap Z Z) !! x.
Proof.
  apply (slRemoveEl_removes 4 (<[10 := 30]> (<[30 := 20]> (<[20 := 0]> ∅))) [10; 30; 20] 10 30).
  - solve_is_list.
  - simpl. lia.
Defined.

(** * More of common.c: strings *)

Section Strings.

Implicit Types (mem str : list Z).

Lemma holds_string_nil mem p : holds_string mem p [] -> load mem p = Done 0.
Proof.
  intros (Hp & _ & _ & H0). simpl in H0. rewrite Nat.add_0_r in H0.
  now apply load_done.
Qed.

Lemma holds_string_cons mem p (c : Z) str :
  holds_string mem p (c :: str) ->
  load mem p = Done c /\ c <> 0 /\ holds_string mem (p + 1) str.
Proof.
  intros (Hp & Hnz & Hk & H0). apply Forall_cons in Hnz as [Hc Hnz].
  split; [|split; [exact Hc|]].
  - apply load_done; [exact Hp|]. specialize (Hk 0%nat ltac:(simpl; lia)).
    now rewrite Nat.add_0_r in Hk.
  - split; [lia|]. split; [exact Hnz|]. split.
    + intros k Hlt. specialize (Hk (S k) ltac:(simpl; lia)).
      replace (Z.to_nat (p + 1) + k)%nat with (Z.to_nat p + S k)%nat by lia. exact Hk.
    + replace (Z.to_nat (p + 1) + length str)%nat
        with (Z.to_nat p + length (c :: str))%nat by (simpl; lia).
      exact H0.
Qed.

Lemma startsWith_loop_spec mem (start string : Z) s (fuel : nat) : forall t (i : Z),
  holds_string mem (start + i) s -> holds_string mem (string + i) t ->
  0 <= i -> i + Z.of_nat (length s) <= INT_MAX -> (length s < fuel)%nat ->
  startsWith_loop fuel mem start string i
  = Done (if bool_decide (s `prefix_of` t) then TRUE else FALSE).
Proof.
  revert fuel. induction s as [|c s IH]; intros fuel t i Hs Ht Hi Hmax Hfuel;
    (destruct fuel as [|fuel]; [lia|]); cbn [startsWith_loop].
  - rewrite (holds_string_nil _ _ Hs). cbn [bind]. cbn.
    rewrite bool_decide_eq_true_2; [reflexivity|apply prefix_nil].
  - destruct (holds_string_cons _ _ _ _ Hs) as (-> & Hc & Hs'). cbn [bind].
    destruct (Z.eqb_spec c 0); [contradiction|].
    cbn [length] in *. unfold INT_MAX in *.
    destruct t as [|d t].
    + rewrite (holds_string_nil _ _ Ht). cbn [bind].
      destruct (Z.eqb_spec 0 c); [congruence|]. cbn [negb].
      rewrite bool_decide_eq_false_2; [reflexivity|]. apply prefix_nil_not.
    + destruct (holds_string_cons _ _ _ _ Ht) as (-> & Hd & Ht'). cbn [bind].
      destruct (Z.eqb_spec d c) as [->|Hne]; cbn [negb].
      * rewrite to_int_id by (unfold is_int, INT_MIN, INT_MAX; lia).
        rewrite (IH fuel t (i + 1)); try lia.
        -- destruct (decide (s `prefix_of` t)) as [Hp|Hp].
           ++ rewrite !bool_decide_eq_true_2; auto. now apply prefix_cons.
           ++ rewrite !bool_decide_eq_false_2; auto.
              intros Hp'. apply Hp. now apply prefix_cons_inv_2 in Hp'.
        -- now replace (start + (i + 1)) with (start + i + 1) by lia.
        -- now replace (string + (i + 1)) with (string + i + 1) by lia.
      * rewrite bool_decide_eq_false_2; [reflexivity|].
        intros Hp. apply prefix_cons_inv_1 in Hp. congruence.
Qed.

End Strings.

(** X26.  On two strings in memory, [startsWith start string] returns TRUE
    when the characters of [start] are a prefix of those of [string] and
    FALSE otherwise; it returns without reading outside the memory. *)
Theorem startsWith_prefix (fuel : nat) (mem : list Z) (start string : Z) (s t : list Z) :
  holds_string mem start s -> holds_string mem string t ->
  Z.of_nat (length s) <= INT_MAX -> (length s < fuel)%nat ->
  startsWith fuel mem start string
  = Done (if bool_decide (s `prefix_of` t) then TRUE else FALSE).
Proof.
  intros Hs Ht Hmax Hfuel. unfold startsWith.
  apply startsWith_loop_spec; rewrite ?Z.add_0_r; try assumption; lia.
Qed.

Lemma startsWith_prefix_witness :
  startsWith 3 [104; 105; 0; 104; 105; 33; 0] 0 3
  = Done (if bool_decide ([104; 105] `prefix_of` [104; 105; 33]) then TRUE else FALSE).
Proof.
  apply (startsWith_prefix 3 [104; 105; 0; 104; 105; 33; 0] 0 3 [104; 105] [104; 105; 33]).
  - split; [lia|]. split; [repeat constructor; discriminate|].
    split; [intros [|[|k]] Hk; simpl in Hk; try lia; reflexivity|reflexivity].
  - split; [lia|]. split; [repeat constructor; discriminate|].
    split; [intros [|[|[|k]]] Hk; simpl in Hk; try lia; reflexivity|reflexivity].
  - unfold INT_MAX. simpl. lia.
  - simpl. lia.
Defined.

Section StripCount.

Implicit Types (mem str : list Z).

Lemma holds_string_frame mem mem' p str :
  holds_string mem p str ->
  (forall k : nat, (Z.to_nat p <= k <= Z.to_nat p + length str)%nat -> mem' !! k = mem !! k) ->
  holds_string mem' p str.
Proof.
  intros (Hp & Hnz & Hk & H0) Hsame. split; [exact Hp|]. split; [exact Hnz|]. split.
  - intros k Hlt. rewrite Hsame by lia. now apply Hk.
  - rewrite Hsame by lia. exact H0.
Qed.

Lemma countChars_loop_spec mem (c : Z) str (fuel : nat) : forall (p count : Z),
  holds_string mem p str -> 0 <= count ->
  count + Z.of_nat (length str) <= INT_MAX -> (length str < fuel)%nat ->
  countChars_loop fuel mem p c count
  = Done (count + Z.of_nat (length (List.filter (fun x => x =? c) str))).
Proof.
  revert fuel. induction str as [|a str IH]; intros fuel p count Hs Hc Hmax Hfuel;
    (destruct fuel as [|fuel]; [lia|]); cbn [countChars_loop].
  - rewrite (holds_string_nil _ _ Hs). cbn. now rewrite Z.add_0_r.
  - destruct (holds_string_cons _ _ _ _ Hs) as (-> & Ha & Hs'). cbn [bind].
    destruct (Z.eqb_spec a 0); [contradiction|].
    cbn [length List.filter] in *. unfold INT_MAX in *.
    destruct (Z.eqb_spec a c).
    + rewrite to_int_id by (unfold is_int, INT_MIN, INT_MAX; lia).
      rewrite (IH fuel (p + 1) (count + 1)); try assumption; try lia.
      cbn [length]. f_equal. lia.
    + now rewrite (IH fuel (p + 1) count); try assumption; try lia.
Qed.

Lemma stripChar_loop_spec (c : Z) rem (fuel : nat) : forall mem done (in_ out s : Z),
  0 <= s -> out = s + Z.of_nat (length done) -> out <= in_ ->
  (forall k : nat, (k < length done)%nat -> mem !! (Z.to_nat s + k)%nat = done !! k) ->
  Forall (fun x => x <> 0) done ->
  holds_string mem in_ rem -> (length rem < fuel)%nat ->
  exists mem', stripChar_loop fuel mem in_ out c = Done mem'
    /\ length mem' = length mem
    /\ holds_string mem' s (done ++ List.filter (fun x => negb (x =? c)) rem)
    /\ forall k : nat, (k < Z.to_nat s \/ Z.to_nat in_ + length rem < k)%nat ->
         mem' !! k = mem !! k.
Proof.
  revert fuel.
  induction rem as [|b rem IH]; intros fuel mem done in_ out s Hs Hout Hle Hdone Hnz Hrem Hfuel;
    (destruct fuel as [|fuel]; [lia|]); cbn [stripChar_loop].
  - rewrite (holds_string_nil _ _ Hrem). cbn [bind].
    destruct Hrem as (Hin & _ & _ & H0). simpl in H0. rewrite Nat.add_0_r in H0.
    apply lookup_lt_Some in H0 as Hlen.
    rewrite poke_done by lia. cbn. eexists. split; [reflexivity|].
    split; [apply length_insert|]. split.
    + rewrite app_nil_r. split; [exact Hs|]. split; [exact Hnz|]. split.
      * intros k Hk. rewrite list_lookup_insert_ne by lia. now apply Hdone.
      * replace (Z.to_nat s + length done)%nat with (Z.to_nat out) by lia.
        apply list_lookup_insert_eq. lia.
    + intros k Hk. apply list_lookup_insert_ne. simpl in Hk. lia.
  - destruct (holds_string_cons _ _ _ _ Hrem) as (-> & Hb & Hrem'). cbn [bind].
    pose proof Hrem as (Hin & _ & Hk0 & _).
    specialize (Hk0 0%nat ltac:(simpl; lia)). rewrite Nat.add_0_r in Hk0.
    apply lookup_lt_Some in Hk0 as Hlen.
    rewrite poke_done by lia. cbn [bind].
    destruct (Z.eqb_spec b 0); [contradiction|].
    cbn [length List.filter] in *.
    set (mem1 := <[Z.to_nat out := b]> mem).
    assert (Hrem1 : holds_string mem1 (in_ + 1) rem).
    { eapply holds_string_frame; [exact Hrem'|].
      intros k Hk. apply list_lookup_insert_ne. lia. }
    destruct (Z.eqb_spec b c) as [Ebc|Nbc]; cbn [negb].
    + destruct (IH fuel mem1 done (in_ + 1) out s) as (mem' & E & L & Hstr & Hfr);
        try assumption; try lia.
      { intros k Hk. unfold mem1. rewrite list_lookup_insert_ne by lia. now apply Hdone. }
      exists mem'. split; [exact E|].
      split; [unfold mem1 in L; now rewrite length_insert in L|].
      split; [exact Hstr|].
      intros k Hk. rewrite Hfr by lia. apply list_lookup_insert_ne. lia.
    + destruct (IH fuel mem1 (done ++ [b]) (in_ + 1) (out + 1) s)
        as (mem' & E & L & Hstr & Hfr); try assumption; try lia.
      { rewrite length_app. simpl. lia. }
      { intros k Hk. rewrite length_app in Hk. simpl in Hk. unfold mem1.
        destruct (decide (k = length done)) as [->|Hne].
        - rewrite lookup_app_r by lia. rewrite Nat.sub_diag. simpl.
          replace (Z.to_nat s + length done)%nat with (Z.to_nat out) by lia.
          apply list_lookup_insert_eq. lia.
        - rewrite list_lookup_insert_ne by lia. rewrite lookup_app_l by lia.
          apply Hdone. lia. }
      { apply Forall_app. split; [exact Hnz|]. now repeat constructor. }
      exists mem'. split; [exact E|].
      split; [unfold mem1 in L; now rewrite length_insert in L|].
      split; [now rewrite <- app_assoc in Hstr|].
      intros k Hk. rewrite Hfr by lia. apply list_lookup_insert_ne. lia.
Qed.

Lemma kept_counted_length (c : Z) str :
  (length (List.filter (fun x => negb (x =? c)%Z) str)
   + length (List.filter (fun x => (x =? c)%Z) str) = length str)%nat.
Proof.
  induction str as [|a str IH]; [reflexivity|]. cbn [List.filter].
  destruct (a =? c); cbn [negb length]; lia.
Qed.

Lemma kept_has_none (c : Z) str :
  List.filter (fun x => x =? c) (List.filter (fun x => negb (x =? c)) str) = [].
Proof.
  induction str as [|a str IH]; [reflexivity|]. cbn [List.filter].
  destruct (a =? c) eqn:E; cbn [negb]; [exact IH|]. cbn [List.filter]. now rewrite E.
Qed.

End StripCount.

(** X27.  On a string in memory, [countChars] returns how many of its
    characters equal [c], and [stripChar] rewrites the string in place to
    the characters that differ from [c], in their order: the string gets
    shorter by the count, nothing outside the old string is written, and a
    count of [c] afterwards returns 0. *)
Theorem stripChar_countChars (fuel : nat) (mem : list Z) (s c : Z) (str : list Z) :
  holds_string mem s str -> Z.of_nat (length str) <= INT_MAX -> (length str < fuel)%nat ->
  exists mem' n,
    countChars fuel mem s c = Done n
    /\ n = Z.of_nat (length (List.filter (fun x => x =? c) str))
    /\ stripChar fuel mem s c = Done mem'
    /\ holds_string mem' s (List.filter (fun x => negb (x =? c)) str)
    /\ Z.of_nat (length (List.filter (fun x => negb (x =? c)) str))
       = Z.of_nat (length str) - n
    /\ length mem' = length mem
    /\ (forall k : nat, (k < Z.to_nat s \/ Z.to_nat s + length str < k)%nat ->
          mem' !! k = mem !! k)
    /\ countChars fuel mem' s c = Done 0.
Proof.
  intros Hs Hmax Hfuel.
  pose proof Hs as (Hp & _).
  destruct (stripChar_loop_spec c str fuel mem [] s s s Hp
              ltac:(simpl; lia) ltac:(lia)
              ltac:(intros k Hk; simpl in Hk; lia)
              ltac:(constructor) Hs Hfuel) as (mem' & E & L & Hstr & Hfr).
  simpl in Hstr. exists mem'. eexists.
  pose proof (kept_counted_length c str) as Hsum.
  split.
  { unfold countChars.
    rewrite (countChars_loop_spec mem c str fuel s 0 Hs); [reflexivity|lia|lia|exact Hfuel]. }
  split; [rewrite Z.add_0_l; reflexivity|].
  split; [exact E|]. split; [exact Hstr|]. split; [lia|]. split; [exact L|].
  split; [exact Hfr|].
  unfold countChars. rewrite (countChars_loop_spec mem' c _ fuel s 0 Hstr); try lia.
  now rewrite kept_has_none.
Qed.

Lemma stripChar_countChars_witness :
  exists mem' n,
    countChars 6 [7; 97; 45; 98; 45; 45; 0; 9] 1 45 = Done n
    /\ n = Z.of_nat (length (List.filter (fun x => x =? 45) [97; 45; 98; 45; 45]))
    /\ stripChar 6 [7; 97; 45; 98; 45; 45; 0; 9] 1 45 = Done mem'
    /\ holds_string mem' 1 (List.filter (fun x => negb (x =? 45)) [97; 45; 98; 45; 45])
    /\ Z.of_nat (length (List.filter (fun x => negb (x =? 45)) [97; 45; 98; 45; 45]))
       = Z.of_nat (length [97; 45; 98; 45; 45]) - n
    /\ length mem' = length [7; 97; 45; 98; 45; 45; 0; 9]
    /\ (forall k : nat, (k < Z.to_nat 1 \/ Z.to_nat 1 + length [97; 45; 98; 45; 45] < k)%nat ->
          mem' !! k = [7; 97; 45; 98; 45; 45; 0; 9] !! k)
    /\ countChars 6 mem' 1 45 = Done 0.
Proof.
  apply (stripChar_countChars 6 [7; 97; 45; 98; 45; 45; 0; 9] 1 45 [97; 45; 98; 45; 45]).
  - split; [lia|]. split; [repeat constructor; discriminate|].
    split; [intros [|[|[|[|[|k]]]]] Hk; simpl in Hk; try lia; reflexivity|reflexivity].
  - unfold INT_MAX. simpl. lia.
  - simpl. lia.
Defined.

Section Chop.

Implicit Types (mem str : list Z).

Lemma fields_nonempty (c : Z) str : fields c str <> [].
Proof.
  induction str as [|a str IH]; simpl; [discriminate|].
  destruct (a =? c); [discriminate|]. destruct (fields c str); discriminate.
Qed.

Lemma fields_count (c : Z) str :
  length (fields c str) = S (length (List.filter (fun x => x =? c) str)).
Proof.
  induction str as [|a str IH]; [reflexivity|]. cbn [fields List.filter].
  destruct (a =? c); cbn [length]; [now rewrite IH|].
  pose proof (fields_nonempty c str). destruct (fields c str); [contradiction|].
  exact IH.
Qed.

Lemma fields_single (c : Z) str (f : list Z) : fields c str = [f] -> f = str.
Proof.
  revert f. induction str as [|a str IH]; intros f; cbn [fields].
  - now intros [= <-].
  - destruct (a =? c).
    + intros [= _ E]. now apply fields_nonempty in E.
    + pose proof (fields_nonempty c str) as Hf.
      destruct (fields c str) as [|f' fs]; [contradiction|].
      intros [= <- ->]. f_equal. now apply IH.
Qed.

(** The last field is empty exactly when the string is empty or ends
    with [c]. *)
Lemma fields_last_empty (c : Z) str :
  last (fields c str) = Some [] <-> str = [] \/ last str = Some c.
Proof.
  induction str as [|a str IH]; [simpl; tauto|].
  cbn [fields]. pose proof (fields_nonempty c str) as Hf.
  destruct (Z.eqb_spec a c) as [->|Hne].
  - destruct (fields c str) as [|f fs] eqn:Ef; [contradiction|].
    rewrite last_cons_cons, IH. destruct str as [|b str]; [simpl; tauto|].
    rewrite (last_cons_cons c b str).
    split; [intros [H|H]; [discriminate|now right]|intros [H|H]; [discriminate|now right]].
  - destruct (fields c str) as [|f fs] eqn:Ef; [contradiction|].
    destruct fs as [|f' fs].
    + apply fields_single in Ef. subst f. simpl in IH. split; [discriminate|].
      intros [H|H]; [discriminate|]. destruct str as [|b str].
      * simpl in H. congruence.
      * rewrite last_cons_cons in H. destruct IH as [_ IH].
        specialize (IH (or_intror H)). discriminate.
    + rewrite last_cons_cons. rewrite last_cons_cons in IH. rewrite IH.
      destruct str as [|b str]; [discriminate|]. rewrite (last_cons_cons a b str).
      split; [intros [H|H]; [discriminate|now right]|intros [H|H]; [discriminate|now right]].
Qed.

(** The inner loop, field by field. *)
Lemma chopByChar_scan_spec mem (c : Z) (store : bool) str (fuel : nat) : forall (p : Z),
  holds_string mem p str -> (length str < fuel)%nat ->
  exists f fs, fields c str = f :: fs /\ (length f <= length str)%nat
    /\ Forall (fun x => x <> 0) f
    /\ (forall k : nat, (k < length f)%nat -> str !! k = f !! k)
    /\ (fs = [] -> f = str
          /\ chopByChar_scan fuel mem p c store
             = Done (AtEnd, mem, p + Z.of_nat (length str) + 1))
    /\ (fs <> [] ->
          (length f < length str)%nat
          /\ fields c (drop (S (length f)) str) = fs
          /\ chopByChar_scan fuel mem p c store
             = Done (AtChopper,
                     (if store then <[(Z.to_nat p + length f)%nat := 0]> mem else mem),
                     p + Z.of_nat (length f) + 1)).
Proof.
  revert fuel. induction str as [|a str IH]; intros fuel p Hs Hfuel;
    (destruct fuel as [|fuel]; [lia|]); cbn [chopByChar_scan].
  - rewrite (holds_string_nil _ _ Hs). cbn.
    exists [], []. split; [reflexivity|]. split; [simpl; lia|]. split; [constructor|].
    split; [intros k Hk; simpl in Hk; lia|]. split; [|congruence].
    intros _. split; [reflexivity|]. do 2 f_equal. simpl. lia.
  - destruct (holds_string_cons _ _ _ _ Hs) as (Hload & Ha & Hs'). rewrite Hload. cbn [bind].
    destruct (Z.eqb_spec a 0); [contradiction|]. cbn [fields length].
    pose proof Hs as (Hp & _ & Hk0 & _).
    specialize (Hk0 0%nat ltac:(simpl; lia)). rewrite Nat.add_0_r in Hk0.
    apply lookup_lt_Some in Hk0 as Hlen.
    destruct (Z.eqb_spec a c) as [->|Hne].
    + exists [], (fields c str). split; [reflexivity|]. split; [simpl; lia|].
      split; [constructor|]. split; [intros k Hk; simpl in Hk; lia|]. split.
      * intros E. now apply fields_nonempty in E.
      * intros _. split; [simpl; lia|]. split; [reflexivity|].
        replace (p + 1 - 1) with p by lia.
        destruct store; [rewrite poke_done by lia|]; cbn [bind];
          rewrite ?Nat.add_0_r; do 2 f_equal; simpl; lia.
    + cbn [length] in Hfuel.
      destruct (IH fuel (p + 1) Hs' ltac:(lia)) as (f & fs & Ef & Hlf & Hnz & Hpre & Hend & Hchop).
      rewrite Ef. exists (a :: f), fs. split; [reflexivity|]. split; [simpl; lia|].
      split; [now constructor|]. split.
      { intros [|k] Hk; [reflexivity|]. simpl in Hk. simpl. apply Hpre. lia. }
      split.
      * intros E. destruct (Hend E) as [-> ->]. split; [reflexivity|].
        do 2 f_equal. lia.
      * intros E. destruct (Hchop E) as (Hlt & Ed & ->). split; [simpl; lia|].
        split; [exact Ed|]. cbn [length].
        replace (Z.to_nat (p + 1) + length f)%nat with (Z.to_nat p + S (length f))%nat by lia.
        do 2 f_equal. lia.
Qed.

Lemma holds_string_drop mem (p : Z) str (n : nat) :
  holds_string mem p str -> (n <= length str)%nat ->
  holds_string mem (p + Z.of_nat n) (drop n str).
Proof.
  intros (Hp & Hnz & Hk & H0) Hn. split; [lia|]. split; [now apply Forall_drop|].
  rewrite length_drop. split.
  - intros k Hlt. rewrite lookup_drop.
    replace (Z.to_nat (p + Z.of_nat n) + k)%nat with (Z.to_nat p + (n + k))%nat by lia.
    apply Hk. lia.
  - replace (Z.to_nat (p + Z.of_nat n) + (length str - n))%nat
      with (Z.to_nat p + length str)%nat by lia.
    exact H0.
Qed.

(** With no array nothing is written and every field is counted. *)
Lemma chopByChar_loop_null (c outSize : Z) (fuel : nat) : forall str mem (p i : Z),
  holds_string mem p str -> 0 <= i ->
  i + Z.of_nat (length str) < INT_MAX -> (length str < fuel)%nat ->
  chopByChar_loop fuel mem None p c outSize i
  = Done (i + Z.of_nat (length (fields c str)), mem, None).
Proof.
  induction fuel as [|fuel IH]; intros str mem p i Hs Hi Hmax Hfuel; [lia|].
  cbn [chopByChar_loop notNull negb]. rewrite orb_true_r. cbn [bind notNull].
  destruct (chopByChar_scan_spec mem c false str (S fuel) p Hs Hfuel)
    as (f & fs & Ef & Hlf & Hnz & Hpre & Hend & Hchop).
  rewrite Ef. destruct fs as [|f' fs].
  - destruct (Hend eq_refl) as [_ ->]. cbn [bind length].
    rewrite to_int_id by (unfold is_int, INT_MIN, INT_MAX in *; lia).
    reflexivity.
  - destruct (Hchop ltac:(discriminate)) as (Hlt & Ed & ->). cbn [bind].
    rewrite to_int_id by (unfold is_int, INT_MIN, INT_MAX in *; lia).
    pose proof (holds_string_drop mem p str (S (length f)) Hs ltac:(lia)) as Hs'.
    replace (p + Z.of_nat (S (length f))) with (p + Z.of_nat (length f) + 1) in Hs' by lia.
    rewrite (IH _ mem _ (i + 1) Hs') by (rewrite ?length_drop; lia).
    rewrite Ed. cbn [length]. do 2 f_equal. f_equal. lia.
Qed.

(** With an array the fields are cut out one by one until the array is full. *)
Lemma chopByChar_loop_array (c outSize : Z) (fuel : nat) : forall str mem arr (p i : Z),
  holds_string mem p str -> 0 <= i <= outSize ->
  outSize <= Z.of_nat (length arr) -> outSize <= INT_MAX ->
  (length str < fuel)%nat ->
  exists mem' arr',
    chopByChar_loop fuel mem (Some arr) p c outSize i
    = Done (i + Z.min (Z.of_nat (length (fields c str))) (outSize - i), mem', Some arr')
    /\ length arr' = length arr
    /\ (forall (k : nat) f, fields c str !! k = Some f -> Z.of_nat k < outSize - i ->
          exists q, arr' !! (Z.to_nat i + k)%nat = Some q /\ holds_string mem' q f)
    /\ (forall k : nat, (k < Z.to_nat i)%nat -> arr' !! k = arr !! k)
    /\ (forall k : nat, (k < Z.to_nat p \/ Z.to_nat p + length str <= k)%nat ->
          mem' !! k = mem !! k).
Proof.
  induction fuel as [|fuel IH]; intros str mem arr p i Hs Hi Harr Hmax Hfuel; [lia|].
  cbn [chopByChar_loop notNull negb]. rewrite orb_false_r.
  destruct (Z.ltb_spec i outSize) as [Hlt|Hge].
  2:{ exists mem, arr. split; [do 2 f_equal; f_equal; lia|]. split; [reflexivity|].
      split; [intros; lia|]. split; reflexivity || auto. }
  rewrite poke_done by lia. cbn [bind notNull].
  destruct (chopByChar_scan_spec mem c true str (S fuel) p Hs Hfuel)
    as (f & fs & Ef & Hlf & Hnz & Hpre & Hend & Hchop).
  rewrite Ef. pose proof Hs as (Hp & _ & Hk & H0).
  destruct fs as [|f' fs].
  - destruct (Hend eq_refl) as [-> ->]. cbn [bind length].
    rewrite to_int_id by (unfold is_int, INT_MIN, INT_MAX in *; lia).
    exists mem, (<[Z.to_nat i := p]> arr).
    split; [do 2 f_equal; f_equal; lia|]. split; [now rewrite length_insert|].
    split; [|split; [intros k Hlk; apply list_lookup_insert_ne; lia|reflexivity]].
    intros [|k] g Hg Hkk; [|destruct k; discriminate]. injection Hg as <-.
    exists p. rewrite Nat.add_0_r. split; [|exact Hs].
    apply list_lookup_insert_eq. lia.
  - destruct (Hchop ltac:(discriminate)) as (Hlen & Ed & ->). cbn [bind].
    rewrite to_int_id by (unfold is_int, INT_MIN, INT_MAX in *; lia).
    apply lookup_lt_Some in H0 as Hmem.
    set (mem1 := <[(Z.to_nat p + length f)%nat := 0]> mem).
    set (arr1 := <[Z.to_nat i := p]> arr).
    pose proof (holds_string_drop mem p str (S (length f)) Hs ltac:(lia)) as Hs'.
    replace (p + Z.of_nat (S (length f))) with (p + Z.of_nat (length f) + 1) in Hs' by lia.
    assert (Hs1 : holds_string mem1 (p + Z.of_nat (length f) + 1) (drop (S (length f)) str)).
    { eapply holds_string_frame; [exact Hs'|]. intros k Hkk.
      apply list_lookup_insert_ne. lia. }
    destruct (IH _ mem1 arr1 _ (i + 1) Hs1 ltac:(lia)
                ltac:(unfold arr1; rewrite length_insert; lia) Hmax
                ltac:(rewrite length_drop; lia))
      as (mem' & arr' & -> & Hla & Hflds & Hfa & Hfm).
    rewrite Ed in *. rewrite length_drop in Hfm.
    exists mem', arr'. split; [cbn [length]; do 2 f_equal; f_equal; lia|].
    split; [rewrite Hla; apply length_insert|]. split; [|split].
    + intros [|k] g Hg Hkk.
      * injection Hg as <-. exists p. rewrite Nat.add_0_r. split.
        { rewrite Hfa by lia. apply list_lookup_insert_eq. lia. }
        split; [exact Hp|]. split; [exact Hnz|]. split.
        -- intros k Hlk. rewrite Hfm by lia. unfold mem1.
           rewrite list_lookup_insert_ne by lia. rewrite Hk by lia. now apply Hpre.
        -- rewrite Hfm by lia. apply list_lookup_insert_eq. lia.
      * cbn [lookup list_lookup] in Hg. destruct (Hflds k g Hg ltac:(lia)) as (q & Hq & Hsq).
        exists q. split; [|exact Hsq]. rewrite <- Hq. f_equal. lia.
    + intros k Hlk. rewrite Hfa by lia. apply list_lookup_insert_ne. lia.
    + intros k Hlk. rewrite Hfm by lia. apply list_lookup_insert_ne. lia.
Qed.

(** The counting loop of [countSeparatedItems]. *)
Lemma countSeparatedItems_loop_spec mem (c : Z) (fuel : nat) : forall str (p count lastC : Z),
  holds_string mem p str -> 0 <= count ->
  count + Z.of_nat (length str) <= INT_MAX -> (length str < fuel)%nat ->
  countSeparatedItems_loop fuel mem p c count lastC
  = Done (count + Z.of_nat (length (List.filter (fun x => x =? c) str)),
          default lastC (last str)).
Proof.
  induction fuel as [|fuel IH]; intros str p count lastC Hs Hc Hmax Hfuel; [lia|].
  cbn [countSeparatedItems_loop]. destruct str as [|a str].
  - rewrite (holds_string_nil _ _ Hs). cbn. now rewrite Z.add_0_r.
  - destruct (holds_string_cons _ _ _ _ Hs) as (-> & Ha & Hs'). cbn [bind].
    destruct (Z.eqb_spec a 0); [contradiction|]. cbn [length] in Hmax, Hfuel.
    pose proof (filter_length (fun x => x =? c) str) as Hfl.
    cbn [List.filter]. destruct (Z.eqb_spec a c).
    + rewrite to_int_id by (unfold is_int, INT_MIN, INT_MAX in *; lia).
      rewrite (IH str _ _ a Hs') by lia. cbn [length]. f_equal. f_equal; [lia|].
      rewrite last_cons. now destruct (last str).
    + rewrite (IH str _ _ a Hs') by lia. f_equal. f_equal.
      rewrite last_cons. now destruct (last str).
Qed.

End Chop.

(** X28.  [chopByChar] cuts a string in memory at every [chopper].  On the
    empty string it returns 0 and writes nothing.  With a NULL array it only
    counts: it returns the number of fields, one more than there are
    choppers, and leaves the memory as it is.  With an array of [outSize]
    slots it returns the smaller of the number of fields and [outSize], and
    each slot it filled points to a 0-terminated copy of the field of the
    same index; nothing outside the string is written. *)
Theorem chopByChar_splits (fuel : nat) (mem : list Z) (s c outSize : Z) (str : list Z) :
  holds_string mem s str -> (length str < fuel)%nat ->
  (str = [] -> forall outArray,
      chopByChar fuel mem outArray s c outSize = Done (0, mem, outArray))
  /\ (str <> [] -> Z.of_nat (length str) < INT_MAX ->
      chopByChar fuel mem None s c outSize
      = Done (Z.of_nat (length (fields c str)), mem, None)
      /\ length (fields c str) = S (length (List.filter (fun x => x =? c) str)))
  /\ (str <> [] -> forall arr,
      0 <= outSize <= Z.of_nat (length arr) -> outSize <= INT_MAX ->
      exists mem' arr',
        chopByChar fuel mem (Some arr) s c outSize
        = Done (Z.min (Z.of_nat (length (fields c str))) outSize, mem', Some arr')
        /\ length arr' = length arr
        /\ (forall (k : nat) f, fields c str !! k = Some f -> Z.of_nat k < outSize ->
              exists q, arr' !! k = Some q /\ holds_string mem' q f)
        /\ (forall k : nat, (k < Z.to_nat s \/ Z.to_nat s + length str <= k)%nat ->
              mem' !! k = mem !! k)).
Proof.
  intros Hs Hfuel. unfold chopByChar. split; [|split].
  - intros -> outArray. now rewrite (holds_string_nil _ _ Hs).
  - intros Hne Hmax. destruct str as [|a str]; [contradiction|].
    destruct (holds_string_cons _ _ _ _ Hs) as (-> & Ha & _). cbn [bind].
    destruct (Z.eqb_spec a 0); [contradiction|]. split; [|apply fields_count].
    now rewrite (chopByChar_loop_null c outSize fuel _ mem s 0 Hs) by lia.
  - intros Hne arr Hsize Hmax. destruct str as [|a str]; [contradiction|].
    destruct (holds_string_cons _ _ _ _ Hs) as (-> & Ha & _). cbn [bind].
    destruct (Z.eqb_spec a 0); [contradiction|].
    destruct (chopByChar_loop_array c outSize fuel _ mem arr s 0 Hs ltac:(lia)
                ltac:(lia) Hmax Hfuel) as (mem' & arr' & -> & Hla & Hflds & _ & Hfm).
    exists mem', arr'. rewrite Z.sub_0_r, Z.add_0_l. split; [reflexivity|].
    split; [exact Hla|]. split; [|exact Hfm].
    intros k f Hf Hk. apply (Hflds k f Hf). lia.
Qed.

Lemma chopByChar_splits_witness :
  (([97; 44; 98; 44; 99] : list Z) = [] -> forall outArray,
      chopByChar 6 [97; 44; 98; 44; 99; 0] outArray 0 44 2
      = Done (0, [97; 44; 98; 44; 99; 0], outArray))
  /\ (([97; 44; 98; 44; 99] : list Z) <> [] ->
      Z.of_nat (length ([97; 44; 98; 44; 99] : list Z)) < INT_MAX ->
      chopByChar 6 [97; 44; 98; 44; 99; 0] None 0 44 2
      = Done (Z.of_nat (length (fields 44 [97; 44; 98; 44; 99])),
              [97; 44; 98; 44; 99; 0], None)
      /\ length (fields 44 [97; 44; 98; 44; 99])
         = S (length (List.filter (fun x => x =? 44) [97; 44; 98; 44; 99])))
  /\ (([97; 44; 98; 44; 99] : list Z) <> [] -> forall arr,
      0 <= 2 <= Z.of_nat (length arr) -> 2 <= INT_MAX ->
      exists mem' arr',
        chopByChar 6 [97; 44; 98; 44; 99; 0] (Some arr) 0 44 2
        = Done (Z.min (Z.of_nat (length (fields 44 [97; 44; 98; 44; 99]))) 2,
                mem', Some arr')
        /\ length arr' = length arr
        /\ (forall (k : nat) f, fields 44 [97; 44; 98; 44; 99] !! k = Some f ->
              Z.of_nat k < 2 ->
              exists q, arr' !! k = Some q /\ holds_string mem' q f)
        /\ (forall k : nat,
              (k < Z.to_nat 0 \/ Z.to_nat 0 + length ([97; 44; 98; 44; 99]%Z : list Z) <= k)%nat ->
              mem' !! k = [97; 44; 98; 44; 99; 0] !! k)).
Proof.
  apply (chopByChar_splits 6 [97; 44; 98; 44; 99; 0] 0 44 2 [97; 44; 98; 44; 99]).
  - split; [lia|]. split; [repeat constructor; discriminate|].
    split; [intros [|[|[|[|[|k]]]]] Hk; simpl in Hk; try lia; reflexivity|reflexivity].
  - simpl. lia.
Defined.

(** X29.  [countSeparatedItems] counts the fields of a string that
    [separator] cuts, leaving out a last field that is empty: a string that
    ends with the separator has as many items as separators, any other
    non-empty string one more, and the empty string none. *)
Theorem countSeparatedItems_fields (fuel : nat) (mem : list Z) (s c : Z) (str : list Z) :
  holds_string mem s str -> Z.of_nat (length str) < INT_MAX -> (length str < fuel)%nat ->
  countSeparatedItems fuel mem s c
  = Done (match last (fields c str) with
          | Some [] => Z.of_nat (length (fields c str)) - 1
          | _ => Z.of_nat (length (fields c str))
          end)
  /\ (last (fields c str) = Some [] <-> str = [] \/ last str = Some c).
Proof.
  intros Hs Hmax Hfuel. split; [|apply fields_last_empty].
  unfold countSeparatedItems.
  rewrite (countSeparatedItems_loop_spec mem c fuel str s 0 0 Hs) by lia.
  cbn [bind fst snd]. rewrite fields_count, Z.add_0_l.
  pose proof (filter_length (fun x => x =? c) str) as Hfl.
  pose proof (fields_last_empty c str) as Hlast.
  destruct Hs as (_ & Hnz & _).
  destruct (last str) as [l|] eqn:El.
  - change (default 0 (Some l)) with l.
    assert (Hl : l <> 0).
    { apply last_Some in El as (pre & ->). apply Forall_app in Hnz as [_ Hnz].
      apply Forall_inv in Hnz. exact Hnz. }
    destruct (Z.eqb_spec l c) as [->|Hne]; cbn [negb andb].
    + destruct Hlast as [_ ->]; [|now right]. f_equal. lia.
    + destruct (Z.eqb_spec l 0); [contradiction|]. cbn [negb].
      rewrite to_int_id by (unfold is_int, INT_MIN, INT_MAX in *; lia).
      destruct (last (fields c str)) as [[|x f]|] eqn:Ef; try (f_equal; lia).
      destruct Hlast as [Hlast _]. destruct (Hlast eq_refl) as [->|E]; [discriminate|].
      congruence.
  - apply last_None in El. subst str. cbn. now rewrite andb_false_r.
Qed.

Lemma countSeparatedItems_fields_witness :
  countSeparatedItems 6 [97; 44; 98; 44; 0] 0 44
  = Done (match last (fields 44 [97; 44; 98; 44]) with
          | Some [] => Z.of_nat (length (fields 44 [97; 44; 98; 44])) - 1
          | _ => Z.of_nat (length (fields 44 [97; 44; 98; 44]))
          end)
  /\ (last (fields 44 [97; 44; 98; 44]) = Some []
      <-> ([97; 44; 98; 44] : list Z) = [] \/ last [97; 44; 98; 44] = Some 44).
Proof.
  apply (countSeparatedItems_fields 6 [97; 44; 98; 44; 0] 0 44 [97; 44; 98; 44]).
  - split; [lia|]. split; [repeat constructor; discriminate|].
    split; [intros [|[|[|[|k]]]] Hk; simpl in Hk; try lia; reflexivity|reflexivity].
  - unfold INT_MAX. simpl. lia.
  - simpl. lia.
Defined.

Ltac tm_simpl :=
  unfold set_mon, set_year, set_mday, dateAdd_measure; cbn [tm_mday tm_mon tm_year].

Section Dates.

(** The months at both ends of the year have 31 days whatever the year. *)
Lemma daysOfMonth_31 (d m y : Z) :
  m = 0 \/ m = 11 \/ m = 12 \/ m = -1 ->
  daysOfMonth {| tm_mday := d; tm_mon := m; tm_year := y |} = 31.
Proof. intros [->|[->|[->| ->]]]; reflexivity. Qed.

Lemma daysOfMonth_mday (d d' m y : Z) :
  daysOfMonth {| tm_mday := d; tm_mon := m; tm_year := y |}
  = daysOfMonth {| tm_mday := d'; tm_mon := m; tm_year := y |}.
Proof. reflexivity. Qed.

End Dates.

Section DateLoop.

(** A property of the date that every pass of the loop keeps: the four
    hypotheses are the four ways a pass changes the date. *)
Variable P : tm -> Prop.

Hypothesis P_late : forall d m y,
  P {| tm_mday := d; tm_mon := m; tm_year := y |} -> 11 < m -> is_int m ->
  P {| tm_mday := d; tm_mon := Z.rem m 12; tm_year := to_int (y + Z.quot m 12) |}.

Hypothesis P_early : forall d m y,
  P {| tm_mday := d; tm_mon := m; tm_year := y |} -> m < 0 -> is_int m ->
  P {| tm_mday := d; tm_mon := Z.rem m 12 + 12;
       tm_year := to_int (y + (Z.quot m 12 - 1)) |}.

Hypothesis P_next : forall d m y,
  P {| tm_mday := d; tm_mon := m; tm_year := y |} -> 0 <= m <= 11 -> is_int d ->
  daysOfMonth {| tm_mday := d; tm_mon := m; tm_year := y |} < d ->
  P {| tm_mday := d - daysOfMonth {| tm_mday := d; tm_mon := m; tm_year := y |};
       tm_mon := m + 1; tm_year := y |}.

Hypothesis P_prev : forall d m y,
  P {| tm_mday := d; tm_mon := m; tm_year := y |} -> 0 <= m <= 11 -> is_int d ->
  d < 1 ->
  P {| tm_mday := d + daysOfMonth {| tm_mday := d; tm_mon := m - 1; tm_year := y |};
       tm_mon := m - 1; tm_year := y |}.

(** The loop ends, and on a date. *)
Lemma dateAdd_loop_ends (fuel : nat) : forall (tp : tm) (dom : Z),
  P tp -> is_int (tm_mday tp) -> is_int (tm_mon tp) ->
  dom = 28 \/ (dom = daysOfMonth tp /\ -1 <= tm_mon tp <= 12) ->
  dateAdd_measure tp dom <= Z.of_nat fuel ->
  exists r, dateAdd_loop fuel tp dom = Done r /\ date_ok r /\ P r.
Proof.
  induction fuel as [|fuel IH]; intros [d m y] dom HP Hd Hm Hinv Hfuel;
    unfold dateAdd_measure in Hfuel; cbn [tm_mday tm_mon tm_year] in *.
  - exfalso. revert Hfuel. bool_lia.
  - cbn [dateAdd_loop]. cbv zeta. tm_simpl.
    pose proof (daysOfMonth_bounds {| tm_mday := d; tm_mon := m; tm_year := y |}) as Hb.
    destruct (Z.ltb_spec 11 m) as [Hm1|Hm1]; cbn [orb].
    + (* the month is past December *)
      pose proof (Z.rem_bound_pos m 12 ltac:(lia) ltac:(lia)) as Hrem.
      apply IH; tm_simpl; [now apply P_late|exact Hd| | |].
      * unfold is_int, INT_MIN, INT_MAX. lia.
      * destruct Hinv as [->|[-> Hr]]; [now left|]. right.
        assert (m = 12) as -> by lia. split; [reflexivity|].
        change (Z.rem 12 12) with 0. lia.
      * revert Hfuel. bool_lia.
    + destruct (Z.ltb_spec m 0) as [Hm0|Hm0]; cbn [orb].
      * (* the month is before January *)
        pose proof (Z.rem_bound_pos_neg m 12 ltac:(lia) ltac:(lia)) as Hrem.
        rewrite (to_int_id (Z.rem m 12 + 12))
          by (unfold is_int, INT_MIN, INT_MAX; lia).
        apply IH; tm_simpl; [now apply P_early|exact Hd| | |].
        -- unfold is_int, INT_MIN, INT_MAX. lia.
        -- destruct Hinv as [->|[-> Hr]]; [now left|]. right.
           assert (m = -1) as -> by lia. split; [reflexivity|].
           change (Z.rem (-1) 12) with (-1). lia.
        -- revert Hfuel. bool_lia.
      * set (dm := daysOfMonth {| tm_mday := d; tm_mon := m; tm_year := y |}) in *.
        pose proof Hd as Hd'. pose proof Hm as Hm'.
        unfold is_int, INT_MIN, INT_MAX in Hd', Hm'.
        destruct ((dom <? d) || (d <? 1)) eqn:Hc.
        2:{ apply orb_false_elim in Hc as [H1 H2]. apply Z.ltb_ge in H1, H2.
            eexists. split; [reflexivity|]. split; [|exact HP].
            unfold date_ok. tm_simpl. fold dm.
            destruct Hinv as [->|[-> _]]; lia. }
        apply orb_true_iff in Hc. rewrite !Z.ltb_lt in Hc.
        destruct (Z.ltb_spec dm d) as [Hgt|Hle].
        -- (* the day is past the end of the month *)
           rewrite (to_int_id (d - dm)), (to_int_id (m + 1))
             by (unfold is_int, INT_MIN, INT_MAX; lia).
           match goal with |- context [dateAdd_loop fuel ?t ?x] =>
             pose proof (daysOfMonth_bounds t) as Hb' end.
           apply IH; tm_simpl;
             [apply P_next; [exact HP|lia|exact Hd|exact Hgt]
             |unfold is_int, INT_MIN, INT_MAX; lia
             |unfold is_int, INT_MIN, INT_MAX; lia| |].
           ++ right. split; [reflexivity|lia].
           ++ revert Hfuel Hb'. bool_lia.
        -- destruct (Z.ltb_spec d 1) as [Hlt|Hge].
           ++ (* the day is before the first of the month *)
              rewrite (to_int_id (m - 1)) by (unfold is_int, INT_MIN, INT_MAX; lia).
              set (dm' := daysOfMonth {| tm_mday := d; tm_mon := m - 1; tm_year := y |}).
              pose proof (daysOfMonth_bounds {| tm_mday := d; tm_mon := m - 1; tm_year := y |})
                as Hb'. fold dm' in Hb'.
              rewrite (to_int_id (d + dm')) by (unfold is_int, INT_MIN, INT_MAX; lia).
              apply IH; tm_simpl;
                [apply P_prev; [exact HP|lia|exact Hd|exact Hlt]
                |unfold is_int, INT_MIN, INT_MAX; lia
                |unfold is_int, INT_MIN, INT_MAX; lia| |].
              ** right. split; [reflexivity|lia].
              ** revert Hfuel. bool_lia.
           ++ (* the day is within the month, whose length was not known *)
              apply IH; tm_simpl; [exact HP|exact Hd|exact Hm| |].
              ** right. split; [reflexivity|lia].
              ** fold dm. revert Hfuel. bool_lia.
Qed.

End DateLoop.

Section Dates2.

Lemma to_int_is_int (z : Z) : is_int (to_int z).
Proof.
  unfold is_int, INT_MIN, INT_MAX, to_int.
  pose proof (Z.mod_pos_bound (z + 2147483648) 4294967296 ltac:(lia)). lia.
Qed.

Lemma dateAdd_loop_exit (fuel : nat) (tp : tm) (dom : Z) :
  0 <= tm_mon tp <= 11 -> 1 <= tm_mday tp <= dom ->
  dateAdd_loop (S fuel) tp dom = Done tp.
Proof.
  intros Hm Hd. cbn [dateAdd_loop].
  destruct (Z.ltb_spec 11 (tm_mon tp)); [lia|].
  destruct (Z.ltb_spec (tm_mon tp) 0); [lia|].
  destruct (Z.ltb_spec dom (tm_mday tp)); [lia|].
  destruct (Z.ltb_spec (tm_mday tp) 1); [lia|]. reflexivity.
Qed.

Lemma dateAdd_loop_late (fuel : nat) (tp : tm) (dom : Z) :
  11 < tm_mon tp ->
  dateAdd_loop (S fuel) tp dom
  = dateAdd_loop fuel {| tm_mday := tm_mday tp; tm_mon := Z.rem (tm_mon tp) 12;
                         tm_year := to_int (tm_year tp + Z.quot (tm_mon tp) 12) |} dom.
Proof.
  intros Hm. cbn [dateAdd_loop].
  destruct (Z.ltb_spec 11 (tm_mon tp)); [reflexivity|lia].
Qed.

Lemma dateAdd_loop_early (fuel : nat) (tp : tm) (dom : Z) :
  tm_mon tp < 0 ->
  dateAdd_loop (S fuel) tp dom
  = dateAdd_loop fuel {| tm_mday := tm_mday tp;
                         tm_mon := to_int (Z.rem (tm_mon tp) 12 + 12);
                         tm_year := to_int (tm_year tp + (Z.quot (tm_mon tp) 12 - 1)) |} dom.
Proof.
  intros Hm. cbn [dateAdd_loop].
  destruct (Z.ltb_spec 11 (tm_mon tp)); [lia|].
  destruct (Z.ltb_spec (tm_mon tp) 0); [reflexivity|lia].
Qed.

Lemma dateAdd_loop_known (fuel : nat) (tp : tm) (dom : Z) :
  0 <= tm_mon tp <= 11 -> dom < tm_mday tp -> 1 <= tm_mday tp <= daysOfMonth tp ->
  dateAdd_loop (S fuel) tp dom = dateAdd_loop fuel tp (daysOfMonth tp).
Proof.
  intros Hm Hdom Hd. cbn [dateAdd_loop].
  destruct (Z.ltb_spec 11 (tm_mon tp)); [lia|].
  destruct (Z.ltb_spec (tm_mon tp) 0); [lia|].
  destruct (Z.ltb_spec dom (tm_mday tp)); [|lia]. cbn [orb]. cbv zeta.
  destruct (Z.ltb_spec (daysOfMonth tp) (tm_mday tp)); [lia|].
  destruct (Z.ltb_spec (tm_mday tp) 1); [lia|]. reflexivity.
Qed.

(** Moving the month alone: the day stays and the month number moves by
    the months added. *)
Lemma dateAdd_loop_months (fuel : nat) (d m y : Z) :
  1 <= d <= 28 -> is_int m -> -1000000000 <= y <= 1000000000 ->
  exists r, dateAdd_loop (S (S (S fuel))) {| tm_mday := d; tm_mon := m; tm_year := y |} 28
            = Done r
    /\ tm_mday r = d /\ 0 <= tm_mon r <= 11 /\ 12 * tm_year r + tm_mon r = 12 * y + m.
Proof.
  intros Hd Hm Hy. unfold is_int, INT_MIN, INT_MAX in Hm.
  pose proof (Z.quot_rem' m 12) as Hqr.
  destruct (Z_lt_le_dec 11 m) as [Hlate|Hle].
  - pose proof (Z.rem_bound_pos m 12 ltac:(lia) ltac:(lia)) as Hr.
    rewrite dateAdd_loop_late by (simpl; lia). cbn [tm_mday tm_mon tm_year].
    rewrite to_int_id by (unfold is_int, INT_MIN, INT_MAX; lia).
    rewrite dateAdd_loop_exit by (simpl; lia).
    eexists. split; [reflexivity|]. simpl. lia.
  - destruct (Z_lt_le_dec m 0) as [Hearly|Hge].
    + pose proof (Z.rem_bound_pos_neg m 12 ltac:(lia) ltac:(lia)) as Hr.
      rewrite dateAdd_loop_early by (simpl; lia). cbn [tm_mday tm_mon tm_year].
      rewrite !to_int_id by (unfold is_int, INT_MIN, INT_MAX; lia).
      destruct (Z.eq_dec (Z.rem m 12) 0) as [E0|E0].
      * rewrite dateAdd_loop_late by (simpl; lia). cbn [tm_mday tm_mon tm_year].
        rewrite E0. change (Z.rem (0 + 12) 12) with 0. change (Z.quot (0 + 12) 12) with 1.
        rewrite to_int_id by (unfold is_int, INT_MIN, INT_MAX; lia).
        rewrite dateAdd_loop_exit by (simpl; lia).
        eexists. split; [reflexivity|]. simpl. lia.
      * rewrite dateAdd_loop_exit by (simpl; lia).
        eexists. split; [reflexivity|]. simpl. lia.
    + rewrite dateAdd_loop_exit by (simpl; lia).
      eexists. split; [reflexivity|]. simpl. lia.
Qed.

End Dates2.

Section DayNumber.

Lemma daysBefore_bounds (n : nat) :
  28 * Z.of_nat n <= daysBefore n <= 31 * Z.of_nat n.
Proof.
  induction n as [|n IH]; [simpl; lia|]. cbn [daysBefore].
  match goal with |- context [daysOfMonth ?t] => pose proof (daysOfMonth_bounds t) end.
  lia.
Qed.

Lemma daysBefore_succ (n d m y : Z) :
  0 <= m <= 11 -> n = 12 * y + m -> 0 <= n ->
  daysBefore (Z.to_nat (n + 1))
  = daysBefore (Z.to_nat n) + daysOfMonth {| tm_mday := d; tm_mon := m; tm_year := y |}.
Proof.
  intros Hm Hn H0. replace (Z.to_nat (n + 1)) with (S (Z.to_nat n)) by lia.
  cbn [daysBefore]. rewrite Z2Nat.id by lia.
  replace (n mod 12) with m by (apply (Z.mod_unique_pos n 12 y m); lia).
  replace (n / 12) with y by (apply (Z.div_unique_pos n 12 y m); lia).
  reflexivity.
Qed.

Variable K : Z.
Hypothesis HK : 1 <= K <= 4294967296.

(** The year of a date on the way to day [K] is far from the ends of
    [int]. *)
Lemma dayInv_year (d m y : Z) :
  dayInv K {| tm_mday := d; tm_mon := m; tm_year := y |} -> -1 <= y <= 30000000.
Proof.
  intros (Hm & Hn & Hday & Hd). unfold dayNumber, monthNumber in *.
  cbn [tm_mday tm_mon tm_year] in *. unfold is_int, INT_MIN, INT_MAX in Hd.
  pose proof (daysBefore_bounds (Z.to_nat (12 * y + m))). lia.
Qed.

Lemma dayInv_late (d m y : Z) :
  dayInv K {| tm_mday := d; tm_mon := m; tm_year := y |} -> 11 < m -> is_int m ->
  dayInv K {| tm_mday := d; tm_mon := Z.rem m 12; tm_year := to_int (y + Z.quot m 12) |}.
Proof.
  intros Hinv Hlate _. pose proof (dayInv_year _ _ _ Hinv) as Hy.
  destruct Hinv as (Hm & Hn & Hday & Hd). cbn [tm_mon] in Hm.
  assert (m = 12) as -> by lia.
  change (Z.rem 12 12) with 0. change (Z.quot 12 12) with 1.
  rewrite to_int_id by (unfold is_int, INT_MIN, INT_MAX; lia).
  unfold dayInv, dayNumber, monthNumber in *. cbn [tm_mday tm_mon tm_year] in *.
  replace (12 * (y + 1) + 0) with (12 * y + 12) by lia.
  repeat split; try lia; apply Hd.
Qed.

Lemma dayInv_early (d m y : Z) :
  dayInv K {| tm_mday := d; tm_mon := m; tm_year := y |} -> m < 0 -> is_int m ->
  dayInv K {| tm_mday := d; tm_mon := Z.rem m 12 + 12;
              tm_year := to_int (y + (Z.quot m 12 - 1)) |}.
Proof.
  intros Hinv Hearly _. pose proof (dayInv_year _ _ _ Hinv) as Hy.
  destruct Hinv as (Hm & Hn & Hday & Hd). cbn [tm_mon] in Hm.
  assert (m = -1) as -> by lia.
  change (Z.rem (-1) 12) with (-1). change (Z.quot (-1) 12) with 0.
  rewrite to_int_id by (unfold is_int, INT_MIN, INT_MAX; lia).
  unfold dayInv, dayNumber, monthNumber in *. cbn [tm_mday tm_mon tm_year] in *.
  replace (12 * (y + (0 - 1)) + (-1 + 12)) with (12 * y + -1) by lia.
  repeat split; try lia; apply Hd.
Qed.

Lemma dayInv_next (d m y : Z) :
  dayInv K {| tm_mday := d; tm_mon := m; tm_year := y |} -> 0 <= m <= 11 -> is_int d ->
  daysOfMonth {| tm_mday := d; tm_mon := m; tm_year := y |} < d ->
  dayInv K {| tm_mday := d - daysOfMonth {| tm_mday := d; tm_mon := m; tm_year := y |};
              tm_mon := m + 1; tm_year := y |}.
Proof.
  intros (_ & Hn & Hday & _) Hm Hd Hgt.
  pose proof (daysOfMonth_bounds {| tm_mday := d; tm_mon := m; tm_year := y |}) as Hb.
  unfold dayInv, dayNumber, monthNumber in *. cbn [tm_mday tm_mon tm_year] in *.
  replace (12 * y + (m + 1)) with (12 * y + m + 1) by lia.
  rewrite (daysBefore_succ (12 * y + m) d m y) by lia.
  unfold is_int, INT_MIN, INT_MAX in *. repeat split; lia.
Qed.

Lemma dayInv_prev (d m y : Z) :
  dayInv K {| tm_mday := d; tm_mon := m; tm_year := y |} -> 0 <= m <= 11 -> is_int d ->
  d < 1 ->
  dayInv K {| tm_mday := d + daysOfMonth {| tm_mday := d; tm_mon := m - 1; tm_year := y |};
              tm_mon := m - 1; tm_year := y |}.
Proof.
  intros (_ & Hn & Hday & _) Hm Hd Hlt.
  pose proof (daysOfMonth_bounds {| tm_mday := d; tm_mon := m - 1; tm_year := y |}) as Hb.
  unfold dayInv, dayNumber, monthNumber in *. cbn [tm_mday tm_mon tm_year] in *.
  pose proof (daysBefore_bounds (Z.to_nat (12 * y + m))) as Hdb.
  assert (Hpos : 1 <= 12 * y + m) by lia.
  assert (Hstep : daysBefore (Z.to_nat (12 * y + m))
                  = daysBefore (Z.to_nat (12 * y + (m - 1)))
                    + daysOfMonth {| tm_mday := d; tm_mon := m - 1; tm_year := y |}).
  { replace (12 * y + m) with (12 * y + (m - 1) + 1) at 1 by lia.
    destruct (Z.eq_dec m 0) as [->|Hm0].
    - rewrite (daysBefore_succ (12 * y + (0 - 1)) d 11 (y - 1)) by lia. reflexivity.
    - now rewrite (daysBefore_succ (12 * y + (m - 1)) d (m - 1) y) by lia. }
  unfold is_int, INT_MIN, INT_MAX in *. repeat split; lia.
Qed.

End DayNumber.


